(** * vscode-codespell: change detection, range resolution and the
      per-document diagnostic lifecycle

    A shallow embedding of [out/utils.js], [out/chat.js] and the diagnostics
    module of the extension, together with the parts of the JavaScript
    runtime and of the libraries they call that decide their behaviour:
    string primitives, the unified-patch writer of the [diff] package, the
    regular-expression engine and the editor's document model. *)

From Stdlib Require Import Ascii String DecimalString Arith Lia Sorting.Sorted.
From stdpp Require Import base option list strings gmap.

Set Default Proof Using "Type".
Local Open Scope nat_scope.

(** ** JavaScript string primitives

    A JavaScript string is a sequence of 16-bit code units; the model keeps
    the code units below 256, that is Rocq's [string]. Indices and lengths
    are [nat]. *)
Module JsString.

Definition LF : ascii := "010"%char.
Definition CR : ascii := "013"%char.
Definition nl : string := String LF "".

(** [s.startsWith(p)] *)
Definition startsWith (p s : string) : bool := String.prefix p s.

(** [s.slice(n)] for [0 <= n] *)
Fixpoint slice (n : nat) (s : string) : string :=
  match n, s with
  | 0, _ => s
  | S _, "" => ""
  | S n', String _ s' => slice n' s'
  end.

(** [s.includes(p)] *)
Fixpoint includes (p s : string) : bool :=
  String.prefix p s ||
  match s with
  | "" => false
  | String _ s' => includes p s'
  end.

(** [s.split(sep)] for a non-empty separator: the pieces between the
    successive non-overlapping occurrences of [sep], scanning left to right.
    [skip] counts the code units of a separator still to be stepped over and
    [cur] is the piece being collected. *)
Fixpoint split_go (sep s : string) (skip : nat) (cur : string) : list string :=
  match s with
  | "" => [cur]
  | String c s' =>
      match skip with
      | S k => split_go sep s' k cur
      | 0 =>
          if String.prefix sep s
          then cur :: split_go sep s' (String.length sep - 1) ""
          else split_go sep s' 0 (cur +:+ String c "")
      end
  end.

Definition split (sep s : string) : list string := split_go sep s 0 "".

(** [a.join(sep)] *)
Fixpoint join (sep : string) (l : list string) : string :=
  match l with
  | [] => ""
  | [x] => x
  | x :: rest => x +:+ sep +:+ join sep rest
  end.

(** lodash's [_.isEmpty] on a string, and on an array *)
Definition isEmpty (s : string) : bool :=
  match s with "" => true | _ => false end.

Definition isEmptyArray {A} (l : list A) : bool :=
  match l with [] => true | _ => false end.

(** [/\n$/.test(s)] *)
Fixpoint endsWithLF (s : string) : bool :=
  match s with
  | "" => false
  | String c "" => if ascii_dec c LF then true else false
  | String _ s' => endsWithLF s'
  end.

(** White space and line terminators, among the code units below 256. *)
Definition isWhiteSpace (c : ascii) : bool :=
  let n := nat_of_ascii c in
  ((9 <=? n) && (n <=? 13)) || (n =? 32) || (n =? 160).

Fixpoint trimStart (s : string) : string :=
  match s with
  | "" => ""
  | String c s' => if isWhiteSpace c then trimStart s' else s
  end.

Fixpoint trimEnd (s : string) : string :=
  match s with
  | "" => ""
  | String c s' =>
      match trimEnd s' with
      | "" => if isWhiteSpace c then "" else String c ""
      | rest => String c rest
      end
  end.

(** [s.trim()] *)
Definition trim (s : string) : string := trimEnd (trimStart s).

(** [String(n)] for a non-negative integer *)
Definition ofNat (n : nat) : string := NilEmpty.string_of_uint (Nat.to_uint n).

End JsString.
Import JsString.

(** ** The unified patch of the [diff] package

    [utils.js] calls [Diff.createPatch('code', code1, code2)] of the [diff]
    package, a dependency that is not part of the repository. *)
Module Diff.

Inductive kind := Common | Added | Removed.

Global Instance kind_eq_dec : EqDecision kind.
Proof. solve_decision. Defined.

(** One run of the edit script: consecutive line tokens of one kind. *)
Record component := Component { ckind : kind; ctokens : list string }.

(** Line tokens keep their terminator; the last one has none when the text
    does not end in a line feed, and the empty text has no token. *)
Fixpoint tokenize_go (s cur : string) : list string :=
  match s with
  | "" => if isEmpty cur then [] else [cur]
  | String c s' =>
      if ascii_dec c LF then (cur +:+ nl) :: tokenize_go s' ""
      else tokenize_go s' (cur +:+ String c "")
  end.

Definition tokenize (s : string) : list string := tokenize_go s "".

(** The text of a token without its terminator: a line of the patch. *)
Fixpoint chomp (s : string) : string :=
  match s with
  | "" => ""
  | String c s' =>
      match s' with
      | "" => if ascii_dec c LF then "" else s
      | _ => String c (chomp s')
      end
  end.

Definition edit : Type := kind * string.

Definition cost (es : list edit) : nat :=
  length (filter (λ e, bool_decide (e.1 ≠ Common)) es).

(** A shortest edit script from [old] to [new]: equal heads are kept (the
    diagonal is followed as far as it goes), otherwise the cheaper of
    removing the old head and adding the new head is taken, removal first
    on a tie. *)
Fixpoint script (old : list string) : list string → list edit :=
  match old with
  | [] => map (pair Added)
  | x :: old' =>
      fix inner (new : list string) : list edit :=
        match new with
        | [] => map (pair Removed) (x :: old')
        | y :: new' =>
            if decide (x = y) then (Common, x) :: script old' new'
            else
              let d := (Removed, x) :: script old' (y :: new') in
              let a := (Added, y) :: inner new' in
              if cost d <=? cost a then d else a
        end
  end.

(** Consecutive edits of one kind are merged into one component. *)
Fixpoint group (es : list edit) : list component :=
  match es with
  | [] => []
  | (k, t) :: es' =>
      match group es' with
      | Component k' ts :: cs =>
          if decide (k = k') then Component k (t :: ts) :: cs
          else Component k [t] :: Component k' ts :: cs
      | [] => [Component k [t]]
      end
  end.

Definition diffLines (oldStr newStr : string) : list component :=
  group (script (tokenize oldStr) (tokenize newStr)).

(** *** Hunks

    The hunk builder walks the components with a sentinel (an empty run of
    common lines) appended; [rest] is what follows the current component,
    sentinel included, so the package's test [i < diff.length - 2] reads
    [2 <= length rest]. *)
Record hunk := Hunk {
  oldStart : nat; oldLines : nat;
  newStart : nat; newLines : nat;
  hlines : list string
}.

Record range_state := RangeState {
  oldRangeStart : nat;   (* 0: no hunk is open *)
  newRangeStart : nat;
  curRange : list string;
  oldLine : nat;
  newLine : nat
}.

Definition context : nat := 4.
Definition noNewline : string := "\ No newline at end of file".

Definition clines (c : component) : list string := map chomp (ctokens c).
Definition contextLines (lines : list string) : list string := map (String " ") lines.
Definition markedLines (k : kind) (lines : list string) : list string :=
  map (String (if decide (k = Added) then "+" else "-")%char) lines.

(** [a.slice(-n)] *)
Definition lastn {A} (n : nat) (l : list A) : list A := drop (length l - n) l.
(** [a.splice(i, 0, x)] *)
Definition splice {A} (i : nat) (x : A) (l : list A) : list A := take i l ++ x :: drop i l.

Definition openRange (prev : option component) (st : range_state) : range_state :=
  if oldRangeStart st =? 0 then
    let ctx := match prev with
               | Some p => contextLines (lastn context (clines p))
               | None => []
               end in
    RangeState (oldLine st - length ctx) (newLine st - length ctx) ctx
               (oldLine st) (newLine st)
  else st.

Definition eofLines (oldStr newStr : string) (lines cur : list string) (oldLines : nat)
  : list string :=
  let oldEOFNewline := endsWithLF oldStr in
  let newEOFNewline := endsWithLF newStr in
  let noNlBeforeAdds := (length lines =? 0) && (oldLines <? length cur) in
  let cur1 :=
    if negb oldEOFNewline && noNlBeforeAdds && (0 <? String.length oldStr)
    then splice oldLines noNewline cur else cur in
  if (negb oldEOFNewline && negb noNlBeforeAdds) || negb newEOFNewline
  then cur1 ++ [noNewline] else cur1.

Fixpoint hunks_go (oldStr newStr : string) (prev : option component)
    (diff : list component) (st : range_state) : list hunk :=
  match diff with
  | [] => []
  | current :: rest =>
      let lines := clines current in
      let n := length lines in
      match ckind current with
      | Common =>
          if oldRangeStart st =? 0 then
            hunks_go oldStr newStr (Some current) rest
              (RangeState 0 0 (curRange st) (oldLine st + n) (newLine st + n))
          else if (n <=? context * 2) && (2 <=? length rest) then
            hunks_go oldStr newStr (Some current) rest
              (RangeState (oldRangeStart st) (newRangeStart st)
                 (curRange st ++ contextLines lines) (oldLine st + n) (newLine st + n))
          else
            let contextSize := Nat.min n context in
            let cur := curRange st ++ contextLines (take contextSize lines) in
            let oldL := oldLine st - oldRangeStart st + contextSize in
            let newL := newLine st - newRangeStart st + contextSize in
            let cur' :=
              if (length rest <=? 1) && (n <=? context)
              then eofLines oldStr newStr lines cur oldL else cur in
            Hunk (oldRangeStart st) oldL (newRangeStart st) newL cur'
              :: hunks_go oldStr newStr (Some current) rest
                   (RangeState 0 0 [] (oldLine st + n) (newLine st + n))
      | k =>
          let st1 := openRange prev st in
          hunks_go oldStr newStr (Some current) rest
            (RangeState (oldRangeStart st1) (newRangeStart st1)
               (curRange st1 ++ markedLines k lines)
               (if decide (k = Added) then oldLine st1 else oldLine st1 + n)
               (if decide (k = Added) then newLine st1 + n else newLine st1))
      end
  end.

Definition structuredPatch (oldStr newStr : string) : list hunk :=
  hunks_go oldStr newStr None (diffLines oldStr newStr ++ [Component Common []])
    (RangeState 0 0 [] 1 1).

(** *** The patch text *)
Definition separator : string :=
  "===================================================================".

Definition hunkHeader (h : hunk) : string :=
  "@@ -" +:+ ofNat (if oldLines h =? 0 then oldStart h - 1 else oldStart h)
    +:+ "," +:+ ofNat (oldLines h)
    +:+ " +" +:+ ofNat (if newLines h =? 0 then newStart h - 1 else newStart h)
    +:+ "," +:+ ofNat (newLines h) +:+ " @@".

Definition patchLines (fileName : string) (hunks : list hunk) : list string :=
  ["Index: " +:+ fileName; separator; "--- " +:+ fileName; "+++ " +:+ fileName]
    ++ concat (map (λ h, hunkHeader h :: hlines h) hunks).

(** Modelled from the spec: the package's [createPatch(fileName, oldStr,
    newStr)], the "unified line-based patch between before and after" of the
    Change Detector. The package is not in the repository; the model
    follows its patch writer: line tokens, a shortest edit script, hunks
    with four lines of context, the four header lines, every line ended by a
    line feed. Which of several equally short edit scripts the package
    picks is not modelled beyond what [script] says. *)
Definition createPatch (fileName oldStr newStr : string) : string :=
  join nl (patchLines fileName (structuredPatch oldStr newStr)) +:+ nl.

End Diff.

(** ** [out/utils.js]: the Change Detector *)
Module Utils.

Definition extractAddedLines (diff : string) : list string :=
  List.filter (λ item, negb (isEmpty item))
    (split "++ code"
       (join nl
          (map (slice 1)
             (List.filter (λ line, startsWith "+" line) (split nl diff))))).

Definition findDifferences (code1 code2 : string) : list string :=
  let diff := Diff.createPatch "code" code1 code2 in
  let addedLines := extractAddedLines diff in
  addedLines.

End Utils.

(** ** Regular expressions

    [new RegExp(source, flags)] and [exec] of the JavaScript runtime, for
    patterns without the [u] flag (so with the identity escapes of the
    language's Annex B). The model covers alternation, sequences, character
    classes with ranges and the class escapes, the dot, line anchors, word
    boundaries, groups, lookahead and the greedy and lazy quantifiers.
    Back-references, named groups, lookbehind and the [\x], [\u] and [\c]
    escapes are outside the model: [parse] rejects them, as it rejects a
    pattern that is a syntax error. Captures are not recorded:
    [refreshDiagnostics] uses only the index and the length of a match, and
    [getCodeBlock], which reads one capture, chains the matchers of the
    parts of its pattern. *)
Module RegExp.

Inductive class_item :=
| CChar (c : ascii)
| CRange (lo hi : ascii)
| CDigit (neg : bool)
| CWord (neg : bool)
| CSpace (neg : bool).

Inductive regex :=
| Empty
| Char (c : ascii)
| Dot
| Class (neg : bool) (items : list class_item)
| Bol
| Eol
| WordBoundary (neg : bool)
| Seq (r1 r2 : regex)
| Alt (r1 r2 : regex)
| Group (r : regex)
| Lookahead (neg : bool) (r : regex)
| Repeat (min : nat) (max : option nat) (greedy : bool) (r : regex).

(** *** Character sets *)
Definition code (c : ascii) : nat := nat_of_ascii c.
Definition between (lo hi : nat) (c : ascii) : bool := (lo <=? code c) && (code c <=? hi).

Definition isDigit (c : ascii) : bool := between 48 57 c.
Definition isWordChar (c : ascii) : bool :=
  between 97 122 c || between 65 90 c || isDigit c || (code c =? 95).
Definition isLineTerminator (c : ascii) : bool := (code c =? 10) || (code c =? 13).
(** [\s]: white space and line terminators, among the code units below 256 *)
Definition isSpace (c : ascii) : bool :=
  between 9 13 c || (code c =? 32) || (code c =? 160).

Definition item_matches (it : class_item) (c : ascii) : bool :=
  match it with
  | CChar c' => bool_decide (c = c')
  | CRange lo hi => between (code lo) (code hi) c
  | CDigit neg => xorb neg (isDigit c)
  | CWord neg => xorb neg (isWordChar c)
  | CSpace neg => xorb neg (isSpace c)
  end.

Definition class_matches (neg : bool) (items : list class_item) (c : ascii) : bool :=
  xorb neg (existsb (λ it, item_matches it c) items).

(** *** Parsing a pattern *)
Definition digit_val (c : ascii) : option nat :=
  if isDigit c then Some (code c - 48) else None.

Fixpoint parse_digits (s : string) (acc : option nat) : option nat * string :=
  match s with
  | String c s' =>
      match digit_val c with
      | Some d => parse_digits s' (Some (10 * default 0 acc + d))
      | None => (acc, s)
      end
  | EmptyString => (acc, s)
  end.

(** The text after an opening brace, when it is [n}], [n,}] or [n,m}]. *)
Definition parse_braces (s : string) : option (nat * option nat * string) :=
  match parse_digits s None with
  | (Some lo, String "}" s1) => Some (lo, Some lo, s1)
  | (Some lo, String "," s1) =>
      match parse_digits s1 None with
      | (None, String "}" s2) => Some (lo, None, s2)
      | (Some hi, String "}" s2) => Some (lo, Some hi, s2)
      | _ => None
      end
  | _ => None
  end%char.

(** An escape outside a class, after the backslash. *)
Definition parse_escape (s : string) : option (regex * string) :=
  match s with
  | EmptyString => None
  | String c s' =>
      match c with
      | "d" => Some (Class false [CDigit false], s')
      | "D" => Some (Class false [CDigit true], s')
      | "w" => Some (Class false [CWord false], s')
      | "W" => Some (Class false [CWord true], s')
      | "s" => Some (Class false [CSpace false], s')
      | "S" => Some (Class false [CSpace true], s')
      | "b" => Some (WordBoundary false, s')
      | "B" => Some (WordBoundary true, s')
      | "n" => Some (Char "010", s')
      | "r" => Some (Char "013", s')
      | "t" => Some (Char "009", s')
      | "v" => Some (Char "011", s')
      | "f" => Some (Char "012", s')
      | "0" =>
          match s' with
          | String d _ => if isDigit d then None else Some (Char "000", s')
          | EmptyString => Some (Char "000", s')
          end
      | "c" | "x" | "u" | "k" => None
      | _ => if isDigit c then None else Some (Char c, s')
      end
  end%char.

(** One atom of a class, after the opening bracket. *)
Definition parse_class_atom (s : string) : option (class_item * string) :=
  match s with
  | EmptyString => None
  | String "\" EmptyString => None
  | String "\" (String c s') =>
      match c with
      | "d" => Some (CDigit false, s')
      | "D" => Some (CDigit true, s')
      | "w" => Some (CWord false, s')
      | "W" => Some (CWord true, s')
      | "s" => Some (CSpace false, s')
      | "S" => Some (CSpace true, s')
      | "b" => Some (CChar "008", s')
      | "n" => Some (CChar "010", s')
      | "r" => Some (CChar "013", s')
      | "t" => Some (CChar "009", s')
      | "v" => Some (CChar "011", s')
      | "f" => Some (CChar "012", s')
      | "0" => Some (CChar "000", s')
      | "c" | "x" | "u" | "k" => None
      | _ => if isDigit c then None else Some (CChar c, s')
      end
  | String c s' => Some (CChar c, s')
  end%char.

Fixpoint parse_class_items (fuel : nat) (s : string) : option (list class_item * string) :=
  match fuel with
  | 0 => None
  | S f =>
      match s with
      | EmptyString => None
      | String "]" s' => Some ([], s')
      | _ =>
          '(a, s1) ← parse_class_atom s;
          match a, s1 with
          | CChar lo, String "-" (String c2 s2) =>
              if bool_decide (c2 = "]"%char) then
                '(items, s3) ← parse_class_items f s1; Some (a :: items, s3)
              else
                '(b, s3) ← parse_class_atom (String c2 s2);
                match b with
                | CChar hi =>
                    if (code lo <=? code hi)%nat then
                      '(items, s4) ← parse_class_items f s3;
                      Some (CRange lo hi :: items, s4)
                    else None
                | _ =>
                    '(items, s4) ← parse_class_items f s3;
                    Some (a :: CChar "-" :: b :: items, s4)
                end
          | _, _ => '(items, s3) ← parse_class_items f s1; Some (a :: items, s3)
          end
      end
  end%char.

Definition parse_class (fuel : nat) (s : string) : option (regex * string) :=
  match s with
  | String "^" s' => '(items, s1) ← parse_class_items fuel s'; Some (Class true items, s1)
  | _ => '(items, s1) ← parse_class_items fuel s; Some (Class false items, s1)
  end%char.

(** The quantifier that follows an atom, if there is one. *)
Definition parse_quantifier (r : regex) (s : string) : option (regex * string) :=
  let lazy (min : nat) (max : option nat) (s1 : string) :=
    match s1 with
    | String "?" s2 => (Repeat min max false r, s2)
    | _ => (Repeat min max true r, s1)
    end%char in
  match s with
  | String "*" s1 => Some (lazy 0 None s1)
  | String "+" s1 => Some (lazy 1 None s1)
  | String "?" s1 => Some (lazy 0 (Some 1) s1)
  | String "{" s1 =>
      match parse_braces s1 with
      | Some (lo, hi, s2) =>
          if match hi with Some h => (h <? lo)%nat | None => false end then None
          else Some (lazy lo hi s2)
      | None => Some (r, s)
      end
  | _ => Some (r, s)
  end%char.

Fixpoint parse_disjunction (fuel : nat) (s : string) : option (regex * string) :=
  match fuel with
  | 0 => None
  | S f =>
      '(r1, s1) ← parse_alternative f s;
      match s1 with
      | String "|" s2 => '(r2, s3) ← parse_disjunction f s2; Some (Alt r1 r2, s3)
      | _ => Some (r1, s1)
      end%char
  end
with parse_alternative (fuel : nat) (s : string) : option (regex * string) :=
  match fuel with
  | 0 => None
  | S f =>
      match s with
      | EmptyString => Some (Empty, s)
      | String "|" _ | String ")" _ => Some (Empty, s)
      | _ =>
          '(t, s1) ← parse_term f s;
          '(r, s2) ← parse_alternative f s1;
          Some (Seq t r, s2)
      end%char
  end
with parse_term (fuel : nat) (s : string) : option (regex * string) :=
  match fuel with
  | 0 => None
  | S f =>
      match s with
      | EmptyString => None
      | String c s' =>
          match c with
          | "^" => Some (Bol, s')
          | "$" => Some (Eol, s')
          | "*" | "+" | "?" | ")" | "|" => None
          | "{" =>
              match parse_braces s' with
              | Some _ => None
              | None => parse_quantifier (Char c) s'
              end
          | "." => parse_quantifier Dot s'
          | "[" => '(r, s1) ← parse_class f s'; parse_quantifier r s1
          | "\" =>
              '(r, s1) ← parse_escape s';
              match r with
              | WordBoundary _ => Some (r, s1)
              | _ => parse_quantifier r s1
              end
          | "(" =>
              let group (wrap : regex → regex) (quantifiable : bool) (body : string) :=
                '(r, s1) ← parse_disjunction f body;
                match s1 with
                | String ")" s2 =>
                    if quantifiable then parse_quantifier (wrap r) s2
                    else Some (wrap r, s2)
                | _ => None
                end in
              match s' with
              | String "?" (String ":" body) => group Group true body
              | String "?" (String "=" body) => group (Lookahead false) true body
              | String "?" (String "!" body) => group (Lookahead true) true body
              | String "?" _ => None
              | _ => group Group true s'
              end
          | _ => parse_quantifier (Char c) s'
          end
      end%char
  end.

(** The whole pattern must be consumed; [None] is the [SyntaxError] of the
    constructor (or a construct outside the model). *)
Definition parse (source : string) : option regex :=
  match parse_disjunction (3 * String.length source + 3) source with
  | Some (r, "") => Some r
  | _ => None
  end.

(** *** Matching

    The backtracking matcher of the language specification: [m r i k] tries
    [r] at index [i] of [text] and hands every candidate end index to the
    continuation [k], in priority order, until one succeeds; the result is
    the continuation's. *)
Section Matcher.
Context (multiline : bool) (text : string).

Definition charAt (i : nat) : option ascii := String.get i text.

Definition lineStart (i : nat) : bool :=
  match i with
  | 0 => true
  | S j => multiline && from_option isLineTerminator false (charAt j)
  end.

Definition lineEnd (i : nat) : bool :=
  (i =? String.length text)
  || (multiline && from_option isLineTerminator false (charAt i)).

Definition wordAt (i : nat) : bool := from_option isWordChar false (charAt i).

Definition wordBoundary (i : nat) : bool :=
  xorb (match i with 0 => false | S j => wordAt j end) (wordAt i).

Fixpoint m {R : Type} (r : regex) (i : nat) (k : nat → option R) {struct r}
  : option R :=
  match r with
  | Empty => k i
  | Char c =>
      match charAt i with
      | Some c' => if bool_decide (c' = c) then k (S i) else None
      | None => None
      end
  | Dot =>
      match charAt i with
      | Some c' => if isLineTerminator c' then None else k (S i)
      | None => None
      end
  | Class neg items =>
      match charAt i with
      | Some c' => if class_matches neg items c' then k (S i) else None
      | None => None
      end
  | Bol => if lineStart i then k i else None
  | Eol => if lineEnd i then k i else None
  | WordBoundary neg => if xorb neg (wordBoundary i) then k i else None
  | Seq r1 r2 => m r1 i (λ j, m r2 j k)
  | Alt r1 r2 =>
      match m r1 i k with
      | Some e => Some e
      | None => m r2 i k
      end
  | Group r1 => m r1 i k
  | Lookahead neg r1 =>
      match m r1 i Some with
      | Some _ => if neg then None else k i
      | None => if neg then k i else None
      end
  | Repeat min max greedy r1 =>
      (fix rep (fuel min : nat) (max : option nat) (i : nat) {struct fuel} : option R :=
         match fuel with
         | 0 => None
         | S f =>
             if bool_decide (max = Some 0) then k i
             else
               let d (j : nat) : option R :=
                 if (min =? 0) && (j =? i) then None
                 else rep f (Nat.pred min) (Nat.pred <$> max) j in
               if negb (min =? 0) then m r1 i d
               else if greedy then
                 match m r1 i d with
                 | Some e => Some e
                 | None => k i
                 end
               else
                 match k i with
                 | Some e => Some e
                 | None => m r1 i d
                 end
         end) (min + String.length text + 2) min max i
  end.

(** The first index at or after [i], among [n + 1] candidates, where [r]
    matches, and the end of that match. *)
Fixpoint search (r : regex) (n i : nat) : option (nat * nat) :=
  match m r i Some with
  | Some e => Some (i, e)
  | None =>
      match n with
      | 0 => None
      | S n' => search r n' (S i)
      end
  end.
End Matcher.

(** A regular-expression object: its compiled pattern, flags and
    [lastIndex]. *)
Record t := RegExp {
  pattern : regex;
  global : bool;
  multiline : bool;
  lastIndex : nat
}.

Fixpoint hasFlag (f : ascii) (flags : string) : bool :=
  match flags with
  | EmptyString => false
  | String c s => bool_decide (c = f) || hasFlag f s
  end.

(** [new RegExp(source, flags)]; [None] when the constructor throws. *)
Definition create (source flags : string) : option t :=
  r ← parse source;
  Some (RegExp r (hasFlag "g" flags) (hasFlag "m" flags) 0).

(** A regular-expression literal of the source, compiled. *)
Definition regexLiteral (source flags : string) : t :=
  default (RegExp Empty false false 0) (create source flags).

(** [re.exec(text)]: the match as (index, end index) and the object with its
    [lastIndex] updated. Without the [g] flag the search starts at 0 and
    [lastIndex] is left alone. *)
Definition exec (re : t) (text : string) : option (nat * nat) * t :=
  let start := if global re then lastIndex re else 0 in
  let found :=
    if String.length text <? start then None
    else search (multiline re) text (pattern re) (String.length text - start) start in
  let moved (i : nat) : t :=
    if global re then RegExp (pattern re) (global re) (multiline re) i else re in
  match found with
  | Some (i, e) => (Some (i, e), moved e)
  | None => (None, moved 0)
  end.

(** The replacement text of [replace]: [$&] is the match, [$$] a dollar. *)
Fixpoint substitute (template matched : string) : string :=
  match template with
  | EmptyString => EmptyString
  | String "$" (String "&" rest) => matched +:+ substitute rest matched
  | String "$" (String "$" rest) => String "$" (substitute rest matched)
  | String c rest => String c (substitute rest matched)
  end%char.

(** [text.replace(re, template)] for a global [re]: every match, left to
    right, is replaced; after an empty match the scan moves on by one.
    [copied] is the end of the previous match. *)
Fixpoint replace_go (n : nat) (re : t) (text template : string) (from copied : nat)
  : string :=
  let found :=
    if String.length text <? from then None
    else search (multiline re) text (pattern re) (String.length text - from) from in
  match found, n with
  | Some (i, e), S n' =>
      String.substring copied (i - copied) text
        +:+ substitute template (String.substring i (e - i) text)
        +:+ replace_go n' re text template (if e =? i then S e else e) e
  | _, _ => slice copied text
  end.

Definition replace (re : t) (text template : string) : string :=
  replace_go (S (String.length text)) re text template 0 0.

End RegExp.

(** ** The editor's document model

    What the extension uses of the [vscode] API: positions, ranges,
    diagnostics and text documents. A document keeps its lines and one
    end-of-line sequence; it always has a first line. *)
Module Vscode.

Inductive DiagnosticSeverity := Error | Warning | Information | Hint.

Record Position := { line : nat; character : nat }.

Definition isBefore (a b : Position) : bool :=
  (line a <? line b) || ((line a =? line b) && (character a <? character b)).

Record Range := { start : Position; end_ : Position }.

(** [new vscode.Range(start, end)] orders its two positions. *)
Definition newRange (s e : Position) : Range :=
  if isBefore s e then {| start := s; end_ := e |} else {| start := e; end_ := s |}.

Inductive EndOfLine := EolLF | EolCRLF.

Definition eolString (e : EndOfLine) : string :=
  match e with
  | EolLF => String LF ""
  | EolCRLF => String CR (String LF "")
  end.

Record TextDocument := {
  uri : string;
  firstLine : string;
  moreLines : list string;
  eol : EndOfLine
}.

(** [doc.getText()] *)
Definition getText (doc : TextDocument) : string :=
  join (eolString (eol doc)) (firstLine doc :: moreLines doc).

(** [doc.positionAt(offset)]: the line whose span, end-of-line sequence
    included, holds the offset, and the offset within it, clamped to the
    length of the line; an offset past the end lands at the end of the last
    line. *)
Fixpoint positionAt_go (l : string) (rest : list string) (eolLength lineNo offset : nat)
  : Position :=
  match rest with
  | [] => {| line := lineNo; character := Nat.min offset (String.length l) |}
  | l' :: rest' =>
      if offset <? String.length l + eolLength
      then {| line := lineNo; character := Nat.min offset (String.length l) |}
      else positionAt_go l' rest' eolLength (S lineNo)
             (offset - (String.length l + eolLength))
  end.

Definition positionAt (doc : TextDocument) (offset : nat) : Position :=
  positionAt_go (firstLine doc) (moreLines doc)
    (String.length (eolString (eol doc))) 0 offset.

End Vscode.

(** ** The diagnostics module *)
Module CodespellTypo.
(** Modelled from the spec: the record of the absent [typo] module, with the
    fields the code reads: "token", "suggestions", "info", the optional
    "severity" and the optional "isCommon". *)
Record t := {
  token : string;
  suggestions : list string;
  info : string;
  severity : option Vscode.DiagnosticSeverity;
  isCommon : option bool
}.
End CodespellTypo.

Module CodespellDiagnostic.
(** A [vscode.Diagnostic] (range, message, severity, code) extended with the
    typo, its suggestions and its token. [code] is unset until assigned. *)
Record t := {
  range : Vscode.Range;
  message : string;
  severity : Vscode.DiagnosticSeverity;
  code : option string;
  typo : CodespellTypo.t;
  suggestions : list string;
  token : string
}.
End CodespellDiagnostic.

(** What running a piece of the code can come to: it returns, it throws, or
    the step budget of the model runs out. *)
Inductive outcome (A : Type) :=
| Returned (a : A)
| Threw
| OutOfFuel.
Arguments Returned {A} a.
Arguments Threw {A}.
Arguments OutOfFuel {A}.

Definition obind {A B} (x : outcome A) (f : A → outcome B) : outcome B :=
  match x with
  | Returned a => f a
  | Threw => Threw
  | OutOfFuel => OutOfFuel
  end.

(** ** [out/chat.js]: the Typo Source Adapter *)
Module Chat.

(** The literal of [getCodeBlock] is
    [/```[\s\S]*?\n([\s\S]*?)\n```/]. Its three parts, before, inside and
    after the capturing group, are compiled one by one and their matchers
    chained, so that the span of the group is where the chain passes from
    one part to the next. *)
Definition beforeGroup : RegExp.t := RegExp.regexLiteral "```[\s\S]*?\n" "".
Definition insideGroup : RegExp.t := RegExp.regexLiteral "[\s\S]*?" "".
Definition afterGroup : RegExp.t := RegExp.regexLiteral "\n```" "".

Definition group1At (text : string) (i : nat) : option (nat * nat) :=
  RegExp.m false text (RegExp.pattern beforeGroup) i (λ j,
    RegExp.m false text (RegExp.pattern insideGroup) j (λ e,
      RegExp.m false text (RegExp.pattern afterGroup) e (λ _, Some (j, e)))).

Fixpoint group1From (text : string) (n i : nat) : option (nat * nat) :=
  match group1At text i with
  | Some span => Some span
  | None =>
      match n with
      | 0 => None
      | S n' => group1From text n' (S i)
      end
  end.

(** [None] is the [null] of the source. *)
Definition getCodeBlock (text : string) : option string :=
  match group1From text (String.length text) 0 with
  | Some (j, e) => Some (trim (String.substring j (e - j) text))
  | None => None
  end.

Section Adapter.
(** [JSON.parse] on the text of a code block, narrowed to what the caller
    expects of it: a typo list, or [None] when it throws. *)
Context (JSON_parse : string → option (list CodespellTypo.t)).

(** [getTypos], from the settlement of its [prompt] call on: [None] is a
    rejected prompt, [Some promptResult] a fulfilled one. Nothing in it
    catches: a rejection of the prompt and an exception of [JSON.parse]
    reject its promise. *)
Definition getTypos (prompted : option string) : outcome (list CodespellTypo.t) :=
  match prompted with
  | None => Threw
  | Some promptResult =>
      match getCodeBlock promptResult with
      | Some codeBlock =>
          if negb (isEmpty codeBlock) then
            match JSON_parse codeBlock with
            | Some typos => Returned typos
            | None => Threw
            end
          else Returned []
      | None => Returned []
      end
  end.
End Adapter.

End Chat.

Module Diagnostics.
Import Vscode.

Definition CODE_SPELL_MENTION : string := "codespell".

(** The process-wide stores and the snapshot map of the subscription, each
    keyed by the document's URI: the Typo Store, the Diagnostic Collection
    and [lastSavedContent]. *)
Record State := {
  documentsToTypos : gmap string (list CodespellTypo.t);
  codespellDiagnostics : gmap string (list CodespellDiagnostic.t);
  lastSavedContent : gmap string string
}.

(** Modelled from the spec: [DocumentsToTypos.getTypos] of the absent
    [spellcheck] module, the read of the Typo Store, a "process-wide mapping
    from document identity to its current list of Typo records" where "get
    on an unset key returns absent"; [None] is the [undefined] that the
    caller tests. *)
Definition DocumentsToTypos_getTypos (st : State) (doc : TextDocument)
  : option (list CodespellTypo.t) :=
  documentsToTypos st !! uri doc.

Definition getCodespellDiagnostics (st : State) (doc : TextDocument)
  : option (list CodespellDiagnostic.t) :=
  codespellDiagnostics st !! uri doc.

Definition escapeRegExp (text : string) : string :=
  RegExp.replace (RegExp.regexLiteral "[-[\]{}()*+?.,\\^$|#\s]" "g") text "\$&".

(** The constructor of [CodespellDiagnostic]. It starts with
    [super(range, typo.info, severity)]: the constructor of
    [vscode.Diagnostic] throws a [TypeError] when it is given an empty
    message, and otherwise sets the range, the message and the severity.
    The four assignments follow. *)
Definition newCodespellDiagnostic (range : Range) (typo : CodespellTypo.t)
  : outcome CodespellDiagnostic.t :=
  if isEmpty (CodespellTypo.info typo) then Threw
  else
    Returned
      {| CodespellDiagnostic.range := range;
         CodespellDiagnostic.message := CodespellTypo.info typo;
         CodespellDiagnostic.severity :=
           match CodespellTypo.severity typo with
           | Some s => s
           | None =>
               if negb (bool_decide (CodespellTypo.isCommon typo = Some false))
               then Warning else Information
           end;
         CodespellDiagnostic.code := Some CODE_SPELL_MENTION;
         CodespellDiagnostic.typo := typo;
         CodespellDiagnostic.suggestions := CodespellTypo.suggestions typo;
         CodespellDiagnostic.token := CodespellTypo.token typo |}.

(** The [while] loop of [refreshDiagnostics] for one typo; [fuel] bounds the
    number of its iterations. An exception of the constructor leaves the
    loop, the [forEach] and [refreshDiagnostics]: nothing catches it. *)
Fixpoint matchLoop (fuel : nat) (doc : TextDocument) (docText : string)
    (typo : CodespellTypo.t) (regex : RegExp.t)
    (diagnostics : list CodespellDiagnostic.t) : outcome (list CodespellDiagnostic.t) :=
  match fuel with
  | 0 => OutOfFuel
  | S fuel' =>
      match RegExp.exec regex docText with
      | (None, _) => Returned diagnostics
      | (Some (index, e), regex') =>
          let startPos := positionAt doc index in
          let endPos := positionAt doc (index + (e - index)) in
          let range := newRange startPos endPos in
          obind (newCodespellDiagnostic range typo)
            (λ diagnostic,
               matchLoop fuel' doc docText typo regex' (diagnostics ++ [diagnostic]))
      end
  end.

(** The body of the [forEach] callback. *)
Definition forTypo (fuel : nat) (doc : TextDocument) (docText : string)
    (typo : CodespellTypo.t) (diagnostics : list CodespellDiagnostic.t)
  : outcome (list CodespellDiagnostic.t) :=
  match RegExp.create (escapeRegExp (CodespellTypo.token typo)) "gm" with
  | None => Threw
  | Some regex => matchLoop fuel doc docText typo regex diagnostics
  end.

Fixpoint forEachTypo (fuel : nat) (doc : TextDocument) (docText : string)
    (typos : list CodespellTypo.t) (diagnostics : list CodespellDiagnostic.t)
  : outcome (list CodespellDiagnostic.t) :=
  match typos with
  | [] => Returned diagnostics
  | typo :: rest =>
      obind (forTypo fuel doc docText typo diagnostics)
        (forEachTypo fuel doc docText rest)
  end.

Definition setDiagnostics (doc : TextDocument) (ds : list CodespellDiagnostic.t)
    (st : State) : State :=
  {| documentsToTypos := documentsToTypos st;
     codespellDiagnostics := <[uri doc := ds]> (codespellDiagnostics st);
     lastSavedContent := lastSavedContent st |}.

Definition refreshDiagnostics (fuel : nat) (doc : TextDocument) (st : State)
  : outcome State :=
  let typos := DocumentsToTypos_getTypos st doc in
  let docText := getText doc in
  match typos with
  | None => Returned st
  | Some typos =>
      obind (forEachTypo fuel doc docText typos [])
        (λ diagnostics, Returned (setDiagnostics doc diagnostics st))
  end.

(** *** The subscriptions *)
Definition setLastSavedContent (documentUri content : string) (st : State) : State :=
  {| documentsToTypos := documentsToTypos st;
     codespellDiagnostics := codespellDiagnostics st;
     lastSavedContent := <[documentUri := content]> (lastSavedContent st) |}.

(** The synchronous start of [subscribeDiagnosticsToDocumentChanges], with
    the active editor's document if there is one. *)
Definition subscribe (fuel : nat) (activeDocument : option TextDocument) (st : State)
  : outcome State :=
  match activeDocument with
  | Some doc =>
      obind (refreshDiagnostics fuel doc st)
        (λ st1, Returned (setLastSavedContent (uri doc) (getText doc) st1))
  | None => Returned st
  end.

(** A save handler suspended at [await spellCheck(document, differences)],
    with the locals it resumes with. *)
Record Suspended := {
  documentUri : string;
  currentContent : string;
  differences : list string
}.

(** The save listener up to its [await], or to its end when there is
    nothing to analyse. An absent or empty snapshot reads as the empty
    text. *)
Definition onDidSave_begin (document : TextDocument) (st : State)
  : State * option Suspended :=
  let documentUri := uri document in
  let currentContent := getText document in
  let previousContent :=
    match lastSavedContent st !! documentUri with
    | Some s => if isEmpty s then "" else s
    | None => ""
    end in
  let differences := Utils.findDifferences previousContent currentContent in
  if negb (isEmptyArray differences)
  then (st, Some {| documentUri := documentUri; currentContent := currentContent;
                    differences := differences |})
  else (setLastSavedContent documentUri currentContent st, None).

(** How an awaited promise settles. *)
Inductive settled := Fulfilled | Rejected.

(** The rest of the save listener, when the promise of [spellCheck]
    settles; [document] is the saved document as it is by then. A rejection
    is rethrown at the [await], and nothing encloses it. *)
Definition onDidSave_resume (fuel : nat) (k : Suspended) (document : TextDocument)
    (spellChecked : settled) (st : State) : outcome State :=
  match spellChecked with
  | Rejected => Threw
  | Fulfilled =>
      obind (refreshDiagnostics fuel document st)
        (λ st1, Returned (setLastSavedContent (documentUri k) (currentContent k) st1))
  end.

(** Modelled from the spec: [spellCheck(document, differences)] of the
    absent [spellcheck] module, from the settlement of its call of the Typo
    Source Adapter on. The spec has it "invoke Typo Source Adapter on the
    concatenation of added blocks; on success, replace the document's Typo
    Store entry"; has failures of the adapter "caught at the call site" and
    "treated as zero new typos for that save; prior Typo Store entry remains
    (not cleared)"; and has implementations "key in-flight analysis to a
    sequence number or the snapshot it was diffed against, and discard
    results that arrive after a newer save's analysis has already been
    applied". [InFlight] is the bookkeeping of the sequence numbers: the
    next one to give out, and for each document the number of the last
    analysis applied. *)
Record InFlight := {
  issued : nat;
  applied : gmap string nat
}.

(** The call of [spellCheck]: the analysis takes the next sequence
    number. *)
Definition spellCheck_begin (sp : InFlight) : nat * InFlight :=
  (issued sp, {| issued := S (issued sp); applied := applied sp |}).

(** A result is stale when an analysis with a later number has been applied
    for the document. *)
Definition stale (document : TextDocument) (ticket : nat) (sp : InFlight) : bool :=
  match applied sp !! uri document with
  | Some newest => ticket <? newest
  | None => false
  end.

(** The settlement: [analysed] is how the promise of the adapter settled,
    the typo list of [getTypos] or its rejection. The promise of
    [spellCheck] is fulfilled in every case. *)
Definition spellCheck_settle (document : TextDocument) (ticket : nat)
    (analysed : outcome (list CodespellTypo.t)) (st : State) (sp : InFlight)
  : State * InFlight * settled :=
  match analysed with
  | Returned typos =>
      if stale document ticket sp then (st, sp, Fulfilled)
      else
        ({| documentsToTypos := <[uri document := typos]> (documentsToTypos st);
            codespellDiagnostics := codespellDiagnostics st;
            lastSavedContent := lastSavedContent st |},
         {| issued := issued sp;
            applied := <[uri document := ticket]> (applied sp) |},
         Fulfilled)
  | _ => (st, sp, Fulfilled)
  end.

(** A suspended save whose analysis settles: [spellCheck] applies or drops
    the result, its promise settles and the listener resumes, in one turn
    of the event loop. *)
Definition analysisDone (fuel : nat) (k : Suspended) (document : TextDocument)
    (ticket : nat) (analysed : outcome (list CodespellTypo.t))
    (st : State) (sp : InFlight) : outcome (State * InFlight) :=
  let '(st1, sp1, spellChecked) := spellCheck_settle document ticket analysed st sp in
  obind (onDidSave_resume fuel k document spellChecked st1)
    (λ st2, Returned (st2, sp1)).

(** The listener of edits and the listener of editor switches. *)
Definition onDidChangeTextDocument (fuel : nat) (activeDocument : option TextDocument)
    (st : State) : outcome State :=
  match activeDocument with
  | Some doc => refreshDiagnostics fuel doc st
  | None => Returned st
  end.

Definition onDidChangeActiveTextEditor (fuel : nat) (editor : option TextDocument)
    (st : State) : outcome State :=
  match editor with
  | Some doc => refreshDiagnostics fuel doc st
  | None => Returned st
  end.

(** The listener of document close. *)
Definition onDidCloseTextDocument (doc : TextDocument) (st : State) : State :=
  {| documentsToTypos := documentsToTypos st;
     codespellDiagnostics := delete (uri doc) (codespellDiagnostics st);
     lastSavedContent := lastSavedContent st |}.

End Diagnostics.

(** ** Vocabulary of the statements *)
Module Spec.

(** Texts without line feed. *)
Fixpoint lf_free (s : string) : bool :=
  match s with
  | "" => true
  | String c s' => negb (bool_decide (c = LF)) && lf_free s'
  end.

(** The text whose lines are [ls], each ended by a line feed. *)
Definition unlines (ls : list string) : string :=
  foldr (λ l acc, l +:+ nl +:+ acc) "" ls.

(** The pattern that matches the code units of [t] one after the other. *)
Fixpoint literal (t : string) : RegExp.regex :=
  match t with
  | "" => RegExp.Empty
  | String c t' => RegExp.Seq (RegExp.Char c) (literal t')
  end.

(** The items of the class in [escapeRegExp], the class compiled, and the
    set of code units it holds. *)
Definition specialItems : list RegExp.class_item :=
  [RegExp.CChar "-"; RegExp.CChar "["; RegExp.CChar "]"; RegExp.CChar "{";
   RegExp.CChar "}"; RegExp.CChar "("; RegExp.CChar ")"; RegExp.CChar "*";
   RegExp.CChar "+"; RegExp.CChar "?"; RegExp.CChar "."; RegExp.CChar ",";
   RegExp.CChar "\"; RegExp.CChar "^"; RegExp.CChar "$"; RegExp.CChar "|";
   RegExp.CChar "#"; RegExp.CSpace false]%char.

Definition specialClass : RegExp.regex :=
  RegExp.Seq (RegExp.Class false specialItems) RegExp.Empty.

Definition special (c : ascii) : bool := RegExp.class_matches false specialItems c.

(** Every special code unit preceded by a backslash. *)
Fixpoint escaped (t : string) : string :=
  match t with
  | "" => ""
  | String c t' =>
      if special c then String "\" (String c (escaped t')) else String c (escaped t')
  end.

(** The pattern of [[\s\S]*?]: any code units, as few as possible. *)
Definition anyLazy : RegExp.regex :=
  RegExp.Repeat 0 None false
    (RegExp.Class false [RegExp.CSpace false; RegExp.CSpace true]).

(** Texts without line terminator (line feed or carriage return). *)
Fixpoint one_line (s : string) : bool :=
  match s with
  | "" => true
  | String c s' => negb (RegExp.isLineTerminator c) && one_line s'
  end.

(** Where a scan for [t] that started at [i] stands after the matches
    [js]: at the end of the last one, or still at [i]. *)
Definition scanAfter (t : string) (i : nat) (js : list nat) : nat :=
  from_option (λ j, j + String.length t) i (last js).

(** The index of the first special code unit. *)
Fixpoint first_special (s : string) : option nat :=
  match s with
  | "" => None
  | String c s' => if special c then Some 0 else S <$> first_special s'
  end.

(** The occurrences of [t] that a left-to-right scan reports when it steps
    over each occurrence it finds: [s] is the text from index [i] on and
    [skip] counts the code units of the last occurrence still to step
    over. *)
Fixpoint occurrences_go (t s : string) (i skip : nat) : list nat :=
  match s with
  | "" => []
  | String c s' =>
      match skip with
      | S k => occurrences_go t s' (S i) k
      | 0 =>
          if String.prefix t s
          then i :: occurrences_go t s' (S i) (String.length t - 1)
          else occurrences_go t s' (S i) 0
      end
  end.

Definition occurrences (t text : string) : list nat := occurrences_go t text 0 0.

(** The diagnostic of the occurrence of a typo's token at offset [j]: its
    range runs from the position of [j] to the position of the end of the
    occurrence, its message is the typo's [info], its code is [codespell],
    its severity is the typo's own when it has one, otherwise Warning when
    [isCommon] is true or undefined and Information when it is false, and
    it carries the typo, its suggestions and its token. *)
Definition diagnosticAt (doc : Vscode.TextDocument) (typo : CodespellTypo.t) (j : nat)
  : CodespellDiagnostic.t :=
  {| CodespellDiagnostic.range :=
       {| Vscode.start := Vscode.positionAt doc j;
          Vscode.end_ :=
            Vscode.positionAt doc (j + String.length (CodespellTypo.token typo)) |};
     CodespellDiagnostic.message := CodespellTypo.info typo;
     CodespellDiagnostic.severity :=
       match CodespellTypo.severity typo, CodespellTypo.isCommon typo with
       | Some s, _ => s
       | None, Some false => Vscode.Information
       | None, (Some true | None) => Vscode.Warning
       end;
     CodespellDiagnostic.code := Some "codespell";
     CodespellDiagnostic.typo := typo;
     CodespellDiagnostic.suggestions := CodespellTypo.suggestions typo;
     CodespellDiagnostic.token := CodespellTypo.token typo |}.

(** The diagnostics of one typo: one for each occurrence of its token. *)
Definition diagnosticsFor (doc : Vscode.TextDocument) (typo : CodespellTypo.t)
  : list CodespellDiagnostic.t :=
  map (diagnosticAt doc typo) (occurrences (CodespellTypo.token typo) (Vscode.getText doc)).

End Spec.
Import Spec.

(** ** Scenarios

    The documents, typos and stores of the worked examples. *)
Module Scenario.
Import Vscode Diagnostics.

Definition file : string := "file:///a.txt".

Definition document (first : string) (more : list string) : TextDocument :=
  {| uri := file; firstLine := first; moreLines := more; eol := EolLF |}.

Definition typo (token suggestion : string) : CodespellTypo.t :=
  {| CodespellTypo.token := token; CodespellTypo.suggestions := [suggestion];
     CodespellTypo.info := "typo"; CodespellTypo.severity := None;
     CodespellTypo.isCommon := None |}.

(** A typo with an empty message. *)
Definition mute (token : string) : CodespellTypo.t :=
  {| CodespellTypo.token := token; CodespellTypo.suggestions := [];
     CodespellTypo.info := ""; CodespellTypo.severity := None;
     CodespellTypo.isCommon := None |}.

Definition store (typos : option (list CodespellTypo.t)) (snapshot : option string)
  : State :=
  {| documentsToTypos := from_option (λ ts, {[ file := ts ]}) ∅ typos;
     codespellDiagnostics := ∅;
     lastSavedContent := from_option (λ s, {[ file := s ]}) ∅ snapshot |}.

(** Three successive texts of one document: the opening text and two
    saves, each appending a line. *)
Definition text0 : TextDocument := document "a" [""].
Definition text1 : TextDocument := document "a" ["teh"; ""].
Definition text2 : TextDocument := document "a" ["teh"; "foo"; ""].

(** The analyses of the two saves, and the listeners suspended on them. *)
Definition typos1 : list CodespellTypo.t := [typo "teh" "the"].
Definition typos2 : list CodespellTypo.t := [typo "teh" "the"; typo "foo" "bar"].
Definition opened : State := store None (Some (getText text0)).
Definition suspended1 : Suspended :=
  {| documentUri := file; currentContent := getText text1;
     differences := [nl +:+ "teh"] |}.
Definition suspended2 : Suspended :=
  {| documentUri := file; currentContent := getText text2;
     differences := [nl +:+ "teh" +:+ nl +:+ "foo"] |}.

(** The state that a step returns. *)
Definition returned (o : outcome State) : State :=
  match o with
  | Returned st => st
  | _ => store None None
  end.

(** The sequence numbers: none given out yet, and after the two saves
    have taken the numbers 0 and 1. *)
Definition noneInFlight : InFlight := {| issued := 0; applied := ∅ |}.
Definition twoInFlight : InFlight :=
  (spellCheck_begin (spellCheck_begin noneInFlight).2).2.

Definition settledTo (o : outcome (State * InFlight)) : State * InFlight :=
  match o with
  | Returned s => s
  | _ => (store None None, noneInFlight)
  end.

(** The analysis of save 2 succeeds first, then the one of save 1. *)
Definition after2 : State * InFlight :=
  settledTo (analysisDone 16 suspended2 text2 1 (Returned typos2) opened twoInFlight).
Definition after1 : State * InFlight :=
  settledTo (analysisDone 16 suspended1 text2 0 (Returned typos1) after2.1 after2.2).
End Scenario.

(** Case analysis on the eight bits of a code unit. *)
Ltac each_code_unit c := destruct c as [[] [] [] [] [] [] [] []].

(** * Properties *)

(** ** Strings *)
Section StringFacts.
Implicit Types (s t u p : string) (c : ascii).

Lemma sapp_cons c s t : String c s +:+ t = String c (s +:+ t).
Proof. reflexivity. Qed.

Lemma sapp_nil_r s : s +:+ "" = s.
Proof. induction s as [|c s IH]; [done|]. by rewrite sapp_cons, IH. Qed.

Lemma sapp_assoc s t u : (s +:+ t) +:+ u = s +:+ t +:+ u.
Proof. induction s as [|c s IH]; [done|]. by rewrite !sapp_cons, IH. Qed.

Lemma slength_app s t : String.length (s +:+ t) = String.length s + String.length t.
Proof. induction s as [|c s IH]; [done|]. rewrite sapp_cons. simpl. by rewrite IH. Qed.

Lemma prefix_nil s : String.prefix "" s = true.
Proof. by destruct s. Qed.

Lemma prefix_cons c c' s t :
  String.prefix (String c s) (String c' t) = bool_decide (c = c') && String.prefix s t.
Proof. simpl. destruct (ascii_dec c c'); by case_bool_decide. Qed.

Lemma prefix_app s t : String.prefix s (s +:+ t) = true.
Proof.
  induction s as [|c s IH]; [apply prefix_nil|].
  rewrite sapp_cons, prefix_cons, IH. by rewrite bool_decide_eq_true_2.
Qed.

End StringFacts.

Section SplitFacts.
Implicit Types (s t u p cur : string) (c : ascii) (ls : list string).

Lemma lf_free_app s t : lf_free (s +:+ t) = lf_free s && lf_free t.
Proof.
  induction s as [|c s IH]; [done|].
  rewrite sapp_cons. simpl. rewrite IH. by rewrite andb_assoc.
Qed.

Lemma split_go_skip sep s t cur :
  split_go sep (s +:+ t) (String.length s) cur = split_go sep t 0 cur.
Proof.
  induction s as [|c s IH]; [done|]. rewrite sapp_cons. simpl. apply IH.
Qed.

Lemma split_go_absent sep s cur :
  includes sep s = false → split_go sep s 0 cur = [cur +:+ s].
Proof.
  revert cur. induction s as [|c s IH]; intros cur H.
  - by rewrite sapp_nil_r.
  - cbn [includes] in H. apply orb_false_elim in H as [Hp Hi].
    cbn [split_go]. rewrite Hp. rewrite IH by done.
    by rewrite sapp_assoc.
Qed.

Lemma split_go_line l rest cur :
  lf_free l →
  split_go nl (l +:+ nl +:+ rest) 0 cur = (cur +:+ l) :: split_go nl rest 0 "".
Proof.
  revert cur. induction l as [|c l IH]; intros cur H.
  - rewrite sapp_nil_r. change ("" +:+ nl +:+ rest) with (String LF rest).
    cbn [split_go]. unfold nl. rewrite prefix_cons, prefix_nil.
    by rewrite bool_decide_eq_true_2.
  - simpl in H. apply andb_prop_elim in H as [Hc Hl].
    apply negb_prop_elim in Hc. rewrite bool_decide_spec in Hc.
    rewrite sapp_cons. cbn [split_go].
    replace (String.prefix nl (String c (l +:+ nl +:+ rest))) with false.
    + rewrite IH by done. by rewrite sapp_assoc.
    + unfold nl. rewrite prefix_cons. rewrite bool_decide_eq_false_2; [done|congruence].
Qed.

Lemma split_go_last l cur :
  lf_free l → split_go nl l 0 cur = [cur +:+ l].
Proof.
  revert cur. induction l as [|c l IH]; intros cur H.
  - by rewrite sapp_nil_r.
  - simpl in H. apply andb_prop_elim in H as [Hc Hl].
    apply negb_prop_elim in Hc. rewrite bool_decide_spec in Hc.
    cbn [split_go].
    replace (String.prefix nl (String c l)) with false.
    + rewrite IH by done. by rewrite sapp_assoc.
    + unfold nl. rewrite prefix_cons. rewrite bool_decide_eq_false_2; [done|congruence].
Qed.

(** Splitting a text made of line-feed-free lines gives the lines back. *)
Lemma split_join_lines ls :
  Forall lf_free ls → ls ≠ [] → split nl (join nl ls) = ls.
Proof.
  unfold split. induction 1 as [|l ls Hl Hls IH]; [done|]. intros _.
  destruct ls as [|l' ls].
  - simpl. by rewrite split_go_last.
  - change (join nl (l :: l' :: ls)) with (l +:+ nl +:+ join nl (l' :: ls)).
    rewrite split_go_line by done. f_equal. by apply IH.
Qed.

Lemma join_snoc_empty ls : ls ≠ [] → join nl (ls ++ [""]) = join nl ls +:+ nl.
Proof.
  induction ls as [|l ls IH]; [done|]. intros _.
  destruct ls as [|l' ls].
  - simpl. by rewrite sapp_nil_r.
  - change (join nl ((l :: l' :: ls) ++ [""]))
      with (l +:+ nl +:+ join nl ((l' :: ls) ++ [""])).
    rewrite IH by done.
    change (join nl (l :: l' :: ls)) with (l +:+ nl +:+ join nl (l' :: ls)).
    by rewrite !sapp_assoc.
Qed.

Lemma split_text_lines ls :
  Forall lf_free ls → ls ≠ [] → split nl (join nl ls +:+ nl) = ls ++ [""].
Proof.
  intros Hls Hne. rewrite <- join_snoc_empty by done.
  apply split_join_lines.
  - apply Forall_app. split; [done|]. by constructor.
  - by destruct ls.
Qed.
End SplitFacts.

(** ** The patch of an appended text *)
Section PatchFacts.
Import Diff.
Implicit Types (s t cur : string) (c : ascii) (ls bl al xs ys : list string).

Lemma tokenize_go_line l rest cur :
  lf_free l →
  tokenize_go (l +:+ nl +:+ rest) cur = (cur +:+ l +:+ nl) :: tokenize_go rest "".
Proof.
  revert cur. induction l as [|c l IH]; intros cur H.
  - change ("" +:+ nl +:+ rest) with (String LF rest). cbn [tokenize_go].
    by destruct (ascii_dec LF LF).
  - simpl in H. apply andb_prop_elim in H as [Hc Hl].
    apply negb_prop_elim in Hc. rewrite bool_decide_spec in Hc.
    rewrite sapp_cons. cbn [tokenize_go].
    destruct (ascii_dec c LF); [done|].
    rewrite IH by done. by rewrite !sapp_assoc.
Qed.

Lemma chomp_line l : chomp (l +:+ nl) = l.
Proof.
  induction l as [|c l IH].
  - cbn. by destruct (ascii_dec LF LF).
  - rewrite sapp_cons. cbn [chomp]. rewrite IH.
    destruct l; reflexivity.
Qed.

Lemma tokenize_unlines_app ls s :
  Forall lf_free ls →
  tokenize (unlines ls +:+ s) = map (λ l, l +:+ nl) ls ++ tokenize s.
Proof.
  unfold tokenize. induction 1 as [|l ls Hl Hls IH]; [done|].
  cbn [unlines foldr map app]. rewrite !sapp_assoc, tokenize_go_line by done.
  f_equal. apply IH.
Qed.

Lemma tokenize_unlines ls :
  Forall lf_free ls → tokenize (unlines ls) = map (λ l, l +:+ nl) ls.
Proof.
  intros Hls. rewrite <- (sapp_nil_r (unlines ls)), tokenize_unlines_app by done.
  apply app_nil_r.
Qed.

Lemma tokenize_go_last l cur :
  lf_free l → tokenize_go l cur = if isEmpty (cur +:+ l) then [] else [cur +:+ l].
Proof.
  revert cur. induction l as [|c l IH]; intros cur H.
  - by rewrite sapp_nil_r.
  - simpl in H. apply andb_prop_elim in H as [Hc Hl].
    apply negb_prop_elim in Hc. rewrite bool_decide_spec in Hc.
    cbn [tokenize_go]. destruct (ascii_dec c LF); [done|].
    rewrite IH by done. by rewrite sapp_assoc.
Qed.

Lemma chomp_lf_free l : lf_free l → chomp l = l.
Proof.
  induction l as [|c l IH]; [done|]. intros H.
  simpl in H. apply andb_prop_elim in H as [Hc Hl].
  apply negb_prop_elim in Hc. rewrite bool_decide_spec in Hc.
  cbn [chomp]. rewrite IH by done.
  destruct l; [|done]. by destruct (ascii_dec c LF).
Qed.

(** The tokens of lines joined by line feeds, the last line being left
    open: their texts are the lines. *)
Lemma tokenize_join ls :
  Forall lf_free ls → ls ≠ [] → last ls ≠ Some "" →
  tokenize (join nl ls) ≠ [] ∧ map chomp (tokenize (join nl ls)) = ls.
Proof.
  unfold tokenize. induction 1 as [|l ls Hl Hls IH]; [done|]. intros _ Hlast.
  destruct ls as [|l' ls].
  - cbn [join]. rewrite tokenize_go_last by done. change ("" +:+ l) with l.
    destruct l as [|c l]; [done|]. cbn [isEmpty map]. split; [done|].
    by rewrite chomp_lf_free.
  - change (join nl (l :: l' :: ls)) with (l +:+ nl +:+ join nl (l' :: ls)).
    rewrite tokenize_go_line by done. change ("" +:+ l +:+ nl) with (l +:+ nl).
    cbn [map]. split; [done|]. rewrite chomp_line. f_equal. by apply IH.
Qed.

Lemma tokenize_unlines_lines ls :
  Forall lf_free ls → ls ≠ [] →
  tokenize (unlines ls) ≠ [] ∧ map chomp (tokenize (unlines ls)) = ls.
Proof.
  intros Hls Hne. rewrite tokenize_unlines by done. split; [by destruct ls|].
  rewrite List.map_map. rewrite <- (List.map_id ls) at 2.
  apply List.map_ext. intros l. apply chomp_line.
Qed.

Lemma clines_lines k ls : clines (Component k (map (λ l, l +:+ nl) ls)) = ls.
Proof.
  unfold clines. cbn [ctokens]. rewrite map_map.
  induction ls as [|l ls IH]; [done|]. cbn [map]. by rewrite chomp_line, IH.
Qed.

Lemma endsWithLF_unlines ls : ls ≠ [] → endsWithLF (unlines ls) = true.
Proof.
  assert (Hline : ∀ l t, endsWithLF (l +:+ nl +:+ t) = endsWithLF (nl +:+ t)).
  { intros l t. induction l as [|c l IH]; [done|].
    rewrite sapp_cons. cbn [endsWithLF]. rewrite IH.
    destruct (l +:+ nl +:+ t) eqn:E; [|done].
    destruct l; discriminate. }
  induction ls as [|l ls IH]; [done|]. intros _.
  cbn [unlines foldr]. rewrite Hline.
  destruct ls as [|l' ls].
  - cbn. by destruct (ascii_dec LF LF).
  - specialize (IH ltac:(done)).
    change (nl +:+ foldr (λ l0 acc, l0 +:+ nl +:+ acc) "" (l' :: ls))
      with (String LF (unlines (l' :: ls))).
    cbn [endsWithLF]. destruct (unlines (l' :: ls)) eqn:E; [|done].
    discriminate.
Qed.

Lemma endsWithLF_app s t : t ≠ "" → endsWithLF (s +:+ t) = endsWithLF t.
Proof.
  intros Ht. induction s as [|c s IH]; [done|].
  rewrite sapp_cons. cbn [endsWithLF]. rewrite IH.
  destruct (s +:+ t) eqn:E; [|done]. destruct s; [|done]. by subst.
Qed.

Lemma endsWithLF_join ls :
  Forall lf_free ls → last ls ≠ Some "" → endsWithLF (join nl ls) = false.
Proof.
  assert (Hfree : ∀ l, lf_free l → endsWithLF l = false).
  { induction l as [|c l IH]; [done|]. intros H.
    simpl in H. apply andb_prop_elim in H as [Hc Hl].
    apply negb_prop_elim in Hc. rewrite bool_decide_spec in Hc.
    cbn [endsWithLF]. rewrite IH by done.
    destruct l; [|done]. by destruct (ascii_dec c LF). }
  induction 1 as [|l ls Hl Hls IH]; [done|]. intros Hlast.
  destruct ls as [|l' ls]; [by apply Hfree|].
  change (join nl (l :: l' :: ls)) with (l +:+ nl +:+ join nl (l' :: ls)).
  destruct (join nl (l' :: ls)) as [|c r] eqn:E.
  - destruct ls; [cbn in E; by subst|]. by destruct l'.
  - rewrite <- sapp_assoc, endsWithLF_app by done. by apply IH.
Qed.

(** Equal heads are kept: the script of an appended text keeps the old
    lines and adds the new ones. *)
Lemma script_append xs ys :
  script xs (xs ++ ys) = map (pair Common) xs ++ map (pair Added) ys.
Proof.
  induction xs as [|x xs IH]; [done|].
  cbn. rewrite decide_True by done. by rewrite IH.
Qed.

Lemma group_cons k t (es : list edit) :
  group ((k, t) :: es)
  = match group es with
    | Component k' ts :: cs =>
        if decide (k = k') then Component k (t :: ts) :: cs
        else Component k [t] :: Component k' ts :: cs
    | [] => [Component k [t]]
    end.
Proof. reflexivity. Qed.

Lemma group_same k xs : xs ≠ [] → group (map (pair k) xs) = [Component k xs].
Proof.
  induction xs as [|x xs IH]; [done|]. intros _.
  destruct xs as [|x' xs]; [done|].
  rewrite map_cons, group_cons, IH by done.
  by rewrite decide_True.
Qed.

Lemma group_common_added xs ys :
  xs ≠ [] → ys ≠ [] →
  group (map (pair Common) xs ++ map (pair Added) ys)
  = [Component Common xs; Component Added ys].
Proof.
  intros Hxs Hys. induction xs as [|x xs IH]; [done|].
  destruct xs as [|x' xs].
  - cbn [map app]. rewrite group_cons, group_same by done.
    by rewrite decide_False.
  - rewrite map_cons. cbn [app]. rewrite group_cons, IH by done.
    by rewrite decide_True.
Qed.

Lemma diffLines_append bl a :
  Forall lf_free bl → tokenize a ≠ [] →
  diffLines (unlines bl) (unlines bl +:+ a)
  = match bl with
    | [] => []
    | _ => [Component Common (map (λ l, l +:+ nl) bl)]
    end ++ [Component Added (tokenize a)].
Proof.
  intros Hbl Hne. unfold diffLines.
  rewrite tokenize_unlines_app, tokenize_unlines, script_append by done.
  destruct bl as [|b bl].
  - cbn [map app]. by rewrite group_same.
  - by rewrite group_common_added.
Qed.
End PatchFacts.

Section HunkFacts.
Import Diff.
Implicit Types (s t cur : string) (c : ascii) (ls bl al xs ys : list string).

Lemma structuredPatch_same x : structuredPatch x x = [].
Proof.
  unfold structuredPatch, diffLines.
  rewrite <- (app_nil_r (tokenize x)) at 2. rewrite script_append, app_nil_r.
  destruct (tokenize x) as [|t ts]; [reflexivity|].
  by rewrite group_same.
Qed.

Lemma length_lastn {A} n (l : list A) : length (lastn n l) ≤ length l.
Proof. unfold lastn. rewrite length_drop. lia. Qed.

Lemma eofLines_marker old new (lines cur : list string) n :
  (old = "" ∧ lines = [] ∧ n < length cur ∨ endsWithLF old = true) →
  eofLines old new lines cur n
  = cur ++ if endsWithLF new then [] else [noNewline].
Proof.
  intros Hold. unfold eofLines.
  destruct Hold as [(-> & -> & Hn) | ->].
  - apply Nat.ltb_lt in Hn. rewrite Hn.
    destruct (endsWithLF new); cbn; by rewrite ?app_nil_r.
  - destruct (endsWithLF new); cbn; by rewrite ?app_nil_r.
Qed.

(** The patch of a text with lines appended has one hunk: up to four
    lines of context, the added lines, and the marker of a missing final
    line feed when the new text has none. *)
Lemma structuredPatch_append bl a al :
  Forall lf_free bl → tokenize a ≠ [] → map chomp (tokenize a) = al →
  ∃ h, structuredPatch (unlines bl) (unlines bl +:+ a) = [h]
       ∧ hlines h = contextLines (lastn context bl) ++ markedLines Added al
                    ++ if endsWithLF a then [] else [noNewline].
Proof.
  intros Hbl Hne Hal. unfold structuredPatch.
  rewrite diffLines_append by done.
  assert (Hnew : endsWithLF (unlines bl +:+ a) = endsWithLF a).
  { apply endsWithLF_app. intros ->. done. }
  assert (Hadded : clines (Component Added (tokenize a)) = al) by done.
  assert (Hlen : 0 < length al).
  { subst al. destruct (tokenize a); [done|]. cbn [map length]. lia. }
  destruct bl as [|b bl].
  - cbn [app hunks_go ckind]. rewrite Hadded. cbn.
    rewrite !decide_True by done.
    eexists. split; [reflexivity|]. cbn [hlines].
    rewrite eofLines_marker, !app_nil_r; [done|].
    left. split_and!; [done..|]. rewrite app_nil_r. unfold markedLines.
    rewrite length_map. lia.
  - remember (unlines (b :: bl) +:+ a) as new eqn:Enew.
    cbn [app hunks_go ckind]. rewrite Hadded, !clines_lines.
    cbn [oldRangeStart Nat.eqb openRange oldLine newLine curRange newRangeStart].
    rewrite !clines_lines. change (clines (Component Common [])) with (@nil string).
    rewrite !decide_True by done.
    set (ctx := contextLines (lastn context (b :: bl))).
    assert (Hctx : length ctx ≤ length (b :: bl)).
    { unfold ctx, contextLines. rewrite length_map. apply length_lastn. }
    destruct (1 + length (b :: bl) - length ctx =? 0) eqn:E.
    { apply Nat.eqb_eq in E. lia. }
    cbn. eexists. split; [reflexivity|]. cbn [hlines].
    rewrite eofLines_marker, Hnew, app_nil_r, <- app_assoc; [done|].
    right. by apply (endsWithLF_unlines (b :: bl)).
Qed.
End HunkFacts.

(** ** The Change Detector *)
Section ChangeDetector.
Import Diff Utils.
Implicit Types (s t cur : string) (c : ascii) (ls bl al xs ys : list string).

Lemma lf_free_ofNat n : lf_free (ofNat n).
Proof. unfold ofNat. induction (Nat.to_uint n); cbn; auto. Qed.

Lemma lf_free_hunkHeader h : lf_free (hunkHeader h).
Proof.
  unfold hunkHeader. rewrite !lf_free_app.
  repeat (apply andb_prop_intro; split); try apply lf_free_ofNat; done.
Qed.

Lemma lf_free_contextLines ls : Forall lf_free ls → Forall lf_free (contextLines ls).
Proof.
  unfold contextLines. rewrite Forall_map. intros H.
  eapply Forall_impl; [exact H|]. done.
Qed.

Lemma lf_free_markedLines k ls : Forall lf_free ls → Forall lf_free (markedLines k ls).
Proof.
  unfold markedLines. rewrite Forall_map. intros H.
  eapply Forall_impl; [exact H|].
  intros l Hl. by destruct (decide (k = Added)).
Qed.

Lemma filter_contextLines ls :
  List.filter (λ line, startsWith "+" line) (contextLines ls) = [].
Proof. induction ls as [|l ls IH]; [done|]. cbn. by destruct l. Qed.

Lemma filter_addedLines ls :
  List.filter (λ line, startsWith "+" line) (markedLines Added ls)
  = map (String "+") ls.
Proof.
  unfold markedLines. rewrite decide_True by done.
  induction ls as [|l ls IH]; [done|].
  cbn [map List.filter]. rewrite IH.
  unfold startsWith. rewrite prefix_cons, prefix_nil.
  by rewrite bool_decide_eq_true_2.
Qed.

Lemma filter_hunkHeader h : startsWith "+" (hunkHeader h) = false.
Proof. reflexivity. Qed.

Lemma slice_marked ls : map (slice 1) (map (String "+") ls) = ls.
Proof.
  rewrite List.map_map. rewrite <- (List.map_id ls) at 2.
  apply List.map_ext. reflexivity.
Qed.

(** A patch without hunks has no added line. *)
Lemma extract_header_only :
  extractAddedLines (join nl (patchLines "code" []) +:+ nl) = [].
Proof. reflexivity. Qed.

(** A patch with one hunk made of context lines and then added lines. *)
Lemma extract_one_hunk h ctx al (marker : bool) :
  hlines h = contextLines ctx ++ markedLines Added al
             ++ (if marker then [] else [noNewline]) →
  Forall lf_free ctx → Forall lf_free al → al ≠ [] →
  includes "++ code" (join nl al) = false →
  extractAddedLines (join nl (patchLines "code" [h]) +:+ nl) = [nl +:+ join nl al].
Proof.
  intros Hh Hctx Hal Hne Hinc. unfold extractAddedLines.
  rewrite split_text_lines; [| |done].
  2:{ unfold patchLines. cbn [map concat]. rewrite Hh, app_nil_r.
      repeat (apply Forall_cons; split; [done || apply lf_free_hunkHeader|]).
      apply Forall_app. split; [by apply lf_free_contextLines|].
      apply Forall_app. split; [by apply lf_free_markedLines|].
      destruct marker; by repeat constructor. }
  unfold patchLines. cbn [map concat]. rewrite Hh, app_nil_r.
  cbn [app List.filter].
  change (startsWith "+" ("Index: " +:+ "code")) with false.
  change (startsWith "+" separator) with false.
  change (startsWith "+" ("--- " +:+ "code")) with false.
  change (startsWith "+" ("+++ " +:+ "code")) with true.
  rewrite filter_hunkHeader, !List.filter_app.
  rewrite filter_contextLines, filter_addedLines. cbn [app List.filter].
  change (startsWith "+" "") with false.
  replace (List.filter (λ line, startsWith "+" line)
             (if marker then [] else [noNewline])) with (@nil string)
    by (by destruct marker).
  rewrite !app_nil_r.
  cbn [map]. rewrite slice_marked.
  change (slice 1 ("+++ " +:+ "code")) with "++ code".
  destruct al as [|a al]; [done|].
  change (join nl ("++ code" :: a :: al)) with ("++ code" +:+ nl +:+ join nl (a :: al)).
  set (rest := nl +:+ join nl (a :: al)).
  unfold split.
  change ("++ code" +:+ rest) with (String "+" ("+ code" +:+ rest)).
  cbn [split_go].
  replace (String.prefix "++ code" (String "+" ("+ code" +:+ rest))) with true
    by (symmetry; apply (prefix_app "++ code")).
  change (String.length "++ code" - 1) with (String.length "+ code").
  rewrite split_go_skip.
  rewrite split_go_absent by (subst rest; exact Hinc).
  reflexivity.
Qed.
End ChangeDetector.

(** ** Regular expressions on escaped tokens *)

Section StringIndexFacts.
Implicit Types (s t u p text : string) (c : ascii) (i j n : nat).

Lemma slice_get i text :
  slice i text
  = match String.get i text with
    | Some c => String c (slice (S i) text)
    | None => ""
    end.
Proof.
  revert i. induction text as [|c text IH]; intros i.
  - by destruct i.
  - destruct i as [|i]; [done|]. cbn [slice String.get]. rewrite IH.
    by destruct (String.get i text).
Qed.

Lemma slice_length_ge i text : String.length text ≤ i → slice i text = "".
Proof.
  revert i. induction text as [|c text IH]; intros i H.
  - by destruct i.
  - destruct i as [|i]; cbn in H; [lia|]. cbn. apply IH. lia.
Qed.

Lemma length_slice i text : String.length (slice i text) = String.length text - i.
Proof.
  revert i. induction text as [|c text IH]; intros i.
  - by destruct i.
  - destruct i as [|i]; [done|]. cbn. apply IH.
Qed.

Lemma slice_slice i j text : slice j (slice i text) = slice (i + j) text.
Proof.
  revert i. induction text as [|c text IH]; intros i.
  - by destruct i, j.
  - destruct i as [|i]; [done|]. cbn. apply IH.
Qed.

Lemma slice_S_cons i c text : slice (S i) (String c text) = slice i text.
Proof. reflexivity. Qed.

Lemma prefix_length p s : String.prefix p s = true → String.length p ≤ String.length s.
Proof.
  revert p. induction s as [|c s IH]; intros [|c' p]; cbn; try done; try lia.
  destruct (ascii_dec c' c); [|done]. intros H%IH. lia.
Qed.

Lemma prefix_substring p s :
  String.prefix p s = true ↔ String.substring 0 (String.length p) s = p
                             ∧ String.length p ≤ String.length s.
Proof.
  revert p. induction s as [|c s IH]; intros [|c' p]; cbn.
  - done.
  - split; [done|]. intros [_ ?]. lia.
  - split; [|done]. intros _. split; [done|lia].
  - destruct (ascii_dec c' c) as [->|Hne].
    + rewrite IH. split.
      * intros [-> ?]. split; [done|lia].
      * intros [[=] ?]. split; [done|lia].
    + split; [done|]. intros [[=] ?]. done.
Qed.
End StringIndexFacts.

Section LiteralMatch.
Import RegExp.
Context (ml : bool) (text : string).
Implicit Types (s t u p : string) (c : ascii) (i j n : nat).

(** A literal pattern matches at [i] exactly when the text continues
    with it there. *)
Lemma m_literal {R} t i (k : nat → option R) :
  m ml text (literal t) i k
  = if String.prefix t (slice i text) then k (i + String.length t) else None.
Proof.
  revert i k. induction t as [|c t IH]; intros i k.
  - cbn [literal m String.length]. by rewrite prefix_nil, Nat.add_0_r.
  - cbn [literal m]. unfold charAt. rewrite (slice_get i text).
    destruct (String.get i text) as [c'|]; [|done].
    rewrite prefix_cons, IH. cbn [String.length].
    rewrite Nat.add_succ_r.
    case_bool_decide as Hc; case_bool_decide as Hc'; subst; try done.
Qed.

Lemma index_nil_l t : String.index 0 t "" = if isEmpty t then Some 0 else None.
Proof. by destruct t. Qed.

Lemma index_0_cons t c s :
  String.index 0 t (String c s)
  = if String.prefix t (String c s) then Some 0 else S <$> String.index 0 t s.
Proof.
  cbn [String.index]. destruct (String.prefix t (String c s)); [done|].
  by destruct (String.index 0 t s).
Qed.

Lemma index_S_cons n t c s :
  String.index (S n) t (String c s) = S <$> String.index n t s.
Proof. cbn [String.index]. by destruct (String.index n t s). Qed.

(** Searching from [i] is searching the rest of the text. *)
Lemma index_slice t s i :
  i ≤ String.length s →
  String.index i t s = (λ j, i + j) <$> String.index 0 t (slice i s).
Proof.
  revert i. induction s as [|c s IH]; intros i Hi.
  - destruct i; cbn in Hi; [|lia]. cbn [slice]. by destruct (String.index 0 t "").
  - destruct i as [|i].
    + cbn [slice]. by destruct (String.index 0 t (String c s)).
    + rewrite index_S_cons, slice_S_cons, IH by (cbn in Hi; lia).
      by destruct (String.index 0 t (slice i s)).
Qed.

Lemma search_literal_go t n i :
  n = String.length text - i → i ≤ String.length text →
  search ml text (literal t) n i
  = (λ j, (i + j, i + j + String.length t)) <$> String.index 0 t (slice i text).
Proof.
  revert i. induction n as [|n IH]; intros i Hn Hi.
  - cbn [search]. rewrite m_literal.
    rewrite slice_length_ge by lia. rewrite index_nil_l.
    destruct t; cbn; [|done]. by rewrite !Nat.add_0_r.
  - cbn [search]. rewrite m_literal.
    rewrite (slice_get i text).
    destruct (String.get i text) as [c|] eqn:Hget.
    2:{ pose proof (slice_get i text) as Hs. rewrite Hget in Hs.
        pose proof (length_slice i text) as Hl. rewrite Hs in Hl. cbn in Hl. lia. }
    rewrite index_0_cons.
    destruct (String.prefix t (String c (slice (S i) text))).
    + cbn. by rewrite !Nat.add_0_r.
    + rewrite IH by lia.
      destruct (String.index 0 t (slice (S i) text)); cbn; [|done].
      do 2 f_equal; lia.
Qed.

(** The search of [exec] for a literal pattern is [indexOf]. *)
Lemma search_literal t i :
  i ≤ String.length text →
  search ml text (literal t) (String.length text - i) i
  = (λ j, (j, j + String.length t)) <$> String.index i t text.
Proof.
  intros Hi. rewrite (search_literal_go t _ i eq_refl Hi).
  rewrite (index_slice t text i Hi).
  by destruct (String.index 0 t (slice i text)).
Qed.
End LiteralMatch.

(** ** [escapeRegExp] *)
Section EscapeFacts.
Import RegExp Diagnostics.
Implicit Types (s t u p text : string) (c : ascii) (i j n : nat).

(** The literal of [escapeRegExp] compiles, to a one-character class. *)
Lemma create_specialClass :
  create "[-[\]{}()*+?.,\\^$|#\s]" "g" = Some (RegExp specialClass true false 0).
Proof. reflexivity. Qed.

Lemma m_specialClass ml text i :
  m ml text specialClass i Some
  = match String.get i text with
    | Some c => if special c then Some (S i) else None
    | None => None
    end.
Proof. reflexivity. Qed.

Lemma search_specialClass ml text n i :
  n = String.length text - i → i ≤ String.length text →
  search ml text specialClass n i
  = (λ j, (i + j, S (i + j))) <$> first_special (slice i text).
Proof.
  revert i. induction n as [|n IH]; intros i Hn Hi.
  - cbn [search]. rewrite m_specialClass.
    pose proof (slice_length_ge i text ltac:(lia)) as Hs.
    rewrite (slice_get i text) in Hs.
    destruct (String.get i text); [done|].
    by rewrite slice_length_ge by lia.
  - cbn [search]. rewrite m_specialClass, (slice_get i text).
    destruct (String.get i text) as [c|] eqn:Hget.
    2:{ pose proof (slice_get i text) as Hs. rewrite Hget in Hs.
        pose proof (length_slice i text) as Hl. rewrite Hs in Hl. cbn in Hl. lia. }
    cbn [first_special]. destruct (special c).
    + cbn. by rewrite Nat.add_0_r.
    + rewrite IH by lia.
      destruct (first_special (slice (S i) text)); cbn; [|done].
      do 3 f_equal; lia.
Qed.

Lemma substring_slice i n text :
  String.substring i n text = String.substring 0 n (slice i text).
Proof.
  revert i. induction text as [|c text IH]; intros i.
  - by destruct i, n.
  - destruct i as [|i]; [done|]. cbn [String.substring slice]. apply IH.
Qed.

Lemma escaped_plain s : first_special s = None → escaped s = s.
Proof.
  induction s as [|c s IH]; [done|]. cbn [first_special escaped].
  destruct (special c); [done|].
  destruct (first_special s); [done|]. intros _. by rewrite IH.
Qed.

Lemma escaped_first s j :
  first_special s = Some j →
  ∃ c, slice j s = String c (slice (S j) s) ∧ special c = true
       ∧ escaped s
         = String.substring 0 j s +:+ String "\" (String c (escaped (slice (S j) s))).
Proof.
  revert j. induction s as [|c s IH]; intros j; [done|].
  cbn [first_special escaped]. destruct (special c) eqn:Hc.
  - intros [= <-]. exists c. done.
  - destruct (first_special s) as [j'|]; [|done].
    intros [= <-]. destruct (IH j' eq_refl) as (c' & Hs & Hc' & He).
    exists c'. cbn [slice String.substring]. rewrite He. done.
Qed.

Lemma replace_specialClass text n i :
  i ≤ String.length text → String.length text - i < n →
  replace_go n (RegExp specialClass true false 0) text "\$&" i i
  = escaped (slice i text).
Proof.
  revert i. induction n as [|n IH]; intros i Hi Hn; [lia|].
  cbn [replace_go RegExp.multiline pattern].
  replace (String.length text <? i) with false by (symmetry; apply Nat.ltb_ge; lia).
  rewrite search_specialClass by done.
  destruct (first_special (slice i text)) as [j|] eqn:Hf; cbn [fmap option_fmap option_map].
  - destruct (escaped_first _ _ Hf) as (c & Hs & Hc & He).
    rewrite He. rewrite slice_slice in Hs.
    assert (Hlt : i + j < String.length text).
    { pose proof (length_slice (i + j) text) as Hl. rewrite Hs in Hl. cbn in Hl. lia. }
    replace (S (i + j) =? i + j) with false by (symmetry; apply Nat.eqb_neq; lia).
    rewrite IH by lia.
    replace (i + j - i) with j by lia.
    replace (S (i + j) - (i + j)) with 1 by lia.
    rewrite (substring_slice i), (substring_slice (i + j)), Hs.
    rewrite slice_slice. replace (i + S j) with (S (i + j)) by lia.
    cbn [String.substring substitute]. rewrite sapp_nil_r.
    by replace (String.substring 0 0 (slice (S (i + j)) text)) with ""
      by (by destruct (slice (S (i + j)) text)).
  - by rewrite escaped_plain.
Qed.

(** [escapeRegExp] puts a backslash before each special code unit and
    leaves the others as they are. *)
Lemma escapeRegExp_escaped t : escapeRegExp t = escaped t.
Proof.
  unfold escapeRegExp, replace, regexLiteral. rewrite create_specialClass.
  cbn [default from_option]. rewrite replace_specialClass; [done|lia|lia].
Qed.
End EscapeFacts.

(** ** Compiling an escaped token *)
Section ParseEscaped.
Import RegExp.
Implicit Types (s t u p text : string) (c : ascii) (i j n f : nat) (r : regex).
Local Arguments parse_quantifier : simpl never.

(** What follows an atom of an escaped token is never a quantifier. *)
Lemma parse_quantifier_escaped r t :
  parse_quantifier r (escaped t) = Some (r, escaped t).
Proof.
  destruct t as [|c t]; [reflexivity|]. cbn [escaped].
  destruct (special c) eqn:E; [reflexivity|].
  each_code_unit c; vm_compute in E; try discriminate E; reflexivity.
Qed.

Lemma parse_term_escaped f c t :
  parse_term (S f) (escaped (String c t)) = Some (Char c, escaped t).
Proof.
  cbn [escaped].
  each_code_unit c;
    lazymatch goal with
    | |- context [special ?a] =>
        let b := eval vm_compute in (special a) in change (special a) with b
    end;
    cbn; exact (parse_quantifier_escaped _ t).
Qed.

Lemma parse_alternative_escaped_step f c t :
  parse_alternative (S f) (escaped (String c t))
  = '(a, s1) ← parse_term f (escaped (String c t));
    '(r, s2) ← parse_alternative f s1;
    Some (Seq a r, s2).
Proof.
  cbn [escaped].
  each_code_unit c;
    lazymatch goal with
    | |- context [special ?a] =>
        let b := eval vm_compute in (special a) in change (special a) with b
    end;
    reflexivity.
Qed.

Lemma parse_alternative_escaped t f :
  String.length t + 2 ≤ f →
  parse_alternative f (escaped t) = Some (literal t, "").
Proof.
  revert f. induction t as [|c t IH]; intros f Hf.
  - destruct f as [|f]; [lia|]. reflexivity.
  - destruct f as [|[|f]]; [lia|cbn in Hf; lia|].
    rewrite parse_alternative_escaped_step, parse_term_escaped.
    cbn [mbind option_bind]. rewrite IH by (cbn in Hf; lia). reflexivity.
Qed.

Lemma length_escaped t : String.length t ≤ String.length (escaped t).
Proof.
  induction t as [|c t IH]; [done|]. cbn [escaped].
  destruct (special c); cbn; lia.
Qed.

(** An escaped token compiles to the literal pattern of the token. *)
Lemma parse_escaped t : parse (escaped t) = Some (literal t).
Proof.
  unfold parse.
  pose proof (length_escaped t) as Hlen.
  destruct (3 * String.length (escaped t) + 3) as [|f] eqn:Ef; [lia|].
  cbn [parse_disjunction]. rewrite parse_alternative_escaped by lia.
  reflexivity.
Qed.
End ParseEscaped.

(** ** Occurrences of a token *)

Section OccurrenceFacts.
Implicit Types (s t u p text : string) (c : ascii) (i j k n : nat).

Lemma occurrences_go_skip t s i k :
  occurrences_go t s i k = occurrences_go t (slice k s) (i + k) 0.
Proof.
  revert i k. induction s as [|c s IH]; intros i k.
  - by destruct k.
  - destruct k as [|k].
    + by rewrite Nat.add_0_r.
    + cbn [occurrences_go slice]. rewrite IH. f_equal. lia.
Qed.

Lemma index_prefix t s j :
  String.index 0 t s = Some j → String.prefix t (slice j s) = true.
Proof.
  revert j. induction s as [|c s IH]; intros j.
  - rewrite index_nil_l. destruct t; [|done]. by intros [= <-].
  - rewrite index_0_cons.
    destruct (String.prefix t (String c s)) eqn:Hp.
    + by intros [= <-].
    + destruct (String.index 0 t s) as [j'|]; [|done].
      intros [= <-]. by apply IH.
Qed.

Lemma index_bound t s j :
  t ≠ "" → String.index 0 t s = Some j → j + String.length t ≤ String.length s.
Proof.
  intros Ht Hj. apply index_prefix in Hj.
  pose proof (prefix_length _ _ Hj) as Hl. rewrite length_slice in Hl.
  destruct t; [done|]. cbn in *. lia.
Qed.

(** The scan, one occurrence at a time: the next reported occurrence is
    the first one at or after the current index, and the scan resumes
    after it. *)
Lemma occurrences_go_index t s i :
  t ≠ "" →
  occurrences_go t s i 0
  = match String.index 0 t s with
    | Some j =>
        (i + j) :: occurrences_go t (slice (j + String.length t) s)
                     (i + j + String.length t) 0
    | None => []
    end.
Proof.
  intros Ht. revert i. induction s as [|c s IH]; intros i.
  - rewrite index_nil_l. by destruct t.
  - rewrite index_0_cons. cbn [occurrences_go].
    destruct (String.prefix t (String c s)) eqn:Hp.
    + rewrite occurrences_go_skip, Nat.add_0_r. cbn [plus].
      destruct t as [|c' t]; [done|]. cbn [String.length slice].
      replace (S (String.length t) - 1) with (String.length t) by lia.
      f_equal. f_equal. lia.
    + rewrite IH. destruct (String.index 0 t s) as [j|]; [|done].
      cbn [fmap option_fmap option_map slice plus].
      f_equal; [lia|]. f_equal. lia.
Qed.

(** Every reported index is one where the token stands verbatim. *)
Lemma occurrences_go_sound t s i k j :
  j ∈ occurrences_go t s i k →
  i + k ≤ j ∧ String.prefix t (slice (j - i) s) = true.
Proof.
  revert i k. induction s as [|c s IH]; intros i k; [by intros ?%elem_of_nil|].
  destruct k as [|k]; cbn [occurrences_go].
  - destruct (String.prefix t (String c s)) eqn:Hp.
    + intros [->|Hj]%elem_of_cons.
      * rewrite Nat.add_0_r, Nat.sub_diag. done.
      * apply IH in Hj as [Hle Hj]. split; [lia|].
        replace (j - i) with (S (j - S i)) by lia. done.
    + intros Hj. apply IH in Hj as [Hle Hj]. split; [lia|].
      replace (j - i) with (S (j - S i)) by lia. done.
  - intros Hj. apply IH in Hj as [Hle Hj]. split; [lia|].
    replace (j - i) with (S (j - S i)) by lia. done.
Qed.

(** No place where the token stands is passed over: it is reported, or
    it overlaps a reported occurrence that starts before it. *)
Lemma occurrences_go_complete t s i k (p : nat) :
  t ≠ "" → k ≤ p → String.prefix t (slice p s) = true →
  ∃ j, j ∈ occurrences_go t s i k ∧ j ≤ i + p ∧ i + p < j + String.length t.
Proof.
  intros Ht. revert i k p. induction s as [|c s IH]; intros i k p Hk Hp.
  - destruct t; [done|]. by destruct p.
  - destruct k as [|k]; cbn [occurrences_go].
    + destruct (String.prefix t (String c s)) eqn:H0.
      * destruct (decide (p < String.length t)) as [Hlt|Hge].
        -- exists i. split; [by left|lia].
        -- destruct p as [|p]; [destruct t; [done|cbn in Hge; lia]|].
           destruct (IH (S i) (String.length t - 1) p ltac:(lia) Hp)
             as (j & Hj & ? & ?).
           exists j. split; [by right|lia].
      * destruct p as [|p]; [cbn [slice] in Hp; congruence|].
        destruct (IH (S i) 0 p ltac:(lia) Hp) as (j & Hj & ? & ?).
        exists j. split; [done|lia].
    + destruct p as [|p]; [lia|].
      destruct (IH (S i) k p ltac:(lia) Hp) as (j & Hj & ? & ?).
      exists j. split; [done|lia].
Qed.

(** Reported indices increase, and two of them are at least the length of
    the token apart: the occurrences do not overlap. *)
Lemma occurrences_go_sorted t s i k :
  StronglySorted (λ a b, a + String.length t ≤ b ∧ a < b) (occurrences_go t s i k).
Proof.
  revert i k. induction s as [|c s IH]; intros i k; [constructor|].
  destruct k as [|k]; cbn [occurrences_go]; [|apply IH].
  destruct (String.prefix t (String c s)); [|apply IH].
  constructor; [apply IH|].
  apply Forall_forall. intros j Hj.
  apply occurrences_go_sound in Hj as [Hle _]. lia.
Qed.
End OccurrenceFacts.

(** ** Offsets and positions *)
Section PositionFacts.
Import Vscode.
Implicit Types (s t l : string) (rest : list string) (a b e i j n : nat)
  (p q : Position).

Lemma positionAt_go_line l rest e n a : n ≤ line (positionAt_go l rest e n a).
Proof.
  revert l n a. induction rest as [|l' rest IH]; intros l n a; cbn [positionAt_go].
  { cbn. lia. }
  destruct (a <? String.length l + e); cbn [line]; [lia|].
  specialize (IH l' (S n) (a - (String.length l + e))). lia.
Qed.

(** A later offset is never at an earlier position. *)
Lemma positionAt_go_mono l rest e n a b :
  a ≤ b → isBefore (positionAt_go l rest e n b) (positionAt_go l rest e n a) = false.
Proof.
  revert l n a b. induction rest as [|l' rest IH]; intros l n a b Hab.
  - cbn [positionAt_go]. unfold isBefore. cbn [line character].
    rewrite Nat.ltb_irrefl, Nat.eqb_refl. cbn [orb andb]. apply Nat.ltb_ge. lia.
  - cbn [positionAt_go].
    destruct (b <? String.length l + e) eqn:Hb.
    + apply Nat.ltb_lt in Hb.
      replace (a <? String.length l + e) with true by (symmetry; apply Nat.ltb_lt; lia).
      unfold isBefore. cbn [line character].
      rewrite Nat.ltb_irrefl, Nat.eqb_refl. cbn [orb andb]. apply Nat.ltb_ge. lia.
    + apply Nat.ltb_ge in Hb.
      destruct (a <? String.length l + e) eqn:Ha.
      * pose proof (positionAt_go_line l' rest e (S n) (b - (String.length l + e))) as Hl.
        unfold isBefore. cbn [line character].
        replace (_ <? n) with false by (symmetry; apply Nat.ltb_ge; lia).
        replace (_ =? n) with false by (symmetry; apply Nat.eqb_neq; lia).
        done.
      * apply IH. lia.
Qed.

Lemma positionAt_mono doc a b :
  a ≤ b → isBefore (positionAt doc b) (positionAt doc a) = false.
Proof. apply positionAt_go_mono. Qed.

Lemma newRange_ordered p q :
  isBefore q p = false → newRange p q = {| start := p; end_ := q |}.
Proof.
  unfold newRange. destruct (isBefore p q) eqn:Hpq; [done|].
  intros Hqp. destruct p as [pl pc], q as [ql qc]. unfold isBefore in *.
  cbn [line character] in *.
  apply orb_false_elim in Hpq as [H1 H2], Hqp as [H3 H4].
  apply Nat.ltb_ge in H1, H3. assert (pl = ql) as -> by lia.
  rewrite Nat.eqb_refl in H2, H4. cbn [andb] in H2, H4.
  apply Nat.ltb_ge in H2, H4. assert (pc = qc) as -> by lia. done.
Qed.

Lemma get_app_r s t i : String.get (String.length s + i) (s +:+ t) = String.get i t.
Proof. rewrite (append_correct2 s t i). f_equal. lia. Qed.

Lemma get_skip2 s t u k :
  String.length s + String.length t ≤ k →
  String.get k (s +:+ t +:+ u) = String.get (k - (String.length s + String.length t)) u.
Proof.
  intros Hk.
  replace k with (String.length s
                  + (String.length t + (k - (String.length s + String.length t))))
    at 1 by lia.
  by rewrite !get_app_r.
Qed.

(** Two offsets of the text share a position only across a carriage
    return and line feed pair. *)
Lemma positionAt_go_collide l rest eol e n a b :
  e = String.length (eolString eol) →
  a < b → b ≤ String.length (join (eolString eol) (l :: rest)) →
  positionAt_go l rest e n a = positionAt_go l rest e n b →
  String.get a (join (eolString eol) (l :: rest)) = Some CR
  ∧ String.get b (join (eolString eol) (l :: rest)) = Some LF.
Proof.
  intros He. revert l n a b.
  induction rest as [|l' rest IH]; intros l n a b Hab Hb.
  - cbn in *. intros [= H]. lia.
  - change (join (eolString eol) (l :: l' :: rest))
      with (l +:+ eolString eol +:+ join (eolString eol) (l' :: rest)) in *.
    rewrite !slength_app, <- He in Hb.
    cbn [positionAt_go].
    destruct (b <? String.length l + e) eqn:Hbx.
    + apply Nat.ltb_lt in Hbx.
      replace (a <? String.length l + e) with true by (symmetry; apply Nat.ltb_lt; lia).
      intros [= H].
      destruct eol; cbn in He; subst e; [lia|].
      assert (a = String.length l + 0) as -> by lia.
      assert (b = String.length l + 1) as -> by lia.
      by rewrite !get_app_r.
    + apply Nat.ltb_ge in Hbx.
      destruct (a <? String.length l + e) eqn:Hax.
      * intros H.
        pose proof (positionAt_go_line l' rest e (S n) (b - (String.length l + e))) as Hl.
        rewrite <- H in Hl. cbn [line] in Hl. lia.
      * apply Nat.ltb_ge in Hax. intros H.
        apply IH in H; [|lia..]. subst e.
        by rewrite !get_skip2 by lia.
Qed.

Lemma positionAt_collide doc a b :
  a < b → b ≤ String.length (getText doc) →
  positionAt doc a = positionAt doc b →
  String.get a (getText doc) = Some CR ∧ String.get b (getText doc) = Some LF.
Proof. by apply positionAt_go_collide. Qed.

(** Two occurrences of one non-empty token start at different
    positions. *)
Lemma positionAt_occurrences doc t a b :
  t ≠ "" → a ≠ b →
  String.prefix t (slice a (getText doc)) = true →
  String.prefix t (slice b (getText doc)) = true →
  positionAt doc a ≠ positionAt doc b.
Proof.
  assert (Hwlog : ∀ a b, t ≠ "" → a < b →
    String.prefix t (slice a (getText doc)) = true →
    String.prefix t (slice b (getText doc)) = true →
    positionAt doc a ≠ positionAt doc b).
  { clear a b. intros a b Ht Hab Ha Hb Heq.
    destruct t as [|c t]; [done|].
    rewrite (slice_get a) in Ha. rewrite (slice_get b) in Hb.
    destruct (String.get a (getText doc)) as [ca|] eqn:Hga; [|done].
    destruct (String.get b (getText doc)) as [cb|] eqn:Hgb; [|done].
    rewrite prefix_cons in Ha, Hb.
    apply andb_true_iff in Ha as [Ha _], Hb as [Hb _].
    apply bool_decide_eq_true in Ha, Hb. subst ca cb.
    assert (Hlen : b < String.length (getText doc)).
    { destruct (decide (b < String.length (getText doc))) as [|Hge]; [done|].
      pose proof (slice_length_ge b (getText doc) ltac:(lia)) as Hs.
      rewrite (slice_get b), Hgb in Hs. done. }
    apply positionAt_collide in Heq as [H1 H2]; [|lia..].
    rewrite Hga in H1. rewrite Hgb in H2. by simplify_eq. }
  intros Ht Hab Ha Hb.
  destruct (decide (a < b)).
  - by apply Hwlog.
  - intros Heq. symmetry in Heq. revert Heq. apply Hwlog; [done|lia|done..].
Qed.
End PositionFacts.

(** ** [refreshDiagnostics] *)

Section RefreshFacts.
Import RegExp Vscode Diagnostics.
Implicit Types (s t text : string) (i j n fuel : nat) (doc : TextDocument)
  (typo : CodespellTypo.t) (acc : list CodespellDiagnostic.t).

(** The pattern built for a token is the literal pattern of the token,
    with the flags [g] and [m]. *)
Lemma create_escaped t :
  create (escapeRegExp t) "gm" = Some (RegExp (literal t) true true 0).
Proof. unfold create. by rewrite escapeRegExp_escaped, parse_escaped. Qed.

(** [exec] on it is [indexOf] from [lastIndex]. *)
Lemma exec_literal t ml text i :
  i ≤ String.length text →
  exec (RegExp (literal t) true ml i) text
  = match String.index i t text with
    | Some j => (Some (j, j + String.length t),
                 RegExp (literal t) true ml (j + String.length t))
    | None => (None, RegExp (literal t) true ml 0)
    end.
Proof.
  intros Hi. unfold exec. cbn [global lastIndex pattern multiline].
  replace (String.length text <? i) with false by (symmetry; apply Nat.ltb_ge; lia).
  rewrite search_literal by done.
  by destruct (String.index i t text).
Qed.

Lemma index_empty text i : i ≤ String.length text → String.index i "" text = Some i.
Proof.
  revert i. induction text as [|c text IH]; intros i Hi.
  - destruct i; [done|]. cbn in Hi. lia.
  - destruct i as [|i]; [done|].
    rewrite index_S_cons, IH by (cbn in Hi; lia). done.
Qed.

Lemma diagnostic_of_match doc typo j :
  newCodespellDiagnostic
    (newRange (positionAt doc j)
       (positionAt doc (j + (j + String.length (CodespellTypo.token typo) - j))))
    typo
  = if isEmpty (CodespellTypo.info typo) then Threw
    else Returned (diagnosticAt doc typo j).
Proof.
  unfold newCodespellDiagnostic, diagnosticAt.
  destruct (isEmpty (CodespellTypo.info typo)); [done|].
  replace (j + (j + String.length (CodespellTypo.token typo) - j))
    with (j + String.length (CodespellTypo.token typo)) by lia.
  rewrite newRange_ordered by (apply positionAt_mono; lia).
  by destruct typo as [tok sug inf [s|] [[|]|]].
Qed.

(** The loop of a non-empty token, once it is given as many iterations
    as the rest of the text is long, and one more: it reports the
    occurrences of the token, unless the message of the typo is empty and
    there is an occurrence, in which case the constructor throws at the
    first one. *)
Lemma matchLoop_literal doc text typo fuel i acc :
  CodespellTypo.token typo ≠ "" →
  i ≤ String.length text → String.length text - i < fuel →
  matchLoop fuel doc text typo (RegExp (literal (CodespellTypo.token typo)) true true i) acc
  = if isEmpty (CodespellTypo.info typo)
       && negb (isEmptyArray
                  (occurrences_go (CodespellTypo.token typo) (slice i text) i 0))
    then Threw
    else Returned (acc ++ map (diagnosticAt doc typo)
                           (occurrences_go (CodespellTypo.token typo) (slice i text) i 0)).
Proof.
  intros Ht. revert i acc. induction fuel as [|fuel IH]; intros i acc Hi Hf; [lia|].
  cbn [matchLoop]. rewrite exec_literal, index_slice by done.
  rewrite occurrences_go_index by done.
  destruct (String.index 0 (CodespellTypo.token typo) (slice i text)) as [j|] eqn:Hj;
    cbn [fmap option_fmap option_map].
  - pose proof (index_bound _ _ _ Ht Hj) as Hb. rewrite length_slice in Hb.
    assert (0 < String.length (CodespellTypo.token typo)).
    { destruct (CodespellTypo.token typo); [done|]. cbn. lia. }
    rewrite diagnostic_of_match. cbn [isEmptyArray negb].
    destruct (isEmpty (CodespellTypo.info typo)); [done|]. cbn [obind andb].
    rewrite IH by lia. cbn [andb].
    rewrite slice_slice, <- app_assoc. cbn [map app].
    by rewrite Nat.add_assoc.
  - cbn [isEmptyArray negb]. by rewrite andb_false_r, app_nil_r.
Qed.

(** The loop of the empty token: each [exec] matches the empty string
    where the scan stands and leaves [lastIndex] there. With an empty
    message the constructor throws at the first match; otherwise the loop
    never ends. *)
Lemma matchLoop_empty doc text typo fuel i acc :
  CodespellTypo.token typo = "" → i ≤ String.length text →
  matchLoop fuel doc text typo (RegExp (literal "") true true i) acc
  = match fuel with
    | 0 => OutOfFuel
    | S _ => if isEmpty (CodespellTypo.info typo) then Threw else OutOfFuel
    end.
Proof.
  intros Ht. revert acc. induction fuel as [|fuel IH]; intros acc Hi; [done|].
  cbn [matchLoop]. rewrite exec_literal, index_empty by done.
  cbn [String.length]. rewrite Nat.add_0_r.
  unfold newCodespellDiagnostic.
  destruct (isEmpty (CodespellTypo.info typo)) eqn:E; [done|]. cbn [obind].
  rewrite IH by done. by destruct fuel.
Qed.

Lemma forTypo_nonempty doc typo fuel acc :
  CodespellTypo.token typo ≠ "" → String.length (getText doc) < fuel →
  forTypo fuel doc (getText doc) typo acc
  = if isEmpty (CodespellTypo.info typo)
       && negb (isEmptyArray (occurrences (CodespellTypo.token typo) (getText doc)))
    then Threw
    else Returned (acc ++ diagnosticsFor doc typo).
Proof.
  intros Ht Hf. unfold forTypo. rewrite create_escaped.
  rewrite matchLoop_literal by (done || lia). done.
Qed.

Lemma forTypo_empty doc typo fuel acc :
  CodespellTypo.token typo = "" →
  forTypo fuel doc (getText doc) typo acc
  = match fuel with
    | 0 => OutOfFuel
    | S _ => if isEmpty (CodespellTypo.info typo) then Threw else OutOfFuel
    end.
Proof.
  intros Ht. unfold forTypo. rewrite create_escaped, Ht.
  apply matchLoop_empty; [done|lia].
Qed.

Lemma isEmpty_false s : s ≠ "" → isEmpty s = false.
Proof. by destruct s. Qed.

Lemma isEmptyArray_true {A} (l : list A) : l = [] → negb (isEmptyArray l) = false.
Proof. by intros ->. Qed.

(** The typos of a list are resolved when every token is non-empty and
    every typo whose token occurs has a message. *)
Lemma forEachTypo_nonempty doc typos fuel acc :
  Forall (λ typo, CodespellTypo.token typo ≠ "") typos →
  Forall (λ typo, occurrences (CodespellTypo.token typo) (getText doc) ≠ [] →
                  CodespellTypo.info typo ≠ "") typos →
  String.length (getText doc) < fuel →
  forEachTypo fuel doc (getText doc) typos acc
  = Returned (acc ++ concat (map (diagnosticsFor doc) typos)).
Proof.
  intros Hts Hinfo Hf. revert acc.
  induction Hts as [|typo typos Ht Hts IH]; intros acc.
  - cbn. by rewrite app_nil_r.
  - inversion Hinfo as [|? ? Hi Hinfo']; subst.
    cbn [forEachTypo]. rewrite forTypo_nonempty by done.
    replace (isEmpty (CodespellTypo.info typo)
             && negb (isEmptyArray
                        (occurrences (CodespellTypo.token typo) (getText doc))))
      with false.
    2:{ destruct (occurrences (CodespellTypo.token typo) (getText doc)) eqn:E;
          [by rewrite andb_false_r|].
        by rewrite isEmpty_false by (by apply Hi). }
    cbn [obind]. rewrite IH by done. cbn [map concat]. by rewrite app_assoc.
Qed.

(** The first typo whose token occurs and whose message is empty makes
    the refresh throw, the typos before it being resolved. *)
Lemma forEachTypo_throws doc typos fuel acc :
  Forall (λ typo, CodespellTypo.token typo ≠ "") typos →
  Exists (λ typo, occurrences (CodespellTypo.token typo) (getText doc) ≠ []
                  ∧ CodespellTypo.info typo = "") typos →
  String.length (getText doc) < fuel →
  forEachTypo fuel doc (getText doc) typos acc = Threw.
Proof.
  intros Hts Hex Hf. revert acc.
  induction Hts as [|typo typos Ht Hts IH]; intros acc; [by inversion Hex|].
  cbn [forEachTypo]. rewrite forTypo_nonempty by done.
  destruct (isEmpty (CodespellTypo.info typo)
            && negb (isEmptyArray
                       (occurrences (CodespellTypo.token typo) (getText doc))))
    eqn:E; [done|].
  cbn [obind]. apply IH. inversion Hex as [? ? [Hocc Hinfo]|]; subst; [|done].
  rewrite Hinfo in E.
  by destruct (occurrences (CodespellTypo.token typo) (getText doc)).
Qed.

(** The loop throws only from the constructor, on an empty message. *)
Lemma matchLoop_threw doc text typo fuel re acc :
  matchLoop fuel doc text typo re acc = Threw → CodespellTypo.info typo = "".
Proof.
  revert re acc. induction fuel as [|fuel IH]; intros re acc; [done|].
  cbn [matchLoop]. destruct (exec re text) as [[[j e]|] re']; [|done].
  unfold newCodespellDiagnostic.
  destruct (CodespellTypo.info typo) eqn:E; [done|]. cbn [isEmpty obind].
  intros H. by apply IH in H.
Qed.

Lemma forEachTypo_threw doc text typos fuel acc :
  forEachTypo fuel doc text typos acc = Threw →
  Exists (λ typo, CodespellTypo.info typo = "") typos.
Proof.
  revert acc. induction typos as [|typo typos IH]; intros acc; [done|].
  cbn [forEachTypo]. unfold forTypo at 1. rewrite create_escaped.
  destruct (matchLoop _ _ _ _ _ _) as [ds| |] eqn:E; cbn [obind]; [|left|done].
  - intros H. right. by eapply IH.
  - by eapply matchLoop_threw.
Qed.

Lemma forEachTypo_empty doc typos fuel acc :
  Exists (λ typo, CodespellTypo.token typo = "") typos →
  Forall (λ typo, CodespellTypo.info typo ≠ "") typos →
  forEachTypo fuel doc (getText doc) typos acc = OutOfFuel.
Proof.
  intros Hts Hinfo. revert acc.
  induction Hts as [typo typos Ht|typo typos Hts IH]; intros acc;
    inversion Hinfo as [|? ? Hi Hinfo']; subst.
  - cbn [forEachTypo]. rewrite forTypo_empty by done.
    rewrite isEmpty_false by done. by destruct fuel.
  - cbn [forEachTypo].
    destruct (forTypo fuel doc (getText doc) typo acc) as [acc'| |] eqn:E; cbn [obind].
    + by apply IH.
    + exfalso. unfold forTypo in E. rewrite create_escaped in E.
      by apply matchLoop_threw in E.
    + done.
Qed.
End RefreshFacts.

(** ** What a refresh publishes *)
Section RefreshResults.
Import RegExp Vscode Diagnostics.
Implicit Types (s t text : string) (i j n fuel : nat) (doc : TextDocument)
  (typo : CodespellTypo.t) (st : State).

Lemma index_extent t s j :
  String.index 0 t s = Some j → j + String.length t ≤ String.length s.
Proof.
  revert j. induction s as [|c s IH]; intros j.
  - rewrite index_nil_l. destruct t; [|done]. by intros [= <-].
  - rewrite index_0_cons.
    destruct (String.prefix t (String c s)) eqn:Hp.
    + intros [= <-]. by apply prefix_length in Hp.
    + destruct (String.index 0 t s) as [j'|]; [|done].
      intros [= <-]. specialize (IH j' eq_refl). cbn. lia.
Qed.

Lemma refreshDiagnostics_nonempty fuel doc st typos :
  DocumentsToTypos_getTypos st doc = Some typos →
  Forall (λ typo, CodespellTypo.token typo ≠ "") typos →
  Forall (λ typo, occurrences (CodespellTypo.token typo) (getText doc) ≠ [] →
                  CodespellTypo.info typo ≠ "") typos →
  String.length (getText doc) < fuel →
  refreshDiagnostics fuel doc st
  = Returned (setDiagnostics doc (concat (map (diagnosticsFor doc) typos)) st).
Proof.
  intros Hst Hts Hinfo Hf. unfold refreshDiagnostics. rewrite Hst.
  by rewrite forEachTypo_nonempty.
Qed.

Lemma refreshDiagnostics_throws fuel doc st typos :
  DocumentsToTypos_getTypos st doc = Some typos →
  Forall (λ typo, CodespellTypo.token typo ≠ "") typos →
  Exists (λ typo, occurrences (CodespellTypo.token typo) (getText doc) ≠ []
                  ∧ CodespellTypo.info typo = "") typos →
  String.length (getText doc) < fuel →
  refreshDiagnostics fuel doc st = Threw.
Proof.
  intros Hst Hts Hex Hf. unfold refreshDiagnostics. rewrite Hst.
  by rewrite forEachTypo_throws.
Qed.

Lemma refreshDiagnostics_empty fuel doc st typos :
  DocumentsToTypos_getTypos st doc = Some typos →
  Exists (λ typo, CodespellTypo.token typo = "") typos →
  Forall (λ typo, CodespellTypo.info typo ≠ "") typos →
  refreshDiagnostics fuel doc st = OutOfFuel.
Proof.
  intros Hst Hts Hinfo. unfold refreshDiagnostics. rewrite Hst.
  by rewrite forEachTypo_empty.
Qed.

(** With messages everywhere, the typos whose token occurs have one. *)
Lemma info_where_needed doc (typos : list CodespellTypo.t) :
  Forall (λ typo, CodespellTypo.info typo ≠ "") typos →
  Forall (λ typo, occurrences (CodespellTypo.token typo) (getText doc) ≠ [] →
                  CodespellTypo.info typo ≠ "") typos.
Proof. intros H. eapply Forall_impl; [exact H|]. by intros typo ? _. Qed.

(** The occurrences of a non-empty token are places where the token
    stands verbatim, within the text. *)
Lemma occurrences_verbatim t text j :
  t ≠ "" → j ∈ occurrences t text →
  String.prefix t (slice j text) = true
  ∧ String.substring j (String.length t) text = t
  ∧ j + String.length t ≤ String.length text.
Proof.
  intros Ht Hj. apply occurrences_go_sound in Hj as [_ Hp].
  rewrite Nat.sub_0_r in Hp. split; [done|].
  pose proof Hp as [Hs Hl]%prefix_substring.
  rewrite substring_slice. split; [done|].
  rewrite length_slice in Hl. destruct t; [done|]. cbn in *. lia.
Qed.

Lemma StronglySorted_weaken {A} (R R' : A → A → Prop) (l : list A) :
  (∀ a b, R a b → R' a b) → StronglySorted R l → StronglySorted R' l.
Proof.
  intros HR. induction 1 as [|a l Hl IH Ha]; constructor; [done|].
  eapply Forall_impl; [exact Ha|]. intros b. apply HR.
Qed.

Lemma occurrences_sorted t text : StronglySorted lt (occurrences t text).
Proof.
  eapply StronglySorted_weaken; [|apply occurrences_go_sorted].
  intros a b [_ ?]. done.
Qed.

Lemma occurrences_complete t text (p : nat) :
  t ≠ "" →
  String.substring p (String.length t) text = t →
  p + String.length t ≤ String.length text →
  ∃ j, j ∈ occurrences t text ∧ j ≤ p ∧ p < j + String.length t.
Proof.
  intros Ht Hsub Hlen.
  apply (occurrences_go_complete t text 0 0 p Ht); [lia|].
  apply prefix_substring. rewrite <- substring_slice, length_slice. split; [done|lia].
Qed.

Lemma range_diagnosticAt doc typo j :
  CodespellDiagnostic.range (diagnosticAt doc typo j)
  = {| start := positionAt doc j;
       end_ := positionAt doc (j + String.length (CodespellTypo.token typo)) |}.
Proof. reflexivity. Qed.

Lemma NoDup_map_sorted {A B} (R : A → A → Prop) (f : A → B) (l : list A) :
  StronglySorted R l →
  (∀ x y, x ∈ l → y ∈ l → R x y → f x ≠ f y) →
  NoDup (map f l).
Proof.
  induction 1 as [|a l Hl IH Ha]; intros Hf; cbn [map]; constructor.
  - intros Hin. apply list_elem_of_In, in_map_iff in Hin as (y & Heq & Hy).
    apply list_elem_of_In in Hy.
    eapply (Hf a y); [by left|by right| |done].
    by eapply Forall_forall in Ha.
  - apply IH. intros x y Hx Hy. apply Hf; by right.
Qed.

(** The ranges of the occurrences of one non-empty token are pairwise
    different. *)
Lemma ranges_distinct doc typo :
  CodespellTypo.token typo ≠ "" →
  NoDup (map CodespellDiagnostic.range (diagnosticsFor doc typo)).
Proof.
  intros Ht. unfold diagnosticsFor. rewrite List.map_map.
  eapply NoDup_map_sorted; [apply occurrences_sorted|].
  intros x y Hx Hy Hlt. rewrite !range_diagnosticAt. intros [= Hs _].
  destruct (occurrences_verbatim _ _ _ Ht Hx) as (Hpx & _).
  destruct (occurrences_verbatim _ _ _ Ht Hy) as (Hpy & _).
  revert Hs. apply (positionAt_occurrences doc _ x y Ht); [lia|done..].
Qed.

Lemma matchLoop_invariant (P : CodespellDiagnostic.t → Prop)
    doc text typo fuel re acc ds :
  (∀ range d, newCodespellDiagnostic range typo = Returned d → P d) →
  Forall P acc →
  matchLoop fuel doc text typo re acc = Returned ds → Forall P ds.
Proof.
  intros HP. revert re acc. induction fuel as [|fuel IH]; intros re acc Hacc; [done|].
  cbn [matchLoop]. destruct (exec re text) as [[[j e]|] re'].
  - destruct (newCodespellDiagnostic _ typo) as [d| |] eqn:E; [|done..].
    cbn [obind]. apply IH. apply Forall_app. split; [done|].
    constructor; [by eapply HP|constructor].
  - by intros [= <-].
Qed.

Lemma forEachTypo_invariant (P : CodespellDiagnostic.t → Prop)
    doc text typos fuel acc ds :
  (∀ range typo d, newCodespellDiagnostic range typo = Returned d → P d) →
  Forall P acc →
  forEachTypo fuel doc text typos acc = Returned ds → Forall P ds.
Proof.
  intros HP. revert acc. induction typos as [|typo typos IH]; intros acc Hacc.
  - by intros [= <-].
  - cbn [forEachTypo]. unfold forTypo at 1.
    destruct (create _ _) as [re|]; [|done].
    destruct (matchLoop fuel doc text typo re acc) as [acc'| |] eqn:E; [|done..].
    cbn [obind]. apply IH. eapply matchLoop_invariant; [|exact Hacc|exact E].
    intros range. apply HP.
Qed.

(** A refresh writes the Diagnostic Collection only. *)
Lemma refreshDiagnostics_frame fuel doc st st' :
  refreshDiagnostics fuel doc st = Returned st' →
  documentsToTypos st' = documentsToTypos st
  ∧ lastSavedContent st' = lastSavedContent st.
Proof.
  unfold refreshDiagnostics. destruct (DocumentsToTypos_getTypos st doc) as [typos|].
  - destruct (forEachTypo _ _ _ _ _); [|done..]. by intros [= <-].
  - by intros [= <-].
Qed.
End RefreshResults.

(** ** Substrings *)
Section IncludesFacts.
Implicit Types (s t u p cur sep : string) (c : ascii).

Lemma includes_false p s :
  includes p s = false ↔ ∀ i, String.prefix p (slice i s) = false.
Proof.
  induction s as [|c s IH].
  - cbn [includes]. rewrite orb_false_r. split; [|intros H; apply (H 0)].
    intros H i. by destruct i.
  - cbn [includes]. rewrite orb_false_iff, IH. split.
    + intros [H0 H] [|i]; [exact H0|apply H].
    + intros H. split; [apply (H 0)|]. intros i. apply (H (S i)).
Qed.

Lemma prefix_app_r p s t : String.prefix p s = true → String.prefix p (s +:+ t) = true.
Proof.
  revert s. induction p as [|c p IH]; intros s; [intros _; apply prefix_nil|].
  destruct s as [|c' s]; [done|].
  rewrite sapp_cons, !prefix_cons. intros [Hc Hp]%andb_true_iff.
  by rewrite Hc, IH.
Qed.

Lemma slice_app_le i s t :
  i ≤ String.length s → slice i (s +:+ t) = slice i s +:+ t.
Proof.
  revert s. induction i as [|i IH]; intros s Hi; [done|].
  destruct s as [|c s]; [simpl in Hi; lia|].
  rewrite sapp_cons. cbn [slice]. apply IH. simpl in Hi. lia.
Qed.

Lemma slice_app_length s t : slice (String.length s) (s +:+ t) = t.
Proof. induction s as [|c s IH]; [done|]. exact IH. Qed.

Lemma includes_app p s t :
  includes p (s +:+ t) = false → includes p s = false ∧ includes p t = false.
Proof.
  rewrite !includes_false. intros H. split; intros i.
  - destruct (decide (i ≤ String.length s)) as [Hi|Hi].
    + destruct (String.prefix p (slice i s)) eqn:E; [|done].
      rewrite <- (H i), slice_app_le by done. symmetry. by apply prefix_app_r.
    + rewrite slice_length_ge by lia.
      specialize (H (String.length (s +:+ t))).
      by rewrite slice_length_ge in H.
  - specialize (H (String.length s + i)).
    by rewrite <- slice_slice, slice_app_length in H.
Qed.

(** A text without line feed does not occur across a line feed. *)
Lemma prefix_across_line p s t :
  lf_free p → p ≠ "" → String.prefix p s = false →
  String.prefix p (s +:+ nl +:+ t) = false.
Proof.
  revert s. induction p as [|c p IH]; intros s Hp Hne H; [done|].
  simpl in Hp. apply andb_prop_elim in Hp as [Hc Hp].
  apply negb_prop_elim in Hc. rewrite bool_decide_spec in Hc.
  destruct s as [|c' s].
  - change ("" +:+ nl +:+ t) with (String LF t). rewrite prefix_cons.
    rewrite bool_decide_eq_false_2; [done|congruence].
  - rewrite sapp_cons, prefix_cons. rewrite prefix_cons in H.
    case_bool_decide; [|done]. cbn [andb] in *.
    destruct p as [|c'' p]; [by rewrite prefix_nil in H|].
    by apply IH.
Qed.

Lemma includes_across_line p s t :
  lf_free p → p ≠ "" →
  includes p s = false → includes p t = false →
  includes p (s +:+ nl +:+ t) = false.
Proof.
  intros Hp Hne. induction s as [|c s IH]; intros Hs Ht.
  - change ("" +:+ nl +:+ t) with (String LF t). cbn [includes].
    rewrite Ht, orb_false_r. apply (prefix_across_line p "" t Hp Hne).
    by destruct p.
  - cbn [includes] in Hs. apply orb_false_elim in Hs as [Hs0 Hs].
    rewrite sapp_cons. cbn [includes]. rewrite IH by done.
    rewrite orb_false_r. by apply (prefix_across_line p (String c s) t).
Qed.

Lemma includes_join p ls :
  lf_free p → p ≠ "" →
  Forall (λ l, includes p l = false) ls → includes p (join nl ls) = false.
Proof.
  intros Hp Hne. induction 1 as [|l ls Hl Hls IH]; [by destruct p|].
  destruct ls as [|l' ls]; [done|].
  change (join nl (l :: l' :: ls)) with (l +:+ nl +:+ join nl (l' :: ls)).
  by apply includes_across_line.
Qed.

(** No piece of a split holds the separator. *)
Lemma split_go_pieces sep s skip cur :
  sep ≠ "" →
  match skip with
  | 0 => ∀ i, i < String.length cur → String.prefix sep (slice i (cur +:+ s)) = false
  | S _ => cur = ""
  end →
  Forall (λ piece, includes sep piece = false) (split_go sep s skip cur).
Proof.
  intros Hne. revert skip cur. induction s as [|c s IH]; intros skip cur H.
  - cbn [split_go]. constructor; [|done].
    destruct skip as [|k]; [|subst; by destruct sep].
    apply includes_false. intros i.
    destruct (decide (i < String.length cur)) as [Hi|Hi].
    + rewrite <- (sapp_nil_r cur). by apply H.
    + rewrite slice_length_ge by lia. by destruct sep.
  - cbn [split_go]. destruct skip as [|k].
    2:{ subst cur. apply IH. destruct k; [|done]. cbn. lia. }
    destruct (String.prefix sep (String c s)) eqn:E.
    + constructor.
      2:{ apply IH. destruct (String.length sep - 1); [|done]. cbn. lia. }
      apply includes_false. intros i.
      destruct (decide (i < String.length cur)) as [Hi|Hi].
      * destruct (String.prefix sep (slice i cur)) eqn:E'; [|done].
        rewrite <- (H i Hi), slice_app_le by lia. symmetry. by apply prefix_app_r.
      * rewrite slice_length_ge by lia. by destruct sep.
    + apply IH. intros i Hi. rewrite sapp_assoc. cbn [String.append].
      change (String c "" +:+ s) with (String c s).
      rewrite slength_app in Hi. cbn [String.length] in Hi.
      destruct (decide (i < String.length cur)) as [Hlt|Hge]; [by apply H|].
      replace i with (String.length cur) by lia.
      by rewrite slice_app_length.
Qed.

Lemma split_pieces sep s :
  sep ≠ "" → Forall (λ piece, includes sep piece = false) (split sep s).
Proof. intros Hne. apply split_go_pieces; [done|]. cbn. lia. Qed.
End IncludesFacts.

(** ** The lines of a patch *)
Section PatchLines.
Import Diff Utils.
Implicit Types (s t cur old new : string) (ls bl al xs ys : list string).

(** What is asked of a line of a hunk: it has no line feed, and when it is
    an added line its text satisfies [A]. *)
Local Abbreviation lineOk A :=
  (λ x : string, lf_free x ∧ (startsWith "+" x = true → A (slice 1 x))).

(** The lines of the tokens of a text have no line feed and are parts of
    the text. *)
Lemma tokenize_go_lines s cur :
  lf_free cur →
  Forall (λ t, lf_free (chomp t)
               ∧ ∀ p, includes p (cur +:+ s) = false → includes p (chomp t) = false)
    (tokenize_go s cur).
Proof.
  revert cur. induction s as [|c s IH]; intros cur Hcur.
  - cbn [tokenize_go]. destruct (isEmpty cur); constructor; [|done].
    rewrite chomp_lf_free, sapp_nil_r by done. by split.
  - cbn [tokenize_go]. destruct (ascii_dec c LF) as [->|Hc].
    + constructor.
      * rewrite chomp_line. split; [done|]. intros p Hp.
        by apply includes_app in Hp as [Hp _].
      * eapply Forall_impl; [exact (IH "" I)|].
        intros t [Ht Hin]. split; [done|]. intros p Hp. apply Hin.
        apply includes_app in Hp as [_ Hp]. cbn [includes] in Hp.
        by apply orb_false_elim in Hp as [_ Hp].
    + eapply Forall_impl; [apply (IH (cur +:+ String c ""))|].
      * rewrite lf_free_app. apply andb_prop_intro. split; [done|].
        simpl. rewrite bool_decide_eq_false_2 by done. done.
      * intros t [Ht Hin]. split; [done|]. intros p Hp. apply Hin.
        by rewrite sapp_assoc.
Qed.

Lemma tokenize_lines s :
  Forall (λ t, lf_free (chomp t)
               ∧ ∀ p, includes p s = false → includes p (chomp t) = false)
    (tokenize s).
Proof. exact (tokenize_go_lines s "" I). Qed.

Lemma script_cons_cons (x y : string) (olds news : list string) :
  script (x :: olds) (y :: news)
  = if decide (x = y) then (Common, x) :: script olds news
    else
      let d := (Removed, x) :: script olds (y :: news) in
      let a := (Added, y) :: script (x :: olds) news in
      if cost d <=? cost a then d else a.
Proof. reflexivity. Qed.

(** An edit script holds tokens of the two texts; what it adds is of the
    new one. *)
Lemma script_edits (A : string → Prop) (olds news : list string) :
  Forall (λ t, lf_free (chomp t)) olds →
  Forall (λ t, lf_free (chomp t) ∧ A (chomp t)) news →
  Forall (λ e : edit, lf_free (chomp e.2) ∧ (e.1 = Added → A (chomp e.2)))
    (script olds news).
Proof.
  intros Hold. revert news.
  induction Hold as [|x olds Hx Hold IH]; intros news Hnew.
  - cbn [script]. rewrite Forall_map.
    eapply Forall_impl; [exact Hnew|]. by intros t [??].
  - induction Hnew as [|y news Hy Hnew IHn].
    + change (script (x :: olds) []) with (map (pair Removed) (x :: olds)).
      rewrite Forall_map. constructor; [done|].
      eapply Forall_impl; [exact Hold|]. by intros t ?.
    + rewrite script_cons_cons. destruct (decide (x = y)) as [->|Hxy].
      * constructor; [done|]. by apply IH.
      * cbn zeta. destruct (_ <=? _).
        -- constructor; [done|]. apply IH. by constructor.
        -- constructor; [|done]. destruct Hy. by split.
Qed.

Lemma script_truncate xs ys :
  script (xs ++ ys) xs = map (pair Common) xs ++ map (pair Removed) ys.
Proof.
  induction xs as [|x xs IH]; [by destruct ys|].
  cbn [app]. rewrite script_cons_cons, decide_True by done. by rewrite IH.
Qed.

Lemma group_components (E : kind → string → Prop) (es : list edit) :
  Forall (λ e, E e.1 e.2) es →
  Forall (λ c, Forall (E (ckind c)) (ctokens c)) (group es).
Proof.
  induction 1 as [|[k t] es He Hes IH]; [constructor|].
  rewrite group_cons. destruct (group es) as [|[k' ts] cs].
  - by repeat constructor.
  - inversion IH as [|? ? Hts Hcs]; subst. cbn in Hts.
    destruct (decide (k = k')) as [->|Hk]; by repeat constructor.
Qed.

Lemma lineOk_context (A : string → Prop) ls :
  Forall lf_free ls → Forall (lineOk A) (contextLines ls).
Proof.
  unfold contextLines. rewrite Forall_map. intros H.
  eapply Forall_impl; [exact H|]. intros l Hl. by split.
Qed.

Lemma lineOk_eofLines (A : string → Prop) old new (lines range : list string) n :
  Forall (lineOk A) range → Forall (lineOk A) (eofLines old new lines range n).
Proof.
  intros Hcur. unfold eofLines.
  assert (Hmark : (lineOk A) noNewline) by by split.
  assert (Hsplice : Forall (lineOk A) (splice n noNewline range)).
  { unfold splice. apply Forall_app. split; [by apply Forall_take|].
    constructor; [done|]. by apply Forall_drop. }
  repeat match goal with |- context [if ?b then _ else _] => destruct b end;
    rewrite ?Forall_app; repeat split; by repeat constructor.
Qed.

Lemma hunks_go_lines (A : string → Prop) old new diff prev st :
  Forall (λ c, Forall (λ t, lf_free (chomp t) ∧ (ckind c = Added → A (chomp t)))
                 (ctokens c)) diff →
  (∀ p, prev = Some p → Forall lf_free (clines p)) →
  Forall (lineOk A) (curRange st) →
  Forall (λ h, Forall (lineOk A) (hlines h)) (hunks_go old new prev diff st).
Proof.
  revert prev st. induction diff as [|current rest IH]; intros prev st Hd Hprev Hst;
    [constructor|].
  inversion Hd as [|? ? Hcur Hrest]; subst. cbn [hunks_go].
  assert (Hlines : Forall lf_free (clines current)).
  { unfold clines. rewrite Forall_map.
    eapply Forall_impl; [exact Hcur|]. by intros t [? _]. }
  assert (Hnext : ∀ p, Some current = Some p → Forall lf_free (clines p))
    by (by intros p [= <-]).
  assert (Hopen : Forall (lineOk A) (curRange (openRange prev st))).
  { unfold openRange. destruct (oldRangeStart st =? 0); [|done].
    cbn [curRange]. destruct prev as [p|]; [|constructor].
    apply lineOk_context. unfold lastn. apply Forall_drop. by apply Hprev. }
  destruct (ckind current) eqn:Ek.
  - destruct (oldRangeStart st =? 0); [by apply IH|].
    destruct (_ && _).
    + apply IH; [done..|]. cbn [curRange]. apply Forall_app. split; [done|].
      by apply lineOk_context.
    + assert (Hcut : Forall (lineOk A)
                (curRange st
                 ++ contextLines (take (Nat.min (length (clines current)) context)
                                    (clines current)))).
      { apply Forall_app. split; [done|].
        apply lineOk_context. by apply Forall_take. }
      constructor; [|by apply IH].
      cbn [hlines]. destruct (_ && _); [|done]. by apply lineOk_eofLines.
  - apply IH; [done..|]. cbn [curRange]. apply Forall_app. split; [done|].
    unfold markedLines, clines. rewrite decide_True by done. rewrite !Forall_map.
    eapply Forall_impl; [exact Hcur|]. intros t [Ht HA]. split; [done|].
    intros _. by apply HA.
  - apply IH; [done..|]. cbn [curRange]. apply Forall_app. split; [done|].
    unfold markedLines, clines. rewrite decide_False by done. rewrite !Forall_map.
    eapply Forall_impl; [exact Hcur|]. intros t [Ht _]. by split.
Qed.

Lemma structuredPatch_lines (A : string → Prop) old new :
  Forall (λ e : edit, lf_free (chomp e.2) ∧ (e.1 = Added → A (chomp e.2)))
    (script (tokenize old) (tokenize new)) →
  Forall (λ h, Forall (lineOk A) (hlines h)) (structuredPatch old new).
Proof.
  intros H. unfold structuredPatch, diffLines. apply hunks_go_lines; [|done|constructor].
  apply Forall_app. split; [|by repeat constructor].
  by apply (group_components
              (λ k t, lf_free (chomp t) ∧ (k = Added → A (chomp t)))).
Qed.
End PatchLines.

(** ** What the Change Detector reads off a patch *)
Section ExtractFacts.
Import Diff Utils.
Implicit Types (s t cur old new : string) (ls bl al xs ys : list string).

Local Abbreviation lineOk A :=
  (λ x : string, lf_free x ∧ (startsWith "+" x = true → A (slice 1 x))).

Lemma filter_patch_lines hs :
  List.filter (λ line, startsWith "+" line)
    (concat (map (λ h, hunkHeader h :: hlines h) hs))
  = List.filter (λ line, startsWith "+" line) (concat (map hlines hs)).
Proof.
  induction hs as [|h hs IH]; [done|].
  cbn [map concat app List.filter].
  by rewrite filter_hunkHeader, !List.filter_app, IH.
Qed.

Lemma lf_free_patchLines hs :
  Forall (λ h, Forall lf_free (hlines h)) hs → Forall lf_free (patchLines "code" hs).
Proof.
  unfold patchLines. intros H.
  repeat (apply Forall_cons; split; [done|]). cbn [app].
  induction H as [|h hs Hh Hhs IH]; [constructor|].
  cbn [map concat]. constructor; [apply lf_free_hunkHeader|].
  by apply Forall_app.
Qed.

(** The added lines of a patch, after the header line [+++ code]. *)
Lemma extract_patch hs :
  Forall (λ h, Forall lf_free (hlines h)) hs →
  extractAddedLines (join nl (patchLines "code" hs) +:+ nl)
  = List.filter (λ item, negb (isEmpty item))
      (split "++ code"
         (join nl ("++ code"
                   :: map (slice 1)
                        (List.filter (λ line, startsWith "+" line)
                           (concat (map hlines hs)))))).
Proof.
  intros H. unfold extractAddedLines.
  rewrite split_text_lines; [|by apply lf_free_patchLines|done].
  unfold patchLines. rewrite !List.filter_app, filter_patch_lines.
  cbn [List.filter].
  change (startsWith "+" ("Index: " +:+ "code")) with false.
  change (startsWith "+" separator) with false.
  change (startsWith "+" ("--- " +:+ "code")) with false.
  change (startsWith "+" ("+++ " +:+ "code")) with true.
  change (startsWith "+" "") with false.
  cbn [app]. by rewrite app_nil_r.
Qed.

Lemma extract_added (A : string → Prop) hs :
  (∀ l, A l → includes "++ code" l = false) →
  Forall (λ h, Forall (lineOk A) (hlines h)) hs →
  ∃ added, Forall A added
    ∧ extractAddedLines (join nl (patchLines "code" hs) +:+ nl)
      = if isEmptyArray added then [] else [nl +:+ join nl added].
Proof.
  intros HA H.
  rewrite extract_patch.
  2:{ eapply Forall_impl; [exact H|]. intros h Hh.
      eapply Forall_impl; [exact Hh|]. by intros x [? _]. }
  assert (Hl : Forall (lineOk A) (concat (map hlines hs))).
  { induction H as [|h hs Hh Hhs IH]; [constructor|].
    cbn [map concat]. by apply Forall_app. }
  set (lines := concat (map hlines hs)) in *.
  clearbody lines.
  set (added := map (slice 1) (List.filter (λ line, startsWith "+" line) lines)).
  assert (Hadded : Forall A added).
  { subst added. rewrite Forall_map.
    induction Hl as [|x lines [_ Hx] Hl IH]; [constructor|].
    cbn [List.filter]. destruct (startsWith "+" x) eqn:E; [|done].
    constructor; [by apply Hx|done]. }
  exists added. split; [done|]. clearbody added.
  destruct added as [|a added]; [reflexivity|].
  cbn [isEmptyArray].
  change (join nl ("++ code" :: a :: added))
    with ("++ code" +:+ nl +:+ join nl (a :: added)).
  set (rest := nl +:+ join nl (a :: added)).
  unfold split.
  change ("++ code" +:+ rest) with (String "+" ("+ code" +:+ rest)).
  cbn [split_go].
  replace (String.prefix "++ code" (String "+" ("+ code" +:+ rest))) with true
    by (symmetry; apply (prefix_app "++ code")).
  change (String.length "++ code" - 1) with (String.length "+ code").
  rewrite split_go_skip, split_go_absent; [done|].
  subst rest. change (nl +:+ join nl (a :: added)) with (String LF (join nl (a :: added))).
  cbn [includes]. rewrite includes_join; [done..|].
  eapply Forall_impl; [exact Hadded|]. exact HA.
Qed.

(** The lines of the tokens of a text are among the pieces of its split
    at line feeds. *)
Lemma tokenize_go_split s cur :
  lf_free cur →
  Forall (λ t, chomp t ∈ split_go nl s 0 cur) (tokenize_go s cur).
Proof.
  revert cur. induction s as [|c s IH]; intros cur Hcur.
  - cbn [tokenize_go split_go]. destruct (isEmpty cur); constructor; [|done].
    rewrite chomp_lf_free by done. by left.
  - assert (Hp : String.prefix nl (String c s) = bool_decide (LF = c)).
    { unfold nl. rewrite prefix_cons, prefix_nil. apply andb_true_r. }
    cbn [tokenize_go split_go]. rewrite Hp.
    destruct (ascii_dec c LF) as [->|Hc].
    + rewrite bool_decide_eq_true_2 by done.
      change (String.length nl - 1) with 0.
      constructor; [rewrite chomp_line; by left|].
      eapply Forall_impl; [exact (IH "" I)|]. intros t Ht. by right.
    + rewrite bool_decide_eq_false_2 by congruence.
      apply IH. rewrite lf_free_app. apply andb_prop_intro. split; [done|].
      simpl. by rewrite bool_decide_eq_false_2.
Qed.
End ExtractFacts.


(** ** The order of the added lines *)
Section OrderFacts.
Import Diff Utils.
Implicit Types (s t cur old new : string) (ls xs ys : list string).

Local Abbreviation added lines :=
  (map (slice 1) (List.filter (λ line : string, startsWith "+" line) lines)).

Lemma added_app xs ys : added (xs ++ ys) = added xs ++ added ys.
Proof. by rewrite List.filter_app, map_app. Qed.

Lemma added_contextLines ls : added (contextLines ls) = [].
Proof. by rewrite filter_contextLines. Qed.

Lemma added_addedLines ls : added (markedLines Added ls) = ls.
Proof. by rewrite filter_addedLines, slice_marked. Qed.

Lemma added_removedLines ls : added (markedLines Removed ls) = [].
Proof.
  unfold markedLines. rewrite decide_False by done.
  induction ls as [|l ls IH]; [done|]. exact IH.
Qed.

Lemma added_marker xs : added (noNewline :: xs) = added xs.
Proof. reflexivity. Qed.

Lemma added_eofLines old new (lines range : list string) n :
  added (eofLines old new lines range n) = added range.
Proof.
  unfold eofLines.
  assert (Hsplice : added (splice n noNewline range) = added range).
  { unfold splice. by rewrite added_app, added_marker, <- added_app, take_drop. }
  repeat match goal with |- context [if ?b then _ else _] => destruct b end;
    rewrite ?added_app, ?Hsplice, ?added_marker; by rewrite ?app_nil_r.
Qed.

(** What an edit script adds is a subsequence of the new tokens. *)
Lemma script_added (olds news : list string) :
  map snd (List.filter (λ e : edit, bool_decide (e.1 = Added)) (script olds news))
  `sublist_of` news.
Proof.
  revert news. induction olds as [|x olds IH]; intros news.
  - cbn [script]. induction news as [|y news IHn]; [done|].
    cbn. by apply sublist_skip.
  - induction news as [|y news IHn].
    + change (script (x :: olds) []) with (map (pair Removed) (x :: olds)).
      apply sublist_nil_r.
      clear. generalize (x :: olds). intros l. induction l as [|z l IHl]; [done|].
      exact IHl.
    + rewrite script_cons_cons. destruct (decide (x = y)) as [->|Hxy].
      * cbn. apply sublist_cons. apply IH.
      * cbv zeta. destruct (_ <=? _).
        -- cbn. apply IH.
        -- cbn. by apply sublist_skip.
Qed.

Lemma group_added (es : list edit) :
  concat (map ctokens (List.filter (λ c, bool_decide (ckind c = Added)) (group es)))
  = map snd (List.filter (λ e : edit, bool_decide (e.1 = Added)) es).
Proof.
  induction es as [|[k t] es IH]; [done|].
  assert (Hr : map snd (List.filter (λ e : edit, bool_decide (e.1 = Added)) ((k, t) :: es))
               = (if bool_decide (k = Added) then [t] else [])
                 ++ map snd (List.filter (λ e : edit, bool_decide (e.1 = Added)) es)).
  { cbn [List.filter fst]. by destruct (bool_decide (k = Added)). }
  etrans; [|symmetry; exact Hr]. rewrite <- IH, group_cons. clear.
  destruct (group es) as [|[k' ts] cs].
  - cbn. by destruct (bool_decide (k = Added)).
  - destruct (decide (k = k')) as [->|Hk]; cbn [List.filter ckind].
    + by destruct (bool_decide (k' = Added)).
    + by destruct (bool_decide (k = Added)), (bool_decide (k' = Added)).
Qed.

(** The added lines of the hunks are, in order, among the lines of the
    added components. *)
Lemma hunks_go_added old new diff prev st :
  added (concat (map hlines (hunks_go old new prev diff st)))
  `sublist_of`
  added (curRange st)
  ++ concat (map clines (List.filter (λ c, bool_decide (ckind c = Added)) diff)).
Proof.
  revert prev st. induction diff as [|current rest IH]; intros prev st;
    [apply sublist_nil_l|].
  cbn [hunks_go].
  assert (Hopen : added (curRange (openRange prev st)) `sublist_of` added (curRange st)).
  { unfold openRange. destruct (oldRangeStart st =? 0); [|done].
    cbn [curRange]. destruct prev as [p|]; [|apply sublist_nil_l].
    rewrite added_contextLines. apply sublist_nil_l. }
  destruct (ckind current) eqn:Ek; cbn [List.filter]; rewrite Ek.
  - rewrite bool_decide_eq_false_2 by done.
    destruct (oldRangeStart st =? 0); [etrans; [apply IH|]; done|].
    destruct (_ && _).
    + etrans; [apply IH|]. cbn [curRange].
      by rewrite added_app, added_contextLines, app_nil_r.
    + cbn [map concat hlines]. rewrite added_app.
      apply sublist_app.
      * destruct (_ && _);
          by rewrite ?added_eofLines, added_app, added_contextLines, app_nil_r.
      * etrans; [apply IH|]. done.
  - rewrite bool_decide_eq_true_2 by done. cbn [map concat].
    etrans; [apply IH|]. cbn [curRange].
    rewrite added_app, added_addedLines, <- app_assoc.
    by apply sublist_app.
  - rewrite bool_decide_eq_false_2 by done.
    etrans; [apply IH|]. cbn [curRange].
    rewrite added_app, added_removedLines, app_nil_r.
    by apply sublist_app.
Qed.

(** The lines of the tokens of a text are, in order, among the pieces of
    its split at line feeds. *)
Lemma tokenize_go_sublist s cur :
  lf_free cur →
  map chomp (tokenize_go s cur) `sublist_of` split_go nl s 0 cur.
Proof.
  revert cur. induction s as [|c s IH]; intros cur Hcur.
  - cbn [tokenize_go split_go]. destruct (isEmpty cur); [apply sublist_nil_l|].
    cbn [map]. by rewrite chomp_lf_free.
  - assert (Hp : String.prefix nl (String c s) = bool_decide (LF = c)).
    { unfold nl. rewrite prefix_cons, prefix_nil. apply andb_true_r. }
    cbn [tokenize_go split_go]. rewrite Hp.
    destruct (ascii_dec c LF) as [->|Hc].
    + rewrite bool_decide_eq_true_2 by done.
      change (String.length nl - 1) with 0.
      cbn [map]. rewrite chomp_line. apply sublist_skip. by apply IH.
    + rewrite bool_decide_eq_false_2 by congruence.
      apply IH. rewrite lf_free_app. apply andb_prop_intro. split; [done|].
      simpl. by rewrite bool_decide_eq_false_2.
Qed.

Lemma concat_clines (cs : list component) :
  concat (map clines cs) = map chomp (concat (map ctokens cs)).
Proof.
  induction cs as [|c cs IH]; [done|].
  cbn [map concat]. by rewrite map_app, IH.
Qed.

(** The result in terms of lines of the new text: a subsequence of them,
    in their order, joined by line feeds after the header token and cut
    at that token. *)
Lemma findDifferences_lines code1 code2 :
  ∃ lines, lines `sublist_of` split nl code2
    ∧ findDifferences code1 code2
      = List.filter (λ item, negb (isEmpty item))
          (split "++ code" (join nl ("++ code" :: lines))).
Proof.
  unfold findDifferences, createPatch.
  exists (added (concat (map hlines (structuredPatch code1 code2)))). split.
  - etrans; [apply hunks_go_added|]. cbn [curRange List.filter map app].
    unfold diffLines. rewrite List.filter_app. cbn [List.filter ckind].
    rewrite bool_decide_eq_false_2 by done. rewrite app_nil_r.
    rewrite concat_clines, group_added.
    etrans; [|apply (tokenize_go_sublist code2 "" I)].
    apply (fmap_sublist chomp). apply script_added.
  - apply extract_patch.
    pose proof (structuredPatch_lines (λ _, True) code1 code2) as H.
    eapply Forall_impl; [apply H|].
    + apply (script_edits (λ _, True)).
      * eapply Forall_impl; [apply (tokenize_lines code1)|]. by intros t [? _].
      * eapply Forall_impl; [apply (tokenize_lines code2)|]. by intros t [? _].
    + intros h Hh. eapply Forall_impl; [exact Hh|]. by intros x [? _].
Qed.
End OrderFacts.

(** ** The scan of a token *)
Section ScanFacts.
Implicit Types (t text : string) (i j n : nat) (js : list nat).

Lemma scanAfter_cons t i j js : scanAfter t i (j :: js) = scanAfter t (j + String.length t) js.
Proof.
  revert i j. induction js as [|a js IH]; intros i j; [done|].
  rewrite (IH (j + String.length t) a).
  change (scanAfter t i (j :: a :: js)) with (scanAfter t i (a :: js)).
  apply IH.
Qed.

(** Each occurrence that the scan reports is the first place, from where
    the scan stood, where the token stands; after the last one there is
    no such place. *)
Lemma occurrences_go_scan t text n i :
  t ≠ "" → String.length text - i ≤ n → i ≤ String.length text →
  (∀ before j after,
     occurrences_go t (slice i text) i 0 = before ++ j :: after →
     String.index (scanAfter t i before) t text = Some j)
  ∧ String.index (scanAfter t i (occurrences_go t (slice i text) i 0)) t text = None.
Proof.
  intros Ht. revert i. induction n as [|n IH]; intros i Hn Hi;
    rewrite occurrences_go_index by done;
    destruct (String.index 0 t (slice i text)) as [j|] eqn:Hj.
  - apply index_bound in Hj; [|done]. rewrite length_slice in Hj.
    destruct t; [done|]. simpl in Hj. lia.
  - split; [by intros [|??] ???|]. cbn. by rewrite index_slice, Hj by done.
  - pose proof (index_bound _ _ _ Ht Hj) as Hb. rewrite length_slice in Hb.
    assert (0 < String.length t) by (destruct t; [done|simpl; lia]).
    rewrite slice_slice, Nat.add_assoc.
    destruct (IH (i + j + String.length t)) as [IH1 IH2]; [lia..|].
    split.
    + intros [|b before] x after Heq.
      * injection Heq as <- _. cbn. by rewrite index_slice, Hj by done.
      * injection Heq as <- Heq. rewrite scanAfter_cons. by eapply IH1.
    + by rewrite scanAfter_cons.
  - split; [by intros [|??] ???|]. cbn. by rewrite index_slice, Hj by done.
Qed.

Lemma occurrences_scan t text :
  t ≠ "" →
  (∀ before j after,
     occurrences t text = before ++ j :: after →
     String.index (scanAfter t 0 before) t text = Some j)
  ∧ String.index (scanAfter t 0 (occurrences t text)) t text = None.
Proof.
  intros Ht.
  apply (occurrences_go_scan t text (String.length text) 0 Ht); lia.
Qed.
End ScanFacts.

(** * The claims *)

Section ChangeDetectorClaims.
Import Diff Utils.

(** C8. For every text [x], [findDifferences x x] is the empty sequence:
    the patch of a text against itself has its four header lines and no
    hunk, the only line that starts with a plus sign is the [+++ code]
    header, and splitting on it leaves two empty pieces, both dropped.
    And [findDifferences], a function of its two arguments, keeps the
    order of the new text: whatever the two texts, the added lines that
    it works from are lines of the new text in the order they have
    there (a subsequence of its lines), and the blocks it returns are
    these lines, in that order, joined by line feeds behind the header
    token, cut at every [++ code], the empty pieces dropped. *)
Theorem findDifferences_same_and_ordered :
  (∀ x, findDifferences x x = [])
  ∧ (∀ code1 code2,
       ∃ lines, lines `sublist_of` split nl code2
         ∧ findDifferences code1 code2
           = List.filter (λ item, negb (isEmpty item))
               (split "++ code" (join nl ("++ code" :: lines)))).
Proof.
  split.
  - intros x. unfold findDifferences, createPatch. rewrite structuredPatch_same.
    apply extract_header_only.
  - apply findDifferences_lines.
Qed.

(** Lines added in two places come out in the order of the new text. *)
Example findDifferences_two_places :
  findDifferences ("a" +:+ nl +:+ "b" +:+ nl)
                  ("x" +:+ nl +:+ "a" +:+ nl +:+ "b" +:+ nl +:+ "y" +:+ nl)
  = [nl +:+ "x" +:+ nl +:+ "y"].
Proof. reflexivity. Qed.

(** C1, as stated, fails on its own example: for ["foo\nbar\n"] and
    ["foo\nbar\nbaz\n"] the result is not [["baz"]], the block keeps the
    line feed that joined it to the header line. *)
Lemma appended_baz_keeps_line_feed :
  findDifferences ("foo" +:+ nl +:+ "bar" +:+ nl)
                  ("foo" +:+ nl +:+ "bar" +:+ nl +:+ "baz" +:+ nl)
  ≠ ["baz"].
Proof. vm_compute. discriminate. Qed.

(** C1, amended. Let [before] be made of lines ended by a line feed and
    [after] be [before] followed by the lines [al], joined by line feeds,
    the last one ended by a line feed or (when it is not empty) left
    open; let the appended text not contain [++ code]. Then
    [findDifferences] returns one block: a line feed followed by the
    appended lines, in order, joined by line feeds. No line of [before]
    is in it and the block is not empty. *)
Theorem findDifferences_append (bl al : list string) (terminated : bool) :
  Forall lf_free bl → Forall lf_free al → al ≠ [] →
  (terminated = false → last al ≠ Some "") →
  includes "++ code" (join nl al) = false →
  findDifferences (unlines bl)
    (unlines bl +:+ if terminated then unlines al else join nl al)
  = [nl +:+ join nl al].
Proof.
  intros Hbl Hal Hne Hlast Hinc. unfold findDifferences, createPatch.
  set (a := if terminated then unlines al else join nl al).
  assert (Ha : tokenize a ≠ [] ∧ map chomp (tokenize a) = al).
  { subst a. destruct terminated.
    - by apply tokenize_unlines_lines.
    - apply tokenize_join; [done..|]. by apply Hlast. }
  destruct Ha as [Hts Hlines].
  destruct (structuredPatch_append bl a al Hbl Hts Hlines) as (h & -> & Hh).
  eapply extract_one_hunk; [exact Hh| |done..].
  unfold lastn. by apply Forall_drop.
Qed.

Lemma findDifferences_append_witness :
  Forall lf_free ["foo"; "bar"] ∧ Forall lf_free ["baz"] ∧ ["baz"] ≠ []
  ∧ (true = false → last ["baz"] ≠ Some "")
  ∧ includes "++ code" (join nl ["baz"]) = false
  ∧ findDifferences (unlines ["foo"; "bar"])
      (unlines ["foo"; "bar"] +:+ unlines ["baz"])
    = [nl +:+ join nl ["baz"]].
Proof.
  assert (H1 : Forall lf_free ["foo"; "bar"]) by repeat constructor.
  assert (H2 : Forall lf_free ["baz"]) by repeat constructor.
  assert (H3 : ["baz"] ≠ []) by discriminate.
  assert (H4 : true = false → last ["baz"] ≠ Some "") by discriminate.
  assert (H5 : includes "++ code" (join nl ["baz"]) = false) by reflexivity.
  split_and!; [exact H1|exact H2|exact H3|exact H4|exact H5|].
  exact (findDifferences_append ["foo"; "bar"] ["baz"] true H1 H2 H3 H4 H5).
Defined.

(** The same save with the new last line left open. *)
Example findDifferences_append_open :
  findDifferences ("foo" +:+ nl +:+ "bar" +:+ nl) ("foo" +:+ nl +:+ "bar" +:+ nl +:+ "baz")
  = [nl +:+ "baz"].
Proof. reflexivity. Qed.
End ChangeDetectorClaims.

Section RangeResolverClaims.
Import RegExp Vscode Diagnostics.

(** C2, as stated, fails in three ways. On the text [aaa] the token [aa]
    stands verbatim at the offsets 0 and 1, and a refresh publishes the
    diagnostic of offset 0 only: the scan resumes behind a match, so an
    occurrence that overlaps it is not found. With the empty token no
    number of loop iterations lets the refresh return, so it publishes
    nothing. And for a typo with an empty message the refresh throws at
    the first match, and publishes nothing either. *)
Lemma matches_are_not_all_occurrences :
  (let doc := Scenario.document "aaa" [] in
   let typo := Scenario.typo "aa" "a" in
   refreshDiagnostics 8 doc (Scenario.store (Some [typo]) None)
   = Returned (setDiagnostics doc [diagnosticAt doc typo 0]
                 (Scenario.store (Some [typo]) None))
   ∧ String.substring 0 2 (getText doc) = "aa"
   ∧ String.substring 1 2 (getText doc) = "aa")
  ∧ (¬ ∃ fuel st',
         refreshDiagnostics fuel (Scenario.document "teh" [])
           (Scenario.store (Some [Scenario.typo "" ""]) None)
         = Returned st')
  ∧ (String.substring 0 3 (getText (Scenario.document "teh" [])) = "teh"
     ∧ refreshDiagnostics 8 (Scenario.document "teh" [])
         (Scenario.store (Some [Scenario.mute "teh"]) None)
       = Threw).
Proof.
  split; [by split_and!|]. split; [|by split].
  intros (fuel & st' & H).
  erewrite refreshDiagnostics_empty in H; [done|apply lookup_singleton_eq| |].
  - by left.
  - by repeat constructor.
Qed.

(** C2, amended. Let every token of the document's typo list be
    non-empty, special characters, white space and line feeds allowed,
    and let every typo whose token occurs have a non-empty message. Then
    a refresh returns (given as many loop iterations as the text is long,
    and one more) and the matches it finds for a token [t] are verbatim
    occurrences of [t], found in one scan from left to right: the pattern
    built from [t] compiles to the sequence of the code units of [t], the
    loop of the [forEach] callback appends one diagnostic for each match
    and nothing else, each match is the first place, at or after the end
    of the match before it (the start of the text for the first), where
    the text reads [t] code unit by code unit, line feeds like the rest,
    and after the last match there is no such place. So every place
    where [t] stands is a match or overlaps a match that starts before
    it. *)
Theorem refreshDiagnostics_finds_verbatim fuel doc st typos :
  DocumentsToTypos_getTypos st doc = Some typos →
  Forall (λ typo, CodespellTypo.token typo ≠ "") typos →
  Forall (λ typo, occurrences (CodespellTypo.token typo) (getText doc) ≠ [] →
                  CodespellTypo.info typo ≠ "") typos →
  String.length (getText doc) < fuel →
  refreshDiagnostics fuel doc st
  = Returned (setDiagnostics doc (concat (map (diagnosticsFor doc) typos)) st)
  ∧ Forall (λ typo,
      let t := CodespellTypo.token typo in
      let text := getText doc in
      let found := occurrences t text in
      create (escapeRegExp t) "gm" = Some (RegExp (literal t) true true 0)
      ∧ (∀ acc, forTypo fuel doc text typo acc
                = Returned (acc ++ map (diagnosticAt doc typo) found))
      ∧ (∀ before j after, found = before ++ j :: after →
           String.index (scanAfter t 0 before) t text = Some j
           ∧ String.substring j (String.length t) text = t
           ∧ j + String.length t ≤ String.length text)
      ∧ String.index (scanAfter t 0 found) t text = None
      ∧ (∀ p, String.substring p (String.length t) text = t →
              p + String.length t ≤ String.length text →
              ∃ j, j ∈ found ∧ j ≤ p ∧ p < j + String.length t)) typos.
Proof.
  intros Hst Hts Hinfo Hf. split; [by apply refreshDiagnostics_nonempty|].
  apply Forall_forall. intros typo Hin. cbv zeta.
  rewrite Forall_forall in Hts, Hinfo.
  pose proof (Hts _ Hin) as Ht. pose proof (Hinfo _ Hin) as Hi.
  destruct (occurrences_scan (CodespellTypo.token typo) (getText doc) Ht)
    as [Hscan Hlast].
  split_and!.
  - apply create_escaped.
  - intros acc. rewrite forTypo_nonempty by done. unfold diagnosticsFor.
    destruct (occurrences (CodespellTypo.token typo) (getText doc)) eqn:E;
      [by rewrite andb_false_r|].
    by rewrite isEmpty_false by (by apply Hi).
  - intros before j after Heq.
    assert (Hj : j ∈ occurrences (CodespellTypo.token typo) (getText doc)).
    { rewrite Heq. apply elem_of_app. right. by left. }
    destruct (occurrences_verbatim _ _ _ Ht Hj) as (_ & ? & ?).
    split_and!; [by eapply Hscan|done..].
  - done.
  - intros p. by apply occurrences_complete.
Qed.

Lemma refreshDiagnostics_finds_verbatim_witness :
  let doc := Scenario.document "gax, g.x" ["(a"; "&& b) g.x"] in
  let typos := [Scenario.typo "g.x" "g_x"; Scenario.typo ("(a" +:+ nl +:+ "&&") "(a &&"] in
  let st := Scenario.store (Some typos) None in
  (DocumentsToTypos_getTypos st doc = Some typos
   ∧ Forall (λ typo, CodespellTypo.token typo ≠ "") typos
   ∧ Forall (λ typo, occurrences (CodespellTypo.token typo) (getText doc) ≠ [] →
                     CodespellTypo.info typo ≠ "") typos
   ∧ String.length (getText doc) < 24)
  ∧ refreshDiagnostics 24 doc st
    = Returned (setDiagnostics doc (concat (map (diagnosticsFor doc) typos)) st)
  ∧ map (λ typo, occurrences (CodespellTypo.token typo) (getText doc)) typos
    = [[5; 18]; [9]].
Proof.
  cbv zeta.
  assert (H1 : DocumentsToTypos_getTypos
                 (Scenario.store
                    (Some [Scenario.typo "g.x" "g_x";
                           Scenario.typo ("(a" +:+ nl +:+ "&&") "(a &&"]) None)
                 (Scenario.document "gax, g.x" ["(a"; "&& b) g.x"])
               = Some [Scenario.typo "g.x" "g_x";
                       Scenario.typo ("(a" +:+ nl +:+ "&&") "(a &&"])
    by reflexivity.
  assert (H2 : Forall (λ typo, CodespellTypo.token typo ≠ "")
                 [Scenario.typo "g.x" "g_x";
                  Scenario.typo ("(a" +:+ nl +:+ "&&") "(a &&"])
    by (repeat constructor; discriminate).
  assert (H3 : Forall (λ typo,
                 occurrences (CodespellTypo.token typo)
                   (getText (Scenario.document "gax, g.x" ["(a"; "&& b) g.x"])) ≠ [] →
                 CodespellTypo.info typo ≠ "")
                 [Scenario.typo "g.x" "g_x";
                  Scenario.typo ("(a" +:+ nl +:+ "&&") "(a &&"])
    by (repeat constructor; discriminate).
  assert (H4 : String.length
                 (getText (Scenario.document "gax, g.x" ["(a"; "&& b) g.x"])) < 24)
    by (apply Nat.ltb_lt; reflexivity).
  split; [by split_and!|]. split; [|reflexivity].
  exact (proj1 (refreshDiagnostics_finds_verbatim 24 _ _ _ H1 H2 H3 H4)).
Defined.

(** The dot of a token is a dot: unescaped, the same text would match
    [gax]; escaped, the search passes over it. *)
Example dot_is_literal :
  (fst <$> (flip exec "gax, g.x" <$> create "g.x" "gm"),
   fst <$> (flip exec "gax, g.x" <$> create (escapeRegExp "g.x") "gm"))
  = (Some (Some (0, 3)), Some (Some (5, 8))).
Proof. reflexivity. Qed.

(** A token with a line feed in it matches across the line boundary. *)
Example token_across_lines :
  fst <$> (flip exec ("if (a" +:+ nl +:+ "&& b)")
             <$> create (escapeRegExp ("(a" +:+ nl +:+ "&&")) "gm")
  = Some (Some (3, 8)).
Proof. reflexivity. Qed.

(** C3, as stated, fails in two ways. With the typos [teh] and [""] on
    the text [teh], the token [teh] occurs once, yet no number of loop
    iterations lets [refreshDiagnostics] return, so it publishes no
    diagnostic for it. And with a typo [teh] whose message is empty, on
    the same text, the refresh throws at the one occurrence: an error is
    raised and nothing is published. *)
Lemma refresh_publishes_nothing :
  occurrences "teh" (getText (Scenario.document "teh" [])) = [0]
  ∧ (¬ ∃ fuel st',
         refreshDiagnostics fuel (Scenario.document "teh" [])
           (Scenario.store (Some [Scenario.typo "teh" "the"; Scenario.typo "" ""]) None)
         = Returned st')
  ∧ refreshDiagnostics 8 (Scenario.document "teh" [])
      (Scenario.store (Some [Scenario.mute "teh"]) None)
    = Threw.
Proof.
  split; [reflexivity|]. split; [|reflexivity]. intros (fuel & st' & H).
  erewrite refreshDiagnostics_empty in H; [done|apply lookup_singleton_eq| |].
  - right. by left.
  - by repeat constructor.
Qed.

(** C3, amended. When every token of the document's typo list is
    non-empty and every typo whose token occurs has a non-empty message,
    a refresh returns (given as many loop iterations as the text is long,
    and one more) and publishes, typo by typo in list order, one
    diagnostic for each occurrence of the typo's token in a left-to-right
    scan that steps over each occurrence it finds. For each typo with [N]
    such occurrences there are [N] diagnostics, their ranges run from the
    position of the occurrence's start offset to the position of its end
    offset, the ranges are pairwise different, the offsets increase and
    the occurrences do not overlap, each is a place where the token
    stands verbatim, every place where the token stands is one of them or
    overlaps one that starts before it, and with no occurrence there is
    no diagnostic, and no error. *)
Theorem refreshDiagnostics_occurrences fuel doc st typos :
  DocumentsToTypos_getTypos st doc = Some typos →
  Forall (λ typo, CodespellTypo.token typo ≠ "") typos →
  Forall (λ typo, occurrences (CodespellTypo.token typo) (getText doc) ≠ [] →
                  CodespellTypo.info typo ≠ "") typos →
  String.length (getText doc) < fuel →
  refreshDiagnostics fuel doc st
  = Returned (setDiagnostics doc (concat (map (diagnosticsFor doc) typos)) st)
  ∧ Forall (λ typo,
      let t := CodespellTypo.token typo in
      let occ := occurrences t (getText doc) in
      length (diagnosticsFor doc typo) = length occ
      ∧ map CodespellDiagnostic.range (diagnosticsFor doc typo)
        = map (λ j, {| start := positionAt doc j;
                       end_ := positionAt doc (j + String.length t) |}) occ
      ∧ NoDup (map CodespellDiagnostic.range (diagnosticsFor doc typo))
      ∧ StronglySorted (λ a b, a + String.length t ≤ b ∧ a < b) occ
      ∧ Forall (λ j, String.substring j (String.length t) (getText doc) = t
                     ∧ j + String.length t ≤ String.length (getText doc)) occ
      ∧ (∀ p, String.substring p (String.length t) (getText doc) = t →
              p + String.length t ≤ String.length (getText doc) →
              ∃ j, j ∈ occ ∧ j ≤ p ∧ p < j + String.length t)
      ∧ Forall (λ d, CodespellDiagnostic.typo d = typo) (diagnosticsFor doc typo)
      ∧ (occ = [] → diagnosticsFor doc typo = [])) typos.
Proof.
  intros Hst Hts Hinfo Hf. split; [by apply refreshDiagnostics_nonempty|].
  eapply Forall_impl; [exact Hts|]. intros typo Ht. cbv zeta.
  split_and!.
  - unfold diagnosticsFor. by rewrite length_map.
  - unfold diagnosticsFor. rewrite List.map_map. reflexivity.
  - by apply ranges_distinct.
  - apply occurrences_go_sorted.
  - apply Forall_forall. intros j Hj.
    by destruct (occurrences_verbatim _ _ _ Ht Hj) as (_ & ? & ?).
  - intros p. by apply occurrences_complete.
  - unfold diagnosticsFor. rewrite Forall_map. by apply Forall_true.
  - unfold diagnosticsFor. by intros ->.
Qed.

Lemma refreshDiagnostics_occurrences_witness :
  let doc := Scenario.document "teh cat" ["teh"] in
  let typos := [Scenario.typo "teh" "the"; Scenario.mute "dog"] in
  let st := Scenario.store (Some typos) None in
  DocumentsToTypos_getTypos st doc = Some typos
  ∧ Forall (λ typo, CodespellTypo.token typo ≠ "") typos
  ∧ Forall (λ typo, occurrences (CodespellTypo.token typo) (getText doc) ≠ [] →
                    CodespellTypo.info typo ≠ "") typos
  ∧ String.length (getText doc) < 12
  ∧ refreshDiagnostics 12 doc st
    = Returned (setDiagnostics doc (concat (map (diagnosticsFor doc) typos)) st)
  ∧ map (length ∘ diagnosticsFor doc) typos = [2; 0].
Proof.
  cbv zeta.
  assert (H1 : DocumentsToTypos_getTypos
                 (Scenario.store
                    (Some [Scenario.typo "teh" "the"; Scenario.mute "dog"]) None)
                 (Scenario.document "teh cat" ["teh"])
               = Some [Scenario.typo "teh" "the"; Scenario.mute "dog"])
    by reflexivity.
  assert (H2 : Forall (λ typo, CodespellTypo.token typo ≠ "")
                 [Scenario.typo "teh" "the"; Scenario.mute "dog"])
    by (repeat constructor; discriminate).
  assert (H3 : Forall (λ typo,
                 occurrences (CodespellTypo.token typo)
                   (getText (Scenario.document "teh cat" ["teh"])) ≠ [] →
                 CodespellTypo.info typo ≠ "")
                 [Scenario.typo "teh" "the"; Scenario.mute "dog"]).
  { repeat constructor; [discriminate|]. intros H. by exfalso. }
  assert (H4 : String.length (getText (Scenario.document "teh cat" ["teh"])) < 12)
    by (apply Nat.ltb_lt; reflexivity).
  split_and!; [exact H1|exact H2|exact H3|exact H4| |reflexivity].
  exact (proj1 (refreshDiagnostics_occurrences 12 _ _ _ H1 H2 H3 H4)).
Defined.
End RangeResolverClaims.

Section RefreshClaims.
Import RegExp Vscode Diagnostics.

(** C9, as stated, fails: for a typo whose token is the empty string and
    whose message is empty too, the inner loop ends at its first
    iteration, with the exception of the diagnostic constructor, and so
    does the refresh. *)
Lemma empty_token_loop_ends :
  forTypo 1 (Scenario.document "teh" []) (getText (Scenario.document "teh" []))
    (Scenario.mute "") []
  = Threw
  ∧ refreshDiagnostics 1 (Scenario.document "teh" [])
      (Scenario.store (Some [Scenario.mute ""]) None)
    = Threw.
Proof. split; reflexivity. Qed.

(** C9, amended. [refreshDiagnostics] terminates on every document when
    every token of the document's typo list is non-empty: as many loop
    iterations as the text is long, and one more, are enough for each
    typo, and the refresh then returns or throws, the same way whatever
    the budget. For a typo whose token is the empty string and whose
    message is not empty, the inner loop never terminates, and neither
    does a refresh of a list that holds such a token and no empty
    message: each [exec] of the empty pattern, with the [g] flag, matches
    the empty string at [lastIndex] and leaves [lastIndex] where it was,
    so the loop never leaves its first position. *)
Theorem refreshDiagnostics_termination doc st :
  ((∀ typos, DocumentsToTypos_getTypos st doc = Some typos →
             Forall (λ typo, CodespellTypo.token typo ≠ "") typos) →
   ∃ o, o ≠ OutOfFuel
        ∧ ∀ fuel, String.length (getText doc) < fuel →
                  refreshDiagnostics fuel doc st = o)
  ∧ (∀ typo, CodespellTypo.token typo = "" → CodespellTypo.info typo ≠ "" →
             ∀ fuel acc, forTypo fuel doc (getText doc) typo acc = OutOfFuel)
  ∧ (∀ typos, DocumentsToTypos_getTypos st doc = Some typos →
              Exists (λ typo, CodespellTypo.token typo = "") typos →
              Forall (λ typo, CodespellTypo.info typo ≠ "") typos →
              ∀ fuel, refreshDiagnostics fuel doc st = OutOfFuel)
  ∧ (∀ i, i ≤ String.length (getText doc) →
          ∃ re, create (escapeRegExp "") "gm" = Some re
            ∧ exec (RegExp (pattern re) (global re) (multiline re) i) (getText doc)
              = (Some (i, i), RegExp (pattern re) (global re) (multiline re) i)).
Proof.
  split_and!.
  - intros Hts. destruct (DocumentsToTypos_getTypos st doc) as [typos|] eqn:Hst.
    + specialize (Hts typos eq_refl).
      destruct (decide (Exists (λ typo,
                  occurrences (CodespellTypo.token typo) (getText doc) ≠ []
                  ∧ CodespellTypo.info typo = "") typos)) as [Hex|Hno].
      * exists Threw. split; [done|]. intros fuel Hf.
        by eapply refreshDiagnostics_throws.
      * eexists. split; [|intros fuel Hf; apply refreshDiagnostics_nonempty; try done].
        { done. }
        apply Forall_Exists_neg in Hno.
        eapply Forall_impl; [exact Hno|]. intros typo Hn Hocc Hi. by apply Hn.
    + exists (Returned st). split; [done|]. intros fuel _.
      unfold refreshDiagnostics. by rewrite Hst.
  - intros typo Ht Hi fuel acc. rewrite forTypo_empty by done.
    rewrite isEmpty_false by done. by destruct fuel.
  - intros typos Hst Hts Hinfo fuel. by eapply refreshDiagnostics_empty.
  - intros i Hi. eexists. split; [apply create_escaped|].
    cbn [pattern global multiline]. rewrite exec_literal, index_empty by done.
    cbn [String.length]. by rewrite Nat.add_0_r.
Qed.

Lemma refreshDiagnostics_termination_witness :
  let doc := Scenario.document "teh cat" [] in
  (DocumentsToTypos_getTypos (Scenario.store (Some [Scenario.typo "teh" "the"]) None) doc
   = Some [Scenario.typo "teh" "the"]
   ∧ ∃ o, o ≠ OutOfFuel
       ∧ ∀ fuel, String.length (getText doc) < fuel →
           refreshDiagnostics fuel doc
             (Scenario.store (Some [Scenario.typo "teh" "the"]) None)
           = o)
  ∧ (DocumentsToTypos_getTypos (Scenario.store (Some [Scenario.typo "" ""]) None) doc
     = Some [Scenario.typo "" ""]
     ∧ ∀ fuel,
         refreshDiagnostics fuel doc (Scenario.store (Some [Scenario.typo "" ""]) None)
         = OutOfFuel).
Proof.
  cbv zeta. split; (split; [reflexivity|]).
  - apply (proj1 (refreshDiagnostics_termination (Scenario.document "teh cat" [])
                    (Scenario.store (Some [Scenario.typo "teh" "the"]) None))).
    intros typos [= <-]. repeat constructor. discriminate.
  - apply (proj1 (proj2 (proj2 (refreshDiagnostics_termination
                                  (Scenario.document "teh cat" [])
                                  (Scenario.store (Some [Scenario.typo "" ""]) None))))
             [Scenario.typo "" ""]).
    + reflexivity.
    + left. reflexivity.
    + repeat constructor. discriminate.
Defined.

(** C10. When the Typo Store has no entry for the document,
    [refreshDiagnostics] returns at once, whatever the loop budget, and
    leaves every store as it was: the Diagnostic Collection is not
    written, so what was published for the document stays. *)
Theorem refreshDiagnostics_no_entry fuel doc st :
  DocumentsToTypos_getTypos st doc = None →
  refreshDiagnostics fuel doc st = Returned st.
Proof. intros Hst. unfold refreshDiagnostics. by rewrite Hst. Qed.

Lemma refreshDiagnostics_no_entry_witness :
  let st := setDiagnostics (Scenario.document "teh" [])
              (diagnosticsFor (Scenario.document "teh" []) (Scenario.typo "teh" "the"))
              (Scenario.store None None) in
  DocumentsToTypos_getTypos st (Scenario.document "the" []) = None
  ∧ refreshDiagnostics 0 (Scenario.document "the" []) st = Returned st.
Proof.
  cbv zeta. split; [reflexivity|].
  apply (refreshDiagnostics_no_entry 0 (Scenario.document "the" [])). reflexivity.
Defined.

(** C7. A diagnostic is constructed for a typo exactly when the typo's
    [info] is not empty (on an empty message the constructor throws), and
    a diagnostic constructed for a typo has the typo's [info] as message,
    the constant ["codespell"] as code, and as severity the typo's own
    when it has one, otherwise Warning when [isCommon] is true or
    undefined and Information when it is false; and every diagnostic
    that a refresh publishes is built this way from its typo. *)
Theorem diagnostic_fields :
  (∀ range typo,
     match newCodespellDiagnostic range typo with
     | Returned d =>
         CodespellTypo.info typo ≠ ""
         ∧ CodespellDiagnostic.message d = CodespellTypo.info typo
         ∧ CodespellDiagnostic.code d = Some "codespell"
         ∧ CodespellDiagnostic.severity d
           = match CodespellTypo.severity typo, CodespellTypo.isCommon typo with
             | Some s, _ => s
             | None, Some false => Information
             | None, (Some true | None) => Warning
             end
     | Threw => CodespellTypo.info typo = ""
     | OutOfFuel => False
     end)
  ∧ (∀ fuel doc text typos ds,
       forEachTypo fuel doc text typos [] = Returned ds →
       Forall (λ d,
         CodespellDiagnostic.message d = CodespellTypo.info (CodespellDiagnostic.typo d)
         ∧ CodespellDiagnostic.code d = Some "codespell"
         ∧ CodespellDiagnostic.severity d
           = match CodespellTypo.severity (CodespellDiagnostic.typo d),
                   CodespellTypo.isCommon (CodespellDiagnostic.typo d) with
             | Some s, _ => s
             | None, Some false => Information
             | None, (Some true | None) => Warning
             end) ds).
Proof.
  split.
  - intros range [tok sug [|c inf] [s|] [[|]|]]; cbn; first [done|by split_and!].
  - intros fuel doc text typos ds Hds.
    eapply forEachTypo_invariant; [|constructor|exact Hds].
    intros range [tok sug [|c inf] [s|] [[|]|]] d; try done;
      intros [= <-]; by split_and!.
Qed.

Lemma diagnostic_fields_witness :
  let doc := Scenario.document "teh cat" [] in
  let typo := Scenario.typo "teh" "the" in
  forEachTypo 8 doc (getText doc) [typo] [] = Returned (diagnosticsFor doc typo)
  ∧ Forall (λ d,
      CodespellDiagnostic.message d = CodespellTypo.info (CodespellDiagnostic.typo d)
      ∧ CodespellDiagnostic.code d = Some "codespell"
      ∧ CodespellDiagnostic.severity d
        = match CodespellTypo.severity (CodespellDiagnostic.typo d),
                CodespellTypo.isCommon (CodespellDiagnostic.typo d) with
          | Some s, _ => s
          | None, Some false => Information
          | None, (Some true | None) => Warning
          end) (diagnosticsFor doc typo).
Proof.
  cbv zeta. split; [reflexivity|].
  apply (proj2 diagnostic_fields 8 (Scenario.document "teh cat" [])
           (getText (Scenario.document "teh cat" [])) [Scenario.typo "teh" "the"]).
  reflexivity.
Defined.
End RefreshClaims.

Section LifecycleClaims.
Import Vscode Diagnostics.

(** C4, as stated, fails: closing a document that has a Typo Store entry
    and a snapshot leaves both in place. *)
Lemma close_keeps_typos_and_snapshot :
  let st := onDidCloseTextDocument Scenario.text1
              (Scenario.store (Some [Scenario.typo "teh" "the"])
                 (Some (getText Scenario.text1))) in
  documentsToTypos st !! Scenario.file = Some [Scenario.typo "teh" "the"]
  ∧ lastSavedContent st !! Scenario.file = Some (getText Scenario.text1).
Proof. split; reflexivity. Qed.

(** C4, amended. When a document is closed, its entry of the Diagnostic
    Collection is removed, and nothing else changes: the Typo Store and
    the snapshot map are as they were, as are the diagnostics of the
    other documents. *)
Theorem close_removes_diagnostics doc st :
  let st' := onDidCloseTextDocument doc st in
  codespellDiagnostics st' !! uri doc = None
  ∧ codespellDiagnostics st' = delete (uri doc) (codespellDiagnostics st)
  ∧ documentsToTypos st' = documentsToTypos st
  ∧ lastSavedContent st' = lastSavedContent st.
Proof. cbv zeta. split_and!; [apply lookup_delete_eq|done..]. Qed.

(** How a suspended save ends, by what [spellCheck] does with the
    result of the analysis. *)
Lemma onDidSave_begin_suspended doc st st' k :
  onDidSave_begin doc st = (st', Some k) →
  st' = st ∧ documentUri k = uri doc ∧ currentContent k = getText doc
  ∧ differences k
    = Utils.findDifferences (default "" (lastSavedContent st !! uri doc)) (getText doc).
Proof.
  unfold onDidSave_begin.
  destruct (negb (isEmptyArray _)); [|done]. intros [= <- <-]. cbn.
  split_and!; [done..|]. f_equal.
  destruct (lastSavedContent st !! uri doc) as [[|c t]|]; done.
Qed.

Lemma analysisDone_dropped fuel k doc ticket analysed st sp :
  spellCheck_settle doc ticket analysed st sp = (st, sp, Fulfilled) →
  analysisDone fuel k doc ticket analysed st sp
  = obind (refreshDiagnostics fuel doc st)
      (λ st1, Returned (setLastSavedContent (documentUri k) (currentContent k) st1, sp)).
Proof.
  intros H. unfold analysisDone. rewrite H. cbn [onDidSave_resume].
  by destruct (refreshDiagnostics fuel doc st).
Qed.

Lemma analysisDone_returned fuel k doc ticket analysed st sp st' sp' :
  spellCheck_settle doc ticket analysed st sp = (st, sp, Fulfilled) →
  analysisDone fuel k doc ticket analysed st sp = Returned (st', sp') →
  documentsToTypos st' = documentsToTypos st
  ∧ lastSavedContent st' = <[documentUri k := currentContent k]> (lastSavedContent st)
  ∧ sp' = sp.
Proof.
  intros H. rewrite analysisDone_dropped by done.
  destruct (refreshDiagnostics fuel doc st) as [st1| |] eqn:Hr; [|done..].
  apply refreshDiagnostics_frame in Hr as [Ht Hs]. intros [= <- <-]. cbn.
  by rewrite Ht, Hs.
Qed.

Lemma analysisDone_applied fuel k doc ticket typos st sp st' sp' :
  stale doc ticket sp = false →
  analysisDone fuel k doc ticket (Returned typos) st sp = Returned (st', sp') →
  documentsToTypos st' = <[uri doc := typos]> (documentsToTypos st)
  ∧ lastSavedContent st' = <[documentUri k := currentContent k]> (lastSavedContent st)
  ∧ sp' = {| issued := issued sp; applied := <[uri doc := ticket]> (applied sp) |}.
Proof.
  intros H. unfold analysisDone, spellCheck_settle. rewrite H.
  cbn [onDidSave_resume].
  destruct (refreshDiagnostics _ _ _) as [st1| |] eqn:Hr; [|done..].
  apply refreshDiagnostics_frame in Hr as [Ht Hs]. intros [= <- <-]. cbn.
  by rewrite Ht, Hs.
Qed.




(** C6, as stated, fails in its second half. The document is saved with
    a line appended (save 1) and again with one more (save 2) while the
    analysis of save 1 is pending. The listener of save 1 is suspended
    with the snapshot unwritten, so save 2 is diffed against the snapshot
    from before save 1, not against the text of save 1; and when the
    listener of save 2 resumes first and the listener of save 1 after it,
    the snapshot ends as the text of save 1, whatever [spellCheck] did
    with the two results. *)
Lemma snapshot_not_written_after_diff :
  onDidSave_begin Scenario.text1 Scenario.opened
  = (Scenario.opened, Some Scenario.suspended1)
  ∧ onDidSave_begin Scenario.text2 Scenario.opened
    = (Scenario.opened, Some Scenario.suspended2)
  ∧ differences Scenario.suspended2 = [nl +:+ "teh" +:+ nl +:+ "foo"]
  ∧ Utils.findDifferences (getText Scenario.text1) (getText Scenario.text2)
    = [nl +:+ "foo"]
  ∧ lastSavedContent
      (Scenario.returned
         (onDidSave_resume 16 Scenario.suspended2 Scenario.text2 Fulfilled
            Scenario.opened))
    !! Scenario.file
    = Some (getText Scenario.text2)
  ∧ lastSavedContent
      (Scenario.returned
         (onDidSave_resume 16 Scenario.suspended1 Scenario.text2 Fulfilled
            (Scenario.returned
               (onDidSave_resume 16 Scenario.suspended2 Scenario.text2 Fulfilled
                  Scenario.opened))))
    !! Scenario.file
    = Some (getText Scenario.text1).
Proof. split_and!; reflexivity. Qed.

(** C6, amended. Let a document be saved twice, the second save handled
    while the analysis of the first is pending, the two analyses taking
    successive sequence numbers, and let the analysis of the second
    complete first. When the second result arrives it is applied: the
    Typo Store holds the typos of the second save. When the first result
    arrives after it, it is stale and is dropped: the Typo Store still
    holds the typos of the second save. The snapshot is not written after
    the diff but at the end of the listener, after the awaited analysis:
    a suspended save has written nothing, so the second save is diffed
    against the snapshot from before the first save; the snapshot is the
    text of the second save when its listener has resumed, and the text
    of the first save when the listener of the first save has resumed
    after it. *)
Theorem saves_out_of_order fuel doc1 doc2 docA docB typos1 typos2
    st sa sb k1 k2 sp ticket1 sp1 ticket2 sp2 sc spc sd spd :
  uri doc2 = uri doc1 → uri docA = uri doc1 → uri docB = uri doc1 →
  (∀ n, applied sp !! uri doc1 = Some n → n < issued sp) →
  onDidSave_begin doc1 st = (sa, Some k1) →
  spellCheck_begin sp = (ticket1, sp1) →
  onDidSave_begin doc2 sa = (sb, Some k2) →
  spellCheck_begin sp1 = (ticket2, sp2) →
  analysisDone fuel k2 docA ticket2 (Returned typos2) sb sp2 = Returned (sc, spc) →
  analysisDone fuel k1 docB ticket1 (Returned typos1) sc spc = Returned (sd, spd) →
  sa = st ∧ sb = st
  ∧ differences k2
    = Utils.findDifferences (default "" (lastSavedContent st !! uri doc1)) (getText doc2)
  ∧ DocumentsToTypos_getTypos sc doc1 = Some typos2
  ∧ lastSavedContent sc !! uri doc1 = Some (getText doc2)
  ∧ DocumentsToTypos_getTypos sd doc1 = Some typos2
  ∧ lastSavedContent sd !! uri doc1 = Some (getText doc1).
Proof.
  intros Hu2 HuA HuB Hwf Hb1 Ht1 Hb2 Ht2 Hd2 Hd1.
  destruct (onDidSave_begin_suspended _ _ _ _ Hb1) as (-> & Hk1u & Hk1c & _).
  destruct (onDidSave_begin_suspended _ _ _ _ Hb2) as (-> & Hk2u & Hk2c & Hk2d).
  unfold spellCheck_begin in Ht1, Ht2.
  injection Ht1 as <- <-. injection Ht2 as <- <-. cbn [issued applied] in *.
  apply analysisDone_applied in Hd2 as (Htypos2 & Hsnap2 & ->).
  2:{ unfold stale. cbn [applied]. rewrite HuA.
      destruct (applied sp !! uri doc1) as [n|]; [|done].
      specialize (Hwf n eq_refl). apply Nat.ltb_ge. lia. }
  apply analysisDone_returned in Hd1 as (Htypos1 & Hsnap1 & ->).
  2:{ unfold spellCheck_settle, stale. cbn [applied].
      rewrite HuA, HuB, lookup_insert_eq.
      by replace (issued sp <? S (issued sp)) with true
        by (symmetry; apply Nat.ltb_lt; lia). }
  rewrite Hu2 in Hk2d, Hk2u. unfold DocumentsToTypos_getTypos.
  rewrite Htypos1, Hsnap1, Htypos2, Hsnap2, HuA, Hk1u, Hk1c, Hk2u, Hk2c.
  split_and!; [done|done|done|by rewrite lookup_insert_eq..].
Qed.

Lemma saves_out_of_order_witness :
  (onDidSave_begin Scenario.text1 Scenario.opened
   = (Scenario.opened, Some Scenario.suspended1)
   ∧ onDidSave_begin Scenario.text2 Scenario.opened
     = (Scenario.opened, Some Scenario.suspended2)
   ∧ spellCheck_begin Scenario.noneInFlight = (0, {| issued := 1; applied := ∅ |})
   ∧ spellCheck_begin {| issued := 1; applied := ∅ |} = (1, Scenario.twoInFlight)
   ∧ analysisDone 16 Scenario.suspended2 Scenario.text2 1 (Returned Scenario.typos2)
       Scenario.opened Scenario.twoInFlight
     = Returned (Scenario.after2.1, Scenario.after2.2)
   ∧ analysisDone 16 Scenario.suspended1 Scenario.text2 0 (Returned Scenario.typos1)
       Scenario.after2.1 Scenario.after2.2
     = Returned (Scenario.after1.1, Scenario.after1.2))
  ∧ Scenario.opened = Scenario.opened ∧ Scenario.opened = Scenario.opened
  ∧ differences Scenario.suspended2
    = Utils.findDifferences
        (default "" (lastSavedContent Scenario.opened !! uri Scenario.text1))
        (getText Scenario.text2)
  ∧ DocumentsToTypos_getTypos Scenario.after2.1 Scenario.text1 = Some Scenario.typos2
  ∧ lastSavedContent Scenario.after2.1 !! uri Scenario.text1
    = Some (getText Scenario.text2)
  ∧ DocumentsToTypos_getTypos Scenario.after1.1 Scenario.text1 = Some Scenario.typos2
  ∧ lastSavedContent Scenario.after1.1 !! uri Scenario.text1
    = Some (getText Scenario.text1).
Proof.
  split; [split_and!; reflexivity|].
  apply (saves_out_of_order 16 Scenario.text1 Scenario.text2 Scenario.text2
           Scenario.text2 Scenario.typos1 Scenario.typos2 Scenario.opened
           Scenario.opened Scenario.opened Scenario.suspended1 Scenario.suspended2
           Scenario.noneInFlight 0 {| issued := 1; applied := ∅ |} 1
           Scenario.twoInFlight
           Scenario.after2.1 Scenario.after2.2 Scenario.after1.1 Scenario.after1.2);
    try reflexivity.
  intros n Hn. vm_compute in Hn. discriminate.
Defined.
End LifecycleClaims.

(** * Further properties *)

(** ** The Change Detector, beyond appended lines *)
Section ChangeDetectorExtras.
Import Diff Utils.

(** X1. Whatever the patch text, no block that [extractAddedLines] returns
    is empty, and none holds the header token [++ code]: the text is cut
    at every occurrence of the token and the token is dropped. *)
Theorem extractAddedLines_blocks (diff : string) :
  Forall (λ block, block ≠ "" ∧ includes "++ code" block = false)
    (extractAddedLines diff).
Proof.
  unfold extractAddedLines. apply Forall_forall. intros block Hin.
  apply list_elem_of_In, List.filter_In in Hin as [Hin Hne].
  split; [by destruct block|].
  pose proof (split_pieces "++ code"
                (join nl
                   (map (slice 1)
                      (List.filter (λ line, startsWith "+" line) (split nl diff))))
                ltac:(done)) as Hpieces.
  rewrite Forall_forall in Hpieces. apply Hpieces. by apply list_elem_of_In.
Qed.

(** X2. A save that only removes text after the last kept line reports no
    difference: when [before] is [after] followed by more text, with
    [after] made of lines ended by a line feed, [findDifferences] returns
    the empty sequence. *)
Theorem findDifferences_truncated (kept : list string) (removed : string) :
  Forall lf_free kept →
  findDifferences (unlines kept +:+ removed) (unlines kept) = [].
Proof.
  intros Hkept. unfold findDifferences, createPatch.
  destruct (extract_added (λ _, False)
              (structuredPatch (unlines kept +:+ removed) (unlines kept)))
    as (added & Hadded & ->); [done| |].
  - apply (structuredPatch_lines (λ _, False)).
    rewrite tokenize_unlines_app, tokenize_unlines, script_truncate by done.
    apply Forall_app. rewrite !Forall_map. split.
    + eapply Forall_impl; [exact Hkept|]. intros l Hl. cbn.
      by rewrite chomp_line.
    + eapply Forall_impl; [apply (tokenize_lines removed)|].
      intros t [Ht _]. by split.
  - destruct added as [|a added]; [done|]. by inversion Hadded.
Qed.

Lemma findDifferences_truncated_witness :
  Forall lf_free ["foo"] ∧
  findDifferences (unlines ["foo"] +:+ "bar" +:+ nl +:+ "baz") (unlines ["foo"]) = [].
Proof.
  assert (H : Forall lf_free ["foo"]) by repeat constructor.
  split; [exact H|].
  exact (findDifferences_truncated ["foo"] ("bar" +:+ nl +:+ "baz") H).
Defined.

(** X3. However many places of the text changed, [findDifferences]
    returns at most one block when the new text does not hold the header
    token [++ code]: either nothing, or one block made of a line feed
    followed by lines of the new text joined by line feeds. *)
Theorem findDifferences_one_block (code1 code2 : string) :
  includes "++ code" code2 = false →
  ∃ added, Forall (λ l, l ∈ split nl code2) added
    ∧ findDifferences code1 code2
      = if isEmptyArray added then [] else [nl +:+ join nl added].
Proof.
  intros Hinc. unfold findDifferences, createPatch.
  destruct (extract_added
              (λ l, l ∈ split nl code2 ∧ includes "++ code" l = false)
              (structuredPatch code1 code2))
    as (added & Hadded & ->); [by intros l [_ ?]| |].
  - apply (structuredPatch_lines
             (λ l, l ∈ split nl code2 ∧ includes "++ code" l = false)).
    apply (script_edits (λ l, l ∈ split nl code2 ∧ includes "++ code" l = false)).
    + eapply Forall_impl; [apply (tokenize_lines code1)|]. by intros t [? _].
    + pose proof (tokenize_lines code2) as H1.
      pose proof (tokenize_go_split code2 "" I) as H2.
      rewrite Forall_forall in H1, H2. apply Forall_forall. intros t Ht.
      destruct (H1 t Ht) as [Hfree Hpart]. split_and!; [done|by apply H2|by apply Hpart].
  - exists added. split; [|done].
    eapply Forall_impl; [exact Hadded|]. by intros l [? _].
Qed.

Lemma findDifferences_one_block_witness :
  includes "++ code" ("a" +:+ nl +:+ "x" +:+ nl +:+ "b" +:+ nl +:+ "y" +:+ nl) = false ∧
  ∃ added,
    Forall (λ l, l ∈ split nl ("a" +:+ nl +:+ "x" +:+ nl +:+ "b" +:+ nl +:+ "y" +:+ nl))
      added
    ∧ findDifferences ("a" +:+ nl +:+ "b" +:+ nl)
        ("a" +:+ nl +:+ "x" +:+ nl +:+ "b" +:+ nl +:+ "y" +:+ nl)
      = if isEmptyArray added then [] else [nl +:+ join nl added].
Proof.
  assert (H : includes "++ code"
                ("a" +:+ nl +:+ "x" +:+ nl +:+ "b" +:+ nl +:+ "y" +:+ nl) = false)
    by reflexivity.
  split; [exact H|].
  exact (findDifferences_one_block ("a" +:+ nl +:+ "b" +:+ nl)
           ("a" +:+ nl +:+ "x" +:+ nl +:+ "b" +:+ nl +:+ "y" +:+ nl) H).
Defined.
End ChangeDetectorExtras.

(** ** The code block of a reply *)
Section CodeBlockFacts.
Import RegExp Chat.
Implicit Types (s t text : string) (c : ascii) (i j e a b f n : nat).

Lemma get_lt i s : i < String.length s → ∃ c, String.get i s = Some c.
Proof.
  revert i. induction s as [|c s IH]; intros i Hi; [simpl in Hi; lia|].
  destruct i as [|i]; [by exists c|]. apply IH. simpl in Hi. lia.
Qed.

Lemma class_any c : class_matches false [CSpace false; CSpace true] c = true.
Proof. unfold class_matches. cbn. by destruct (isSpace c). Qed.

(** [[\s\S]*?] hands the continuation the indices from [i] on, in
    order: the first one it accepts is the result. *)
Lemma m_anyLazy_found {R} ml text i e (k : nat → option R) x :
  i ≤ e → e ≤ String.length text →
  (∀ j, i ≤ j → j < e → k j = None) → k e = Some x →
  m ml text anyLazy i k = Some x.
Proof.
  intros Hie He Hnone Hx. unfold anyLazy. cbn [m].
  assert (Hfuel : e - i < 0 + String.length text + 2) by lia.
  revert Hfuel. generalize (0 + String.length text + 2). intros fuel.
  revert i Hie Hnone. induction fuel as [|fuel IH]; intros i Hie Hnone Hfuel; [lia|].
  cbn -[Nat.eqb class_matches].
  destruct (decide (i = e)) as [->|Hne]; [by rewrite Hx|].
  rewrite Hnone by lia. unfold charAt.
  destruct (get_lt i text ltac:(lia)) as [c ->]. rewrite class_any.
  replace (S i =? i) with false by (symmetry; apply Nat.eqb_neq; lia).
  apply IH; [lia| |lia]. intros j ??. apply Hnone; lia.
Qed.

Lemma m_anyLazy_sound {R} ml text i (k : nat → option R) x :
  m ml text anyLazy i k = Some x → ∃ e, i ≤ e ∧ k e = Some x.
Proof.
  unfold anyLazy. cbn [m]. generalize (0 + String.length text + 2). intros fuel.
  revert i. induction fuel as [|fuel IH]; intros i; [done|].
  cbn -[Nat.eqb class_matches].
  destruct (k i) as [y|] eqn:Ek; [intros [= ->]; by exists i|].
  unfold charAt. destruct (String.get i text) as [c|]; [|done].
  rewrite class_any.
  replace (S i =? i) with false by (symmetry; apply Nat.eqb_neq; lia).
  intros H. apply IH in H as (e & He & Hk). exists e. split; [lia|done].
Qed.

(** Where a text first occurs at or after an index. *)
Lemma index_first t s n j :
  String.index n t s = Some j →
  n ≤ j ∧ String.prefix t (slice j s) = true
  ∧ ∀ p, n ≤ p → p < j → String.prefix t (slice p s) = false.
Proof.
  revert n j. induction s as [|c s IH]; intros n j.
  - destruct n; [|done]. cbn [String.index]. destruct t; [|done].
    intros [= <-]. split_and!; [done..|]. intros; lia.
  - destruct n as [|n].
    + rewrite index_0_cons. destruct (String.prefix t (String c s)) eqn:E.
      * intros [= <-]. split_and!; [done..|]. intros; lia.
      * destruct (String.index 0 t s) as [j'|] eqn:Ei; [|done].
        intros [= <-]. destruct (IH 0 j' Ei) as (_ & Hp & Hnone).
        split_and!; [lia|done|]. intros [|p] ??; [done|].
        cbn [slice]. apply Hnone; lia.
    + rewrite index_S_cons.
      destruct (String.index n t s) as [j'|] eqn:Ei; [|done].
      intros [= <-]. destruct (IH n j' Ei) as (Hle & Hp & Hnone).
      split_and!; [lia|done|]. intros [|p] ??; [lia|].
      cbn [slice]. apply Hnone; lia.
Qed.

Lemma index_none t s n p :
  String.index n t s = None → t ≠ "" → n ≤ p → String.prefix t (slice p s) = false.
Proof.
  intros H Ht. revert n p H. induction s as [|c s IH]; intros n p H Hp.
  - destruct p; by destruct t.
  - destruct n as [|n].
    + rewrite index_0_cons in H.
      destruct (String.prefix t (String c s)) eqn:E; [done|].
      destruct p as [|p]; [done|]. cbn [slice].
      apply (IH 0); [|lia]. by destruct (String.index 0 t s).
    + rewrite index_S_cons in H. destruct p as [|p]; [lia|]. cbn [slice].
      apply (IH n); [|lia]. by destruct (String.index n t s).
Qed.

Lemma prefix_slice_length t s i :
  t ≠ "" → String.prefix t (slice i s) = true → i + String.length t ≤ String.length s.
Proof.
  intros Ht H. apply prefix_length in H. rewrite length_slice in H.
  destruct t; [done|]. simpl in *. lia.
Qed.

(** The chain of the three parts of the pattern, on literal texts. *)
Lemma group1At_chain {R} text i (k : nat → nat → option R) :
  m false text (pattern beforeGroup) i (λ j,
    m false text (pattern insideGroup) j (λ e,
      m false text (pattern afterGroup) e (λ _, k j e)))
  = m false text (literal "```") i (λ i1,
      m false text anyLazy i1 (λ a,
        m false text (literal nl) a (λ j,
          m false text anyLazy j (λ e,
            m false text (literal (String LF "```")) e (λ _, k j e))))).
Proof. reflexivity. Qed.

Lemma group1At_found text i a e :
  String.prefix "```" (slice i text) = true →
  i + 3 ≤ a →
  (∀ j, i + 3 ≤ j → j < a → String.prefix nl (slice j text) = false) →
  String.prefix nl (slice a text) = true →
  a + 1 ≤ e →
  (∀ j, a + 1 ≤ j → j < e → String.prefix (String LF "```") (slice j text) = false) →
  String.prefix (String LF "```") (slice e text) = true →
  group1At text i = Some (a + 1, e).
Proof.
  intros Hfence Ha Hnolf Hlf He Hnoclose Hclose.
  assert (Hlen : e + 4 ≤ String.length text)
    by (by apply (prefix_slice_length (String LF "```"))).
  unfold group1At. rewrite (group1At_chain text i (λ j e, Some (j, e))).
  rewrite m_literal, Hfence.
  apply (m_anyLazy_found _ _ _ a); [simpl; lia|lia| |].
  - intros j ??. rewrite m_literal, Hnolf; [done|simpl in *; lia..].
  - rewrite m_literal, Hlf.
    apply (m_anyLazy_found _ _ _ e); [simpl; lia|lia| |].
    + intros j ??. rewrite m_literal, Hnoclose; [done|simpl in *; lia..].
    + by rewrite m_literal, Hclose.
Qed.

Lemma group1At_sound text i b e :
  group1At text i = Some (b, e) →
  String.prefix "```" (slice i text) = true
  ∧ ∃ a, i + 3 ≤ a ∧ String.prefix nl (slice a text) = true
         ∧ b = a + 1 ∧ b ≤ e
         ∧ String.prefix (String LF "```") (slice e text) = true.
Proof.
  unfold group1At. rewrite (group1At_chain text i (λ j e, Some (j, e))).
  rewrite m_literal. destruct (String.prefix "```" (slice i text)); [|done].
  intros H. split; [done|].
  apply m_anyLazy_sound in H as (a & Ha & H). rewrite m_literal in H.
  destruct (String.prefix nl (slice a text)) eqn:Elf; [|done].
  apply m_anyLazy_sound in H as (e' & He' & H). rewrite m_literal in H.
  destruct (String.prefix (String LF "```") (slice e' text)) eqn:Ecl; [|done].
  injection H as <- <-. exists a. simpl in *. split_and!; done || lia.
Qed.

Lemma group1From_found text n i f span :
  i ≤ f → f - i ≤ n →
  (∀ p, i ≤ p → p < f → group1At text p = None) →
  group1At text f = Some span →
  group1From text n i = Some span.
Proof.
  revert i. induction n as [|n IH]; intros i Hif Hn Hnone Hf.
  - replace i with f by lia. cbn [group1From]. by rewrite Hf.
  - cbn [group1From]. destruct (decide (i = f)) as [->|Hne]; [by rewrite Hf|].
    rewrite Hnone by lia. apply IH; [lia..| |done]. intros p ??. apply Hnone; lia.
Qed.

Lemma group1From_none text n i :
  (∀ p, i ≤ p → group1At text p = None) → group1From text n i = None.
Proof.
  revert i. induction n as [|n IH]; intros i Hnone; cbn [group1From];
    rewrite Hnone by lia; [done|]. apply IH. intros p ?. apply Hnone; lia.
Qed.

(** The code block in terms of three searches: the first fence, the
    first line feed after it, and the first closing fence at the start of
    a later line. *)
Lemma group1From_index text :
  group1From text (String.length text) 0
  = f ← String.index 0 "```" text;
    a ← String.index (f + 3) nl text;
    e ← String.index (a + 1) (String LF "```") text;
    Some (a + 1, e).
Proof.
  assert (Hnone : (∀ p b e, group1At text p = Some (b, e) → False) →
            group1From text (String.length text) 0 = None).
  { intros H. apply group1From_none. intros p _.
    destruct (group1At text p) as [[b e]|] eqn:E; [|done]. by destruct (H p b e E). }
  destruct (String.index 0 "```" text) as [f|] eqn:Ef; cbn [mbind option_bind].
  2:{ apply Hnone. intros p b e [Hp _]%group1At_sound.
      by rewrite (index_none _ _ _ p Ef) in Hp by (done || lia). }
  apply index_first in Ef as (_ & Hfence & Hfirst).
  assert (Hstart : ∀ p, String.prefix "```" (slice p text) = true → f ≤ p).
  { intros p Hp. destruct (decide (f ≤ p)); [done|].
    rewrite Hfirst in Hp by lia. done. }
  destruct (String.index (f + 3) nl text) as [a|] eqn:Ea; cbn [mbind option_bind].
  2:{ apply Hnone.
      intros p b e (Hp & a & Ha & Hlf & _)%group1At_sound. apply Hstart in Hp.
      by rewrite (index_none _ _ _ a Ea) in Hlf by (done || lia). }
  apply index_first in Ea as (Hfa & Hlf & Hnolf).
  destruct (String.index (a + 1) (String LF "```") text) as [e|] eqn:Ee;
    cbn [mbind option_bind].
  2:{ apply Hnone.
      intros p b e (Hp & a' & Ha' & Hlf' & -> & Hbe & Hcl)%group1At_sound.
      apply Hstart in Hp.
      assert (a ≤ a').
      { destruct (decide (a ≤ a')); [done|]. rewrite Hnolf in Hlf' by lia. done. }
      by rewrite (index_none _ _ _ e Ee) in Hcl by (done || lia). }
  apply index_first in Ee as (Hae & Hclose & Hnoclose).
  apply (group1From_found _ _ _ f).
  - lia.
  - apply (prefix_slice_length "```") in Hfence; [|done]. simpl in Hfence. lia.
  - intros p _ Hp. destruct (group1At text p) as [[b e']|] eqn:E; [|done].
    apply group1At_sound in E as [E _]. apply Hstart in E. lia.
  - by apply group1At_found.
Qed.
End CodeBlockFacts.

(** ** A reply that holds a fenced block *)
Section FencedReply.
Import RegExp Chat.
Implicit Types (s t text pre tag body post rest : string) (c : ascii) (i j e a b f n : nat).

Lemma slice_app_add s t i : slice (String.length s + i) (s +:+ t) = slice i t.
Proof. by rewrite <- slice_slice, slice_app_length. Qed.

Lemma prefix_app_short p s t :
  String.length p ≤ String.length s → String.prefix p (s +:+ t) = String.prefix p s.
Proof.
  revert s. induction p as [|c p IH]; intros s Hs; [by rewrite !prefix_nil|].
  destruct s as [|c' s]; [simpl in Hs; lia|].
  rewrite sapp_cons, !prefix_cons, IH; [done|]. simpl in Hs. lia.
Qed.

Lemma lf_free_no_line_feed s t i :
  lf_free s → i < String.length s → String.prefix nl (slice i (s +:+ t)) = false.
Proof.
  revert i. induction s as [|c s IH]; intros i Hs Hi; [simpl in Hi; lia|].
  simpl in Hs. apply andb_prop_elim in Hs as [Hc Hs].
  apply negb_prop_elim in Hc. rewrite bool_decide_spec in Hc.
  destruct i as [|i].
  - rewrite sapp_cons. cbn [slice]. unfold nl. rewrite prefix_cons.
    rewrite bool_decide_eq_false_2; [done|congruence].
  - rewrite sapp_cons. cbn [slice]. apply IH; [done|]. simpl in Hi. lia.
Qed.

(** A closing fence does not begin inside a body that holds none, even
    when a line feed follows the body. *)
Lemma closing_not_inside body rest j :
  includes (String LF "```") body = false → j < String.length body →
  String.prefix (String LF "```") (slice j (body +:+ String LF rest)) = false.
Proof.
  revert j. induction body as [|c body IH]; intros j Hinc Hj; [simpl in Hj; lia|].
  cbn [includes] in Hinc. apply orb_false_elim in Hinc as [H0 Hinc].
  destruct j as [|j]; [|rewrite sapp_cons; cbn [slice]; apply IH; [done|simpl in Hj; lia]].
  cbn [slice]. clear IH Hinc Hj.
  assert (Htick : bool_decide ("`"%char = LF) = false) by done.
  destruct body as [|b1 [|b2 [|b3 body]]];
    rewrite ?sapp_cons; change ("" +:+ String LF rest) with (String LF rest);
    rewrite ?prefix_cons, ?prefix_nil in *; rewrite ?Htick, ?andb_false_r; done.
Qed.

Lemma includes_none p s : p ≠ "" → includes p s = false → String.index 0 p s = None.
Proof.
  intros Hp Hinc. destruct (String.index 0 p s) as [j|] eqn:E; [|done].
  apply index_first in E as (_ & E & _).
  by rewrite (proj1 (includes_false p s) Hinc j) in E.
Qed.

(** The span of the group in a reply made of a preamble without fence, a
    fence and its tag, a body without closing fence, and a closing fence
    at the start of a line. *)
Lemma group1From_fenced pre tag body post :
  includes "```" pre = false → lf_free tag →
  includes (String LF "```") body = false →
  let text := pre +:+ "```" +:+ tag +:+ nl +:+ body +:+ String LF "```" +:+ post in
  let b := String.length pre + (3 + (String.length tag + 1)) in
  group1From text (String.length text) 0 = Some (b, b + String.length body)
  ∧ String.substring b (String.length body) text = body.
Proof.
  intros Hpre Htag Hbody text b.
  assert (Hat : ∀ i, slice (String.length pre + i) text
                     = slice i ("```" +:+ tag +:+ nl +:+ body +:+ String LF "```" +:+ post))
    by (intros i; apply slice_app_add).
  assert (Hafter : ∀ i, slice (String.length pre + (3 + (String.length tag + i))) text
                        = slice i (nl +:+ body +:+ String LF "```" +:+ post)).
  { intros i. rewrite Hat. rewrite <- (sapp_assoc "```" tag).
    replace (3 + (String.length tag + i)) with (String.length ("```" +:+ tag) + i)
      by (rewrite slength_app; simpl; lia).
    apply slice_app_add. }
  assert (Hin : ∀ i, slice (b + i) text = slice i (body +:+ String LF "```" +:+ post)).
  { intros i. unfold b.
    replace (String.length pre + (3 + (String.length tag + 1)) + i)
      with (String.length pre + (3 + (String.length tag + S i))) by lia.
    by rewrite Hafter. }
  split.
  2:{ rewrite substring_slice. rewrite <- (Nat.add_0_r b), Hin. cbn [slice].
      by apply prefix_substring, prefix_app. }
  destruct (String.index 0 "```" text) as [f|] eqn:Ef.
  2:{ pose proof (index_none _ _ _ (String.length pre) Ef ltac:(done) ltac:(lia)) as H.
      rewrite <- (Nat.add_0_r (String.length pre)), Hat in H. cbn [slice] in H.
      by rewrite (prefix_app "```") in H. }
  apply index_first in Ef as (_ & Hfence & Hfirst).
  assert (Hf : f ≤ String.length pre).
  { destruct (decide (f ≤ String.length pre)); [done|].
    specialize (Hfirst (String.length pre) ltac:(lia) ltac:(lia)).
    rewrite <- (Nat.add_0_r (String.length pre)), Hat in Hfirst.
    cbn [slice] in Hfirst. by rewrite (prefix_app "```") in Hfirst. }
  assert (Hf' : String.length pre < f + 3).
  { destruct (decide (String.length pre < f + 3)); [done|].
    unfold text in Hfence. rewrite slice_app_le, prefix_app_short in Hfence;
      [|rewrite length_slice; simpl; lia|lia].
    by rewrite (proj1 (includes_false _ _) Hpre f) in Hfence. }
  apply (group1From_found _ _ _ f).
  - lia.
  - unfold text. rewrite slength_app. lia.
  - intros p _ Hp. destruct (group1At text p) as [[b' e']|] eqn:E; [|done].
    apply group1At_sound in E as [E _]. by rewrite Hfirst in E by lia.
  - replace b with (String.length pre + (3 + String.length tag) + 1) by (unfold b; lia).
    apply group1At_found.
    + done.
    + lia.
    + intros j Hj1 Hj2.
      replace j with (String.length pre + (j - String.length pre)) by lia.
      rewrite Hat, <- (sapp_assoc "```" tag).
      apply lf_free_no_line_feed.
      * rewrite lf_free_app. by apply andb_prop_intro.
      * rewrite slength_app. simpl. lia.
    + replace (String.length pre + (3 + String.length tag))
        with (String.length pre + (3 + (String.length tag + 0))) by lia.
      rewrite Hafter. cbn [slice]. apply (prefix_app nl).
    + lia.
    + intros j Hj1 Hj2.
      replace j with (b + (j - b)) by (unfold b; lia).
      rewrite Hin. apply closing_not_inside; [done|]. unfold b. lia.
    + replace (String.length pre + (3 + String.length tag) + 1 + String.length body)
        with (b + String.length body) by (unfold b; lia).
      rewrite Hin, slice_app_length. apply (prefix_app (String LF "```")).
Qed.
End FencedReply.

(** ** The Typo Source Adapter *)
Section AdapterExtras.
Import RegExp Chat.

(** X4. [getCodeBlock] is three searches: the first fence of three
    backquotes, the first line feed after that fence, and the first
    closing fence that starts a line after that line feed. When one of
    the three is not found the result is [null]; otherwise it is the text
    between that line feed and the closing fence, trimmed. *)
Theorem getCodeBlock_searches (text : string) :
  getCodeBlock text
  = f ← String.index 0 "```" text;
    a ← String.index (f + 3) nl text;
    e ← String.index (a + 1) (String LF "```") text;
    Some (trim (String.substring (a + 1) (e - (a + 1)) text)).
Proof.
  unfold getCodeBlock. rewrite group1From_index.
  destruct (String.index 0 "```" text) as [f|]; cbn [mbind option_bind]; [|done].
  destruct (String.index (f + 3) nl text) as [a|]; cbn [mbind option_bind]; [|done].
  by destruct (String.index (a + 1) (String LF "```") text).
Qed.

(** X5. A reply made of a preamble without fence, a fence with a tag on
    its line, a body, and a closing fence at the start of the next line
    gives back the body, trimmed, whatever follows the closing fence. *)
Theorem getCodeBlock_fenced (pre tag body post : string) :
  includes "```" pre = false → lf_free tag →
  includes (String LF "```") body = false →
  getCodeBlock (pre +:+ "```" +:+ tag +:+ nl +:+ body +:+ String LF "```" +:+ post)
  = Some (trim body).
Proof.
  intros Hpre Htag Hbody. unfold getCodeBlock.
  destruct (group1From_fenced pre tag body post Hpre Htag Hbody) as [-> Hsub].
  match goal with
  | |- context [?x + ?y - ?x] => replace (x + y - x) with y by lia
  end.
  by rewrite Hsub.
Qed.

Lemma getCodeBlock_fenced_witness :
  includes "```" "Here you are: " = false ∧ lf_free "json"
  ∧ includes (String LF "```") " [] " = false
  ∧ getCodeBlock ("Here you are: " +:+ "```" +:+ "json" +:+ nl +:+ " [] "
                  +:+ String LF "```" +:+ " Bye.")
    = Some (trim " [] ").
Proof.
  assert (H1 : includes "```" "Here you are: " = false) by reflexivity.
  assert (H2 : lf_free "json") by exact I.
  assert (H3 : includes (String LF "```") " [] " = false) by reflexivity.
  split_and!; [exact H1|exact H2|exact H3|].
  exact (getCodeBlock_fenced "Here you are: " "json" " [] " " Bye." H1 H2 H3).
Defined.

(** X6. On such a reply [getTypos] hands [JSON.parse] the trimmed body
    and nothing else: it resolves to what the parser returns, rejects
    when the parser throws, and resolves to the empty list without
    calling the parser when the body is white space only. *)
Theorem getTypos_fenced (JSON_parse : string → option (list CodespellTypo.t))
    (pre tag body post : string) :
  includes "```" pre = false → lf_free tag →
  includes (String LF "```") body = false →
  getTypos JSON_parse
    (Some (pre +:+ "```" +:+ tag +:+ nl +:+ body +:+ String LF "```" +:+ post))
  = if isEmpty (trim body) then Returned []
    else match JSON_parse (trim body) with
         | Some typos => Returned typos
         | None => Threw
         end.
Proof.
  intros Hpre Htag Hbody. unfold getTypos, getCodeBlock.
  destruct (group1From_fenced pre tag body post Hpre Htag Hbody) as [-> Hsub].
  match goal with
  | |- context [?x + ?y - ?x] => replace (x + y - x) with y by lia
  end.
  rewrite Hsub. by destruct (isEmpty (trim body)).
Qed.

Lemma getTypos_fenced_witness :
  includes "```" "" = false ∧ lf_free "json"
  ∧ includes (String LF "```") "[]" = false
  ∧ getTypos (λ _, Some [])
      (Some ("" +:+ "```" +:+ "json" +:+ nl +:+ "[]" +:+ String LF "```" +:+ ""))
    = if isEmpty (trim "[]") then Returned []
      else match (λ _ : string, Some []) (trim "[]") with
           | Some typos => Returned typos
           | None => Threw
           end.
Proof.
  assert (H1 : includes "```" "" = false) by reflexivity.
  assert (H2 : lf_free "json") by exact I.
  assert (H3 : includes (String LF "```") "[]" = false) by reflexivity.
  split_and!; [exact H1|exact H2|exact H3|].
  exact (getTypos_fenced (λ _, Some []) "" "json" "[]" "" H1 H2 H3).
Defined.

(** X7. A reply without three backquotes in a row yields no typo,
    whatever else it holds: [getTypos] resolves to the empty list and the
    parser is not called. *)
Theorem getTypos_no_fence (JSON_parse : string → option (list CodespellTypo.t))
    (reply : string) :
  includes "```" reply = false →
  getTypos JSON_parse (Some reply) = Returned [].
Proof.
  intros H. unfold getTypos, getCodeBlock.
  by rewrite group1From_index, (includes_none "```" reply) by done.
Qed.

Lemma getTypos_no_fence_witness :
  includes "```" "[{'token': 'teh'}]" = false
  ∧ getTypos (λ _, None) (Some "[{'token': 'teh'}]") = Returned [].
Proof.
  assert (H : includes "```" "[{'token': 'teh'}]" = false) by reflexivity.
  split; [exact H|].
  exact (getTypos_no_fence (λ _, None) "[{'token': 'teh'}]" H).
Defined.
End AdapterExtras.

(** ** Escaping a token *)
Section EscapeExtras.
Import Diagnostics.
Implicit Types (s t : string) (c : ascii).

Lemma escaped_app s t : escaped (s +:+ t) = escaped s +:+ escaped t.
Proof.
  induction s as [|c s IH]; [done|].
  rewrite sapp_cons. cbn [escaped]. rewrite IH. by destruct (special c).
Qed.

Lemma special_backslash : special "\" = true.
Proof. reflexivity. Qed.

Lemma escaped_inj s t : escaped s = escaped t → s = t.
Proof.
  revert t. induction s as [|c s IH]; intros [|d t]; cbn [escaped].
  - done.
  - by destruct (special d).
  - by destruct (special c).
  - destruct (special c) eqn:Ec, (special d) eqn:Ed.
    + intros [= -> H]. f_equal. by apply IH.
    + intros [= <- H]. by rewrite special_backslash in Ed.
    + intros [= -> H]. by rewrite special_backslash in Ec.
    + intros [= -> H]. f_equal. by apply IH.
Qed.

(** X8. [escapeRegExp] works code unit by code unit: it distributes over
    concatenation, and it maps one code unit to itself, preceded by a
    backslash exactly when it is one of [-[]{}()*+?.,\^$|#] or white
    space. *)
Theorem escapeRegExp_app (s t : string) (c : ascii) :
  escapeRegExp (s +:+ t) = escapeRegExp s +:+ escapeRegExp t
  ∧ escapeRegExp (String c "")
    = if existsb (Ascii.eqb c) (list_ascii_of_string "-[]{}()*+?.,\^$|#")
         || isWhiteSpace c
      then String "\" (String c "") else String c "".
Proof.
  rewrite !escapeRegExp_escaped. split; [apply escaped_app|].
  cbn [escaped].
  replace (existsb (Ascii.eqb c) (list_ascii_of_string "-[]{}()*+?.,\^$|#")
           || isWhiteSpace c) with (special c); [done|].
  each_code_unit c; reflexivity.
Qed.

(** X9. [escapeRegExp] loses nothing: two tokens with the same escaped
    text are the same token. *)
Theorem escapeRegExp_injective (s t : string) :
  escapeRegExp s = escapeRegExp t → s = t.
Proof. rewrite !escapeRegExp_escaped. apply escaped_inj. Qed.

Lemma escapeRegExp_injective_witness :
  escapeRegExp "a.b" = escapeRegExp "a.b" ∧ "a.b" = "a.b".
Proof.
  assert (H : escapeRegExp "a.b" = escapeRegExp "a.b") by reflexivity.
  split; [exact H|]. exact (escapeRegExp_injective "a.b" "a.b" H).
Defined.
End EscapeExtras.

(** ** Ranges of tokens that do not span lines *)
Section OneLineFacts.
Import Vscode.
Implicit Types (s t l x : string) (c : ascii) (p n e : nat) (rest : list string).

Lemma one_line_cons c t :
  one_line (String c t) → c ≠ LF ∧ c ≠ CR ∧ one_line t.
Proof.
  simpl. intros [Hc Ht]%andb_prop_elim. apply negb_prop_elim in Hc.
  split_and!; [..|done]; intros ->; by apply Hc.
Qed.

(** A token without line terminator that occurs at the start of a line's
    rest ends within the line. *)
Lemma occurrence_inside t l eol x :
  one_line t → String.prefix t (l +:+ eolString eol +:+ x) = true →
  String.length t ≤ String.length l.
Proof.
  revert t. induction l as [|c l IH]; intros t Ht H.
  - destruct t as [|c t]; [simpl; lia|].
    apply one_line_cons in Ht as (Hlf & Hcr & _).
    change ("" +:+ eolString eol +:+ x) with (eolString eol +:+ x) in H.
    destruct eol; cbn [eolString] in H; rewrite sapp_cons, prefix_cons in H;
      rewrite bool_decide_eq_false_2 in H by congruence; done.
  - destruct t as [|c' t]; [simpl; lia|].
    apply one_line_cons in Ht as (_ & _ & Ht).
    rewrite sapp_cons, prefix_cons in H. apply andb_true_iff in H as [_ H].
    simpl. apply IH in H; [lia|done].
Qed.

Lemma occurrence_in_line t l eol x p :
  one_line t → t ≠ "" →
  p < String.length l + String.length (eolString eol) →
  String.prefix t (slice p (l +:+ eolString eol +:+ x)) = true →
  p + String.length t ≤ String.length l.
Proof.
  intros Ht Hne Hp H. destruct (decide (p ≤ String.length l)) as [Hle|Hgt].
  - rewrite slice_app_le in H by lia.
    apply occurrence_inside in H; [|done]. rewrite length_slice in H. lia.
  - destruct eol; cbn [eolString String.length] in Hp; [lia|].
    replace p with (String.length l + 1) in H by lia.
    rewrite slice_app_add in H. cbn [eolString String.append slice] in H.
    change (String CR (String LF "") +:+ x) with (String CR (String LF x)) in H.
    cbn [slice] in H.
    destruct t as [|c t]; [done|]. apply one_line_cons in Ht as (Hlf & _ & _).
    rewrite prefix_cons, bool_decide_eq_false_2 in H by congruence. done.
Qed.

Lemma positionAt_go_one_line t l rest eol n p :
  one_line t → t ≠ "" →
  String.prefix t (slice p (join (eolString eol) (l :: rest))) = true →
  positionAt_go l rest (String.length (eolString eol)) n (p + String.length t)
  = {| line := line (positionAt_go l rest (String.length (eolString eol)) n p);
       character :=
         character (positionAt_go l rest (String.length (eolString eol)) n p)
         + String.length t |}.
Proof.
  intros Ht Hne. revert l n p. induction rest as [|l' rest IH]; intros l n p H.
  - cbn [join] in H. apply prefix_slice_length in H; [|done].
    cbn [positionAt_go line character]. f_equal. lia.
  - change (join (eolString eol) (l :: l' :: rest))
      with (l +:+ eolString eol +:+ join (eolString eol) (l' :: rest)) in H.
    cbn [positionAt_go].
    destruct (p <? String.length l + String.length (eolString eol)) eqn:E.
    + apply Nat.ltb_lt in E.
      pose proof (occurrence_in_line _ _ _ _ _ Ht Hne E H) as Hin.
      replace (p + String.length t <? String.length l + String.length (eolString eol))
        with true by (symmetry; apply Nat.ltb_lt; destruct eol; simpl; lia).
      cbn [line character]. f_equal. lia.
    + apply Nat.ltb_ge in E.
      replace (p + String.length t <? String.length l + String.length (eolString eol))
        with false by (symmetry; apply Nat.ltb_ge; lia).
      replace (p + String.length t - (String.length l + String.length (eolString eol)))
        with (p - (String.length l + String.length (eolString eol)) + String.length t)
        by lia.
      apply IH.
      rewrite <- H. rewrite <- (sapp_assoc l).
      replace p with (String.length (l +:+ eolString eol)
                      + (p - (String.length l + String.length (eolString eol)))) at 2
        by (rewrite slength_app; lia).
      by rewrite slice_app_add.
Qed.

Lemma positionAt_one_line doc t p :
  one_line t → t ≠ "" →
  String.prefix t (slice p (getText doc)) = true →
  positionAt doc (p + String.length t)
  = {| line := line (positionAt doc p);
       character := character (positionAt doc p) + String.length t |}.
Proof. intros. by apply positionAt_go_one_line. Qed.
End OneLineFacts.

(** ** Refreshing the diagnostics of a document *)
Section RefreshExtras.
Import Vscode Diagnostics.

Lemma refreshDiagnostics_result fuel doc st st' :
  refreshDiagnostics fuel doc st = Returned st' →
  st' = st ∧ DocumentsToTypos_getTypos st doc = None
  ∨ ∃ typos ds, DocumentsToTypos_getTypos st doc = Some typos
      ∧ forEachTypo fuel doc (getText doc) typos [] = Returned ds
      ∧ st' = setDiagnostics doc ds st.
Proof.
  unfold refreshDiagnostics.
  destruct (DocumentsToTypos_getTypos st doc) as [typos|]; [|intros [= <-]; by left].
  destruct (forEachTypo fuel doc (getText doc) typos []) as [ds| |] eqn:E; [|done..].
  intros [= <-]. right. by exists typos, ds.
Qed.

Lemma sorted_count (k n lo : nat) (l : list nat) :
  StronglySorted (λ a b, a + k ≤ b) l →
  Forall (λ j, lo ≤ j ∧ j + k ≤ n) l →
  length l * k ≤ n - lo.
Proof.
  intros Hs. revert lo. induction Hs as [|j l Hs IH Hj]; intros lo Hl; [simpl; lia|].
  inversion Hl as [|? ? [Hlo Hn] Hl']; subst.
  assert (H : length l * k ≤ n - (j + k)).
  { apply IH. rewrite Forall_forall in Hj, Hl'. apply Forall_forall. intros x Hx.
    split; [by apply Hj|by apply Hl']. }
  simpl. lia.
Qed.

Lemma occurrences_count t text :
  t ≠ "" → length (occurrences t text) * String.length t ≤ String.length text.
Proof.
  intros Ht. rewrite <- (Nat.sub_0_r (String.length text)).
  apply sorted_count.
  - eapply StronglySorted_weaken; [|apply occurrences_go_sorted]. by intros a b [? _].
  - apply Forall_forall. intros j Hj. split; [lia|].
    by apply (occurrences_verbatim t text j Ht) in Hj as (_ & _ & ?).
Qed.

(** X10. Refreshing twice is refreshing once: a refresh that returns
    leaves a state that a second refresh of the same document returns
    unchanged. The diagnostics of the document are replaced, never piled
    up. *)
Theorem refreshDiagnostics_idempotent fuel doc st st' :
  refreshDiagnostics fuel doc st = Returned st' →
  refreshDiagnostics fuel doc st' = Returned st'.
Proof.
  intros [[-> Hnone]|(typos & ds & Htypos & Hds & ->)]%refreshDiagnostics_result.
  - unfold refreshDiagnostics. by rewrite Hnone.
  - unfold refreshDiagnostics.
    change (DocumentsToTypos_getTypos (setDiagnostics doc ds st) doc)
      with (DocumentsToTypos_getTypos st doc).
    rewrite Htypos. cbn zeta. rewrite Hds. cbn [obind]. f_equal.
    unfold setDiagnostics. cbn [documentsToTypos codespellDiagnostics lastSavedContent].
    by rewrite insert_insert_eq.
Qed.

Lemma refreshDiagnostics_idempotent_witness :
  let doc := Scenario.document "teh cat" ["teh"] in
  let st := Scenario.store (Some [Scenario.typo "teh" "the"]) None in
  let st' := Scenario.returned (refreshDiagnostics 12 doc st) in
  refreshDiagnostics 12 doc st = Returned st'
  ∧ refreshDiagnostics 12 doc st' = Returned st'.
Proof.
  cbv zeta.
  assert (H : refreshDiagnostics 12 (Scenario.document "teh cat" ["teh"])
                (Scenario.store (Some [Scenario.typo "teh" "the"]) None)
              = Returned
                  (Scenario.returned
                     (refreshDiagnostics 12 (Scenario.document "teh cat" ["teh"])
                        (Scenario.store (Some [Scenario.typo "teh" "the"]) None))))
    by reflexivity.
  split; [exact H|].
  exact (refreshDiagnostics_idempotent 12 _ _ _ H).
Defined.

(** X11. A refresh writes one entry of the Diagnostic Collection and
    nothing else: the Typo Store and the snapshots are as before, and so
    are the diagnostics of every other document. *)
Theorem refreshDiagnostics_local fuel doc st st' :
  refreshDiagnostics fuel doc st = Returned st' →
  documentsToTypos st' = documentsToTypos st
  ∧ lastSavedContent st' = lastSavedContent st
  ∧ ∀ other, uri other ≠ uri doc →
      getCodespellDiagnostics st' other = getCodespellDiagnostics st other.
Proof.
  intros [[-> Hnone]|(typos & ds & Htypos & Hds & ->)]%refreshDiagnostics_result;
    [done|].
  split_and!; [done..|]. intros other Hother.
  unfold getCodespellDiagnostics, setDiagnostics. cbn [codespellDiagnostics].
  by rewrite lookup_insert_ne.
Qed.

Lemma refreshDiagnostics_local_witness :
  let doc := Scenario.document "teh cat" ["teh"] in
  let st := Scenario.store (Some [Scenario.typo "teh" "the"]) None in
  let st' := Scenario.returned (refreshDiagnostics 12 doc st) in
  refreshDiagnostics 12 doc st = Returned st'
  ∧ documentsToTypos st' = documentsToTypos st
  ∧ lastSavedContent st' = lastSavedContent st
  ∧ ∀ other, uri other ≠ uri doc →
      getCodespellDiagnostics st' other = getCodespellDiagnostics st other.
Proof.
  cbv zeta.
  assert (H : refreshDiagnostics 12 (Scenario.document "teh cat" ["teh"])
                (Scenario.store (Some [Scenario.typo "teh" "the"]) None)
              = Returned
                  (Scenario.returned
                     (refreshDiagnostics 12 (Scenario.document "teh cat" ["teh"])
                        (Scenario.store (Some [Scenario.typo "teh" "the"]) None))))
    by reflexivity.
  split; [exact H|].
  exact (refreshDiagnostics_local 12 _ _ _ H).
Defined.

(** X12. Closing a document does not lose its diagnostics for good: as
    long as the Typo Store has an entry for it, the next refresh gives
    the same result as if the document had not been closed. *)
Theorem refresh_after_close fuel doc st typos :
  DocumentsToTypos_getTypos st doc = Some typos →
  refreshDiagnostics fuel doc (onDidCloseTextDocument doc st)
  = refreshDiagnostics fuel doc st.
Proof.
  intros Htypos. unfold refreshDiagnostics.
  change (DocumentsToTypos_getTypos (onDidCloseTextDocument doc st) doc)
    with (DocumentsToTypos_getTypos st doc).
  rewrite Htypos. cbn zeta.
  destruct (forEachTypo fuel doc (getText doc) typos []) as [ds| |]; [|done..].
  cbn [obind]. f_equal. unfold setDiagnostics, onDidCloseTextDocument.
  cbn [documentsToTypos codespellDiagnostics lastSavedContent].
  by rewrite insert_delete_eq.
Qed.

Lemma refresh_after_close_witness :
  let doc := Scenario.document "teh cat" ["teh"] in
  let st := Scenario.store (Some [Scenario.typo "teh" "the"]) None in
  DocumentsToTypos_getTypos st doc = Some [Scenario.typo "teh" "the"]
  ∧ refreshDiagnostics 12 doc (onDidCloseTextDocument doc st)
    = refreshDiagnostics 12 doc st.
Proof.
  cbv zeta.
  assert (H : DocumentsToTypos_getTypos
                (Scenario.store (Some [Scenario.typo "teh" "the"]) None)
                (Scenario.document "teh cat" ["teh"])
              = Some [Scenario.typo "teh" "the"]) by reflexivity.
  split; [exact H|].
  exact (refresh_after_close 12 _ _ _ H).
Defined.

(** X13. A token without line terminator is underlined on one line: each
    diagnostic of a refresh whose tokens are non-empty and hold neither
    line feed nor carriage return, and whose typos have a message where
    their token occurs, has a range that ends on the line where it
    starts, as many characters further as the token is long. This holds
    for documents with either end-of-line sequence. *)
Theorem refreshDiagnostics_one_line fuel doc st typos :
  DocumentsToTypos_getTypos st doc = Some typos →
  Forall (λ typo, CodespellTypo.token typo ≠ ""
                  ∧ one_line (CodespellTypo.token typo)) typos →
  Forall (λ typo, occurrences (CodespellTypo.token typo) (getText doc) ≠ [] →
                  CodespellTypo.info typo ≠ "") typos →
  String.length (getText doc) < fuel →
  ∃ ds, refreshDiagnostics fuel doc st = Returned (setDiagnostics doc ds st)
    ∧ Forall (λ d,
        let r := CodespellDiagnostic.range d in
        line (end_ r) = line (start r)
        ∧ character (end_ r)
          = character (start r) + String.length (CodespellDiagnostic.token d)) ds.
Proof.
  intros Htypos Htokens Hinfo Hfuel.
  exists (concat (map (diagnosticsFor doc) typos)). split.
  - apply (refreshDiagnostics_nonempty _ _ _ typos); [done| |done..].
    eapply Forall_impl; [exact Htokens|]. by intros typo [? _].
  - apply Forall_concat. rewrite Forall_map.
    eapply Forall_impl; [exact Htokens|]. intros typo [Hne Hone].
    unfold diagnosticsFor. rewrite Forall_map. apply Forall_forall. intros j Hj.
    apply (occurrences_verbatim _ _ j Hne) in Hj as (Hj & _ & _).
    cbn. by rewrite (positionAt_one_line doc _ j Hone Hne Hj).
Qed.

Lemma refreshDiagnostics_one_line_witness :
  let doc := Scenario.document "teh cat" ["teh"] in
  let typos := [Scenario.typo "teh" "the"] in
  let st := Scenario.store (Some typos) None in
  DocumentsToTypos_getTypos st doc = Some typos
  ∧ Forall (λ typo, CodespellTypo.token typo ≠ ""
                    ∧ one_line (CodespellTypo.token typo)) typos
  ∧ Forall (λ typo, occurrences (CodespellTypo.token typo) (getText doc) ≠ [] →
                    CodespellTypo.info typo ≠ "") typos
  ∧ String.length (getText doc) < 12
  ∧ ∃ ds, refreshDiagnostics 12 doc st = Returned (setDiagnostics doc ds st)
      ∧ Forall (λ d,
          let r := CodespellDiagnostic.range d in
          line (end_ r) = line (start r)
          ∧ character (end_ r)
            = character (start r) + String.length (CodespellDiagnostic.token d)) ds.
Proof.
  cbv zeta.
  assert (H1 : DocumentsToTypos_getTypos
                 (Scenario.store (Some [Scenario.typo "teh" "the"]) None)
                 (Scenario.document "teh cat" ["teh"])
               = Some [Scenario.typo "teh" "the"]) by reflexivity.
  assert (H2 : Forall (λ typo, CodespellTypo.token typo ≠ ""
                               ∧ one_line (CodespellTypo.token typo))
                 [Scenario.typo "teh" "the"])
    by (repeat constructor; discriminate).
  assert (H3 : String.length (getText (Scenario.document "teh cat" ["teh"])) < 12)
    by (apply Nat.ltb_lt; reflexivity).
  assert (H4 : Forall (λ typo,
                 occurrences (CodespellTypo.token typo)
                   (getText (Scenario.document "teh cat" ["teh"])) ≠ [] →
                 CodespellTypo.info typo ≠ "")
                 [Scenario.typo "teh" "the"])
    by (repeat constructor; discriminate).
  split_and!; [exact H1|exact H2|exact H4|exact H3|].
  exact (refreshDiagnostics_one_line 12 _ _ _ H1 H2 H4 H3).
Defined.

(** X14. The number of diagnostics is bounded by the text: when the
    tokens are non-empty and the typos have a message where their token
    occurs, the occurrences of a token that a refresh reports do not
    overlap, so a typo yields at most (length of the text / length of its
    token) diagnostics, and a refresh at most (number of typos * length
    of the text). *)
Theorem refreshDiagnostics_count fuel doc st typos :
  DocumentsToTypos_getTypos st doc = Some typos →
  Forall (λ typo, CodespellTypo.token typo ≠ "") typos →
  Forall (λ typo, occurrences (CodespellTypo.token typo) (getText doc) ≠ [] →
                  CodespellTypo.info typo ≠ "") typos →
  String.length (getText doc) < fuel →
  ∃ ds, refreshDiagnostics fuel doc st = Returned (setDiagnostics doc ds st)
    ∧ ds = concat (map (diagnosticsFor doc) typos)
    ∧ Forall (λ typo,
        length (diagnosticsFor doc typo) * String.length (CodespellTypo.token typo)
        ≤ String.length (getText doc)) typos
    ∧ length ds ≤ length typos * String.length (getText doc).
Proof.
  intros Htypos Htokens Hinfo Hfuel.
  exists (concat (map (diagnosticsFor doc) typos)).
  assert (Hone : Forall (λ typo,
            length (diagnosticsFor doc typo) * String.length (CodespellTypo.token typo)
            ≤ String.length (getText doc)) typos).
  { eapply Forall_impl; [exact Htokens|]. intros typo Hne.
    unfold diagnosticsFor. rewrite length_map. by apply occurrences_count. }
  split_and!; [by apply (refreshDiagnostics_nonempty _ _ _ typos)|done|done|].
  clear Htypos Hinfo. induction Htokens as [|typo typos Hne Htokens IH]; [done|].
  inversion Hone as [|? ? H1 Hrest]; subst.
  cbn [map concat length]. rewrite length_app. specialize (IH Hrest).
  assert (1 ≤ String.length (CodespellTypo.token typo))
    by (destruct (CodespellTypo.token typo); [done|simpl; lia]).
  nia.
Qed.

Lemma refreshDiagnostics_count_witness :
  let doc := Scenario.document "teh cat" ["teh"] in
  let typos := [Scenario.typo "teh" "the"] in
  let st := Scenario.store (Some typos) None in
  DocumentsToTypos_getTypos st doc = Some typos
  ∧ Forall (λ typo, CodespellTypo.token typo ≠ "") typos
  ∧ Forall (λ typo, occurrences (CodespellTypo.token typo) (getText doc) ≠ [] →
                    CodespellTypo.info typo ≠ "") typos
  ∧ String.length (getText doc) < 12
  ∧ ∃ ds, refreshDiagnostics 12 doc st = Returned (setDiagnostics doc ds st)
      ∧ ds = concat (map (diagnosticsFor doc) typos)
      ∧ Forall (λ typo,
          length (diagnosticsFor doc typo) * String.length (CodespellTypo.token typo)
          ≤ String.length (getText doc)) typos
      ∧ length ds ≤ length typos * String.length (getText doc).
Proof.
  cbv zeta.
  assert (H1 : DocumentsToTypos_getTypos
                 (Scenario.store (Some [Scenario.typo "teh" "the"]) None)
                 (Scenario.document "teh cat" ["teh"])
               = Some [Scenario.typo "teh" "the"]) by reflexivity.
  assert (H2 : Forall (λ typo, CodespellTypo.token typo ≠ "")
                 [Scenario.typo "teh" "the"])
    by (repeat constructor; discriminate).
  assert (H3 : String.length (getText (Scenario.document "teh cat" ["teh"])) < 12)
    by (apply Nat.ltb_lt; reflexivity).
  assert (H4 : Forall (λ typo,
                 occurrences (CodespellTypo.token typo)
                   (getText (Scenario.document "teh cat" ["teh"])) ≠ [] →
                 CodespellTypo.info typo ≠ "")
                 [Scenario.typo "teh" "the"])
    by (repeat constructor; discriminate).
  split_and!; [exact H1|exact H2|exact H4|exact H3|].
  exact (refreshDiagnostics_count 12 _ _ _ H1 H2 H4 H3).
Defined.
End RefreshExtras.

(** ** The first patch of a text *)
Section WholeTextFacts.
Import Diff Utils.
Implicit Types (s t cur : string) (c : ascii).

Lemma tokenize_go_nonempty s cur : cur +:+ s ≠ "" → tokenize_go s cur ≠ [].
Proof.
  revert cur. induction s as [|c s IH]; intros cur H.
  - rewrite sapp_nil_r in H. cbn [tokenize_go]. by destruct cur.
  - cbn [tokenize_go]. destruct (ascii_dec c LF); [done|].
    apply IH. by destruct cur.
Qed.

Lemma chomp_app s t : t ≠ "" → chomp (s +:+ t) = s +:+ chomp t.
Proof.
  intros Ht. induction s as [|c s IH]; [done|].
  rewrite !sapp_cons. cbn [chomp]. rewrite IH.
  destruct (s +:+ t) eqn:E; [|done]. destruct s; [|done]. by subst.
Qed.

Lemma chomp_part s : ∃ r, s = chomp s +:+ r.
Proof.
  induction s as [|c s [r IH]]; [by exists ""|].
  cbn [chomp]. destruct s as [|c' s].
  - destruct (ascii_dec c LF); [by exists (String c "")|by exists ""].
  - exists r. rewrite sapp_cons. by rewrite <- IH.
Qed.

(** The lines of a text, joined again, are the text without its final
    line feed. *)
Lemma join_tokenize_go s cur :
  lf_free cur → cur +:+ s ≠ "" →
  join nl (map chomp (tokenize_go s cur)) = chomp (cur +:+ s).
Proof.
  revert cur. induction s as [|c s IH]; intros cur Hcur Hne.
  - rewrite sapp_nil_r in *. cbn [tokenize_go]. by destruct cur.
  - cbn [tokenize_go]. destruct (ascii_dec c LF) as [->|Hc].
    + cbn [map]. rewrite chomp_line. destruct s as [|c' s].
      * cbn [tokenize_go isEmpty map join]. symmetry. apply (chomp_line cur).
      * pose proof (tokenize_go_nonempty (String c' s) "" ltac:(done)) as Hrest.
        specialize (IH "" I ltac:(done)).
        destruct (tokenize_go (String c' s) "") as [|r rs]; [done|].
        cbn [map] in *.
        change (join nl (cur :: chomp r :: map chomp rs))
          with (cur +:+ nl +:+ join nl (chomp r :: map chomp rs)).
        rewrite IH. change ("" +:+ String c' s) with (String c' s).
        change (cur +:+ String LF (String c' s))
          with (cur +:+ nl +:+ String c' s).
        by rewrite <- !sapp_assoc, chomp_app.
    + rewrite IH.
      * by rewrite sapp_assoc.
      * rewrite lf_free_app. apply andb_prop_intro. split; [done|].
        simpl. by rewrite bool_decide_eq_false_2.
      * by destruct cur.
Qed.

Lemma findDifferences_whole text :
  text ≠ "" → includes "++ code" text = false →
  findDifferences "" text = [nl +:+ chomp text].
Proof.
  intros Hne Hinc. unfold findDifferences, createPatch.
  assert (Htok : tokenize text ≠ []) by (by apply tokenize_go_nonempty).
  destruct (structuredPatch_append [] text (map chomp (tokenize text))
              ltac:(constructor) Htok eq_refl) as (h & Hp & Hh).
  change (unlines [] +:+ text) with text in Hp. change (unlines []) with "" in Hp.
  rewrite Hp.
  rewrite (extract_one_hunk h [] (map chomp (tokenize text)) (endsWithLF text)).
  - f_equal. f_equal. by apply (join_tokenize_go text "").
  - done.
  - constructor.
  - rewrite Forall_map. eapply Forall_impl; [apply tokenize_lines|]. by intros t [? _].
  - by destruct (tokenize text).
  - unfold tokenize. rewrite (join_tokenize_go text "") by done.
    change ("" +:+ text) with text.
    destruct (chomp_part text) as [r Hr]. rewrite Hr in Hinc.
    by apply includes_app in Hinc as [? _].
Qed.
End WholeTextFacts.

(** ** The save listener and the snapshots *)
Section SaveExtras.
Import Vscode Diagnostics.

Lemma setLastSavedContent_same u content st :
  lastSavedContent st !! u = Some content → setLastSavedContent u content st = st.
Proof.
  intros H. destruct st as [ts ds snap]. unfold setLastSavedContent.
  cbn [documentsToTypos codespellDiagnostics lastSavedContent] in *.
  by rewrite insert_id.
Qed.

(** With the snapshot equal to the text, the listener goes straight to
    its last statement. *)
Lemma onDidSave_begin_same doc st :
  lastSavedContent st !! uri doc = Some (getText doc) →
  onDidSave_begin doc st = (setLastSavedContent (uri doc) (getText doc) st, None).
Proof.
  intros H. unfold onDidSave_begin. rewrite H.
  replace (if isEmpty (getText doc) then "" else getText doc) with (getText doc)
    by (by destruct (getText doc)).
  unfold Utils.findDifferences, Diff.createPatch.
  by rewrite structuredPatch_same, extract_header_only.
Qed.

Lemma lookup_setLastSavedContent u content st :
  lastSavedContent (setLastSavedContent u content st) !! u = Some content.
Proof. unfold setLastSavedContent. cbn [lastSavedContent]. apply lookup_insert_eq. Qed.

(** X15. Saving a document whose text is its snapshot does nothing: no
    analysis is requested and the state is left as it is. *)
Theorem save_unchanged doc st :
  lastSavedContent st !! uri doc = Some (getText doc) →
  onDidSave_begin doc st = (st, None).
Proof.
  intros H. rewrite onDidSave_begin_same by done.
  by rewrite setLastSavedContent_same.
Qed.

Lemma save_unchanged_witness :
  lastSavedContent Scenario.opened !! uri Scenario.text0 = Some (getText Scenario.text0)
  ∧ onDidSave_begin Scenario.text0 Scenario.opened = (Scenario.opened, None).
Proof.
  assert (H : lastSavedContent Scenario.opened !! uri Scenario.text0
              = Some (getText Scenario.text0)) by reflexivity.
  split; [exact H|]. exact (save_unchanged Scenario.text0 Scenario.opened H).
Defined.

(** X16. Once a save of a document has run to its end, with or without
    analysis, saving the same text again requests no analysis: the save
    recorded the text as the snapshot. With an analysis, this holds
    whatever happened to the stores and to the document between the
    start of the save and its resumption. *)
Theorem save_again fuel doc doc' st st0 st' st'' :
  (onDidSave_begin doc st = (st'', None)
   ∨ ∃ k, onDidSave_begin doc st = (st0, Some k)
          ∧ onDidSave_resume fuel k doc' Fulfilled st' = Returned st'') →
  onDidSave_begin doc st'' = (st'', None).
Proof.
  intros H.
  assert (Hsnap : lastSavedContent st'' !! uri doc = Some (getText doc)).
  { destruct H as [H|(k & Hk & H)].
    - unfold onDidSave_begin in H.
      destruct (negb _); [done|]. injection H as <-.
      apply lookup_setLastSavedContent.
    - unfold onDidSave_begin in Hk.
      destruct (negb _); [|done]. injection Hk as _ <-.
      unfold onDidSave_resume in H. cbn [documentUri currentContent] in H.
      destruct (refreshDiagnostics fuel doc' st') as [st1| |]; [|done..].
      injection H as <-. apply lookup_setLastSavedContent. }
  rewrite onDidSave_begin_same by done. by rewrite setLastSavedContent_same.
Qed.

Lemma save_again_witness :
  let inFlight := {| issued := 1; applied := ∅ |} in
  let analysed :=
    (spellCheck_settle Scenario.text1 0 (Returned Scenario.typos1)
       Scenario.opened inFlight).1.1 in
  let saved :=
    (Scenario.settledTo
       (analysisDone 16 Scenario.suspended1 Scenario.text1 0
          (Returned Scenario.typos1) Scenario.opened inFlight)).1 in
  (onDidSave_begin Scenario.text1 Scenario.opened = (saved, None)
   ∨ ∃ k, onDidSave_begin Scenario.text1 Scenario.opened = (Scenario.opened, Some k)
          ∧ onDidSave_resume 16 k Scenario.text1 Fulfilled analysed = Returned saved)
  ∧ lastSavedContent saved !! Scenario.file = Some (getText Scenario.text1)
  ∧ onDidSave_begin Scenario.text1 saved = (saved, None).
Proof.
  cbv zeta.
  set (analysed := (spellCheck_settle Scenario.text1 0 (Returned Scenario.typos1)
                      Scenario.opened {| issued := 1; applied := ∅ |}).1.1).
  set (saved := (Scenario.settledTo
                   (analysisDone 16 Scenario.suspended1 Scenario.text1 0
                      (Returned Scenario.typos1) Scenario.opened
                      {| issued := 1; applied := ∅ |})).1).
  assert (H : onDidSave_begin Scenario.text1 Scenario.opened = (saved, None)
              ∨ ∃ k, onDidSave_begin Scenario.text1 Scenario.opened
                     = (Scenario.opened, Some k)
                     ∧ onDidSave_resume 16 k Scenario.text1 Fulfilled analysed
                       = Returned saved).
  { right. exists Scenario.suspended1. split; reflexivity. }
  split; [exact H|]. split; [reflexivity|].
  exact (save_again 16 Scenario.text1 Scenario.text1 Scenario.opened Scenario.opened
           analysed saved H).
Defined.

(** X17. Activation records the text of the active editor's document as
    its snapshot: when [subscribeDiagnosticsToDocumentChanges] returns,
    saving that document as it is requests no analysis. *)
Theorem save_after_subscribe fuel doc st st' :
  subscribe fuel (Some doc) st = Returned st' →
  onDidSave_begin doc st' = (st', None).
Proof.
  unfold subscribe. destruct (refreshDiagnostics fuel doc st) as [st1| |]; [|done..].
  intros [= <-].
  rewrite onDidSave_begin_same by apply lookup_setLastSavedContent.
  rewrite setLastSavedContent_same; [done|]. apply lookup_setLastSavedContent.
Qed.

Lemma save_after_subscribe_witness :
  let st' := Scenario.returned (subscribe 4 (Some Scenario.text1) (Scenario.store None None)) in
  subscribe 4 (Some Scenario.text1) (Scenario.store None None) = Returned st'
  ∧ onDidSave_begin Scenario.text1 st' = (st', None).
Proof.
  cbv zeta.
  assert (H : subscribe 4 (Some Scenario.text1) (Scenario.store None None)
              = Returned
                  (Scenario.returned
                     (subscribe 4 (Some Scenario.text1) (Scenario.store None None))))
    by reflexivity.
  split; [exact H|]. exact (save_after_subscribe 4 _ _ _ H).
Defined.

(** X18. The first save of a document that has no snapshot, or an empty
    one, sends its whole text to the analysis: for a non-empty text
    without the header token [++ code] the listener suspends with one
    difference, a line feed followed by the text without its final line
    feed, and leaves the state as it is until the analysis settles. *)
Theorem save_without_snapshot doc st :
  default "" (lastSavedContent st !! uri doc) = "" →
  getText doc ≠ "" →
  includes "++ code" (getText doc) = false →
  onDidSave_begin doc st
  = (st, Some {| documentUri := uri doc; currentContent := getText doc;
                 differences := [nl +:+ Diff.chomp (getText doc)] |}).
Proof.
  intros Hsnap Hne Hinc. unfold onDidSave_begin.
  replace (match lastSavedContent st !! uri doc with
           | Some s => if isEmpty s then "" else s
           | None => ""
           end) with "".
  2:{ destruct (lastSavedContent st !! uri doc) as [s|]; [|done].
      cbn in Hsnap. by subst. }
  by rewrite findDifferences_whole.
Qed.

Lemma save_without_snapshot_witness :
  default "" (lastSavedContent (Scenario.store None None) !! uri Scenario.text1) = ""
  ∧ getText Scenario.text1 ≠ ""
  ∧ includes "++ code" (getText Scenario.text1) = false
  ∧ onDidSave_begin Scenario.text1 (Scenario.store None None)
    = (Scenario.store None None,
       Some {| documentUri := uri Scenario.text1;
               currentContent := getText Scenario.text1;
               differences := [nl +:+ Diff.chomp (getText Scenario.text1)] |}).
Proof.
  assert (H1 : default "" (lastSavedContent (Scenario.store None None)
                           !! uri Scenario.text1) = "") by reflexivity.
  assert (H2 : getText Scenario.text1 ≠ "") by discriminate.
  assert (H3 : includes "++ code" (getText Scenario.text1) = false) by reflexivity.
  split_and!; [exact H1|exact H2|exact H3|].
  exact (save_without_snapshot Scenario.text1 (Scenario.store None None) H1 H2 H3).
Defined.

(** X19. No listener of the module writes the Typo Store, and none
    forgets a snapshot: closing a document, starting and resuming a save,
    an edit and a switch of editor leave the Typo Store as it is and keep
    a snapshot for every document that had one. *)
Theorem listeners_keep_stores fuel doc st :
  let kept (st' : State) :=
    documentsToTypos st' = documentsToTypos st
    ∧ ∀ u, is_Some (lastSavedContent st !! u) → is_Some (lastSavedContent st' !! u) in
  kept (onDidCloseTextDocument doc st)
  ∧ kept (onDidSave_begin doc st).1
  ∧ (∀ k settled st', onDidSave_resume fuel k doc settled st = Returned st' → kept st')
  ∧ (∀ st', onDidChangeTextDocument fuel (Some doc) st = Returned st' → kept st')
  ∧ (∀ st', onDidChangeActiveTextEditor fuel (Some doc) st = Returned st' → kept st').
Proof.
  cbv zeta.
  assert (Hset : ∀ u content st1,
            documentsToTypos st1 = documentsToTypos st →
            lastSavedContent st1 = lastSavedContent st →
            documentsToTypos (setLastSavedContent u content st1) = documentsToTypos st
            ∧ ∀ v, is_Some (lastSavedContent st !! v) →
                   is_Some (lastSavedContent (setLastSavedContent u content st1) !! v)).
  { intros u content st1 Ht Hs. split; [done|]. intros v Hv.
    unfold setLastSavedContent. cbn [lastSavedContent]. rewrite Hs.
    destruct (decide (u = v)) as [->|Hne].
    - rewrite lookup_insert_eq. by eexists.
    - by rewrite lookup_insert_ne. }
  split; [done|]. split; [|split; [|split]].
  - unfold onDidSave_begin. cbv zeta.
    match goal with |- context [if ?b then _ else _] => destruct b end; [done|].
    by apply Hset.
  - intros k [] st'; [|done]. unfold onDidSave_resume.
    destruct (refreshDiagnostics fuel doc st) as [st1| |] eqn:E; [|done..].
    intros [= <-]. apply refreshDiagnostics_frame in E as [Ht Hs]. by apply Hset.
  - intros st' E. apply refreshDiagnostics_frame in E as [Ht Hs].
    split; [done|]. by rewrite Hs.
  - intros st' E. apply refreshDiagnostics_frame in E as [Ht Hs].
    split; [done|]. by rewrite Hs.
Qed.
End SaveExtras.

(** ** Exceptions *)
Section ExceptionExtras.
Import Vscode Diagnostics.

(** X20. A refresh throws only from the constructor of a diagnostic:
    whatever the tokens of the Typo Store are, the pattern built from an
    escaped token is a valid regular expression, so the constructor of
    [RegExp] raises no syntax error; and when a refresh throws, the
    document's typo list holds a typo with an empty message. With no
    empty message in the list the refresh does not throw, and neither do
    the listeners of edits and of editor switches, activation, and a save
    that resumes after a fulfilled analysis. *)
Theorem refreshDiagnostics_throws_on_empty_message fuel doc st :
  (∀ t, RegExp.create (escapeRegExp t) "gm" ≠ None)
  ∧ (refreshDiagnostics fuel doc st = Threw →
     ∃ typos, DocumentsToTypos_getTypos st doc = Some typos
              ∧ Exists (λ typo, CodespellTypo.info typo = "") typos)
  ∧ ((∀ typos, DocumentsToTypos_getTypos st doc = Some typos →
               Forall (λ typo, CodespellTypo.info typo ≠ "") typos) →
     refreshDiagnostics fuel doc st ≠ Threw
     ∧ onDidChangeTextDocument fuel (Some doc) st ≠ Threw
     ∧ onDidChangeActiveTextEditor fuel (Some doc) st ≠ Threw
     ∧ subscribe fuel (Some doc) st ≠ Threw
     ∧ ∀ k, onDidSave_resume fuel k doc Fulfilled st ≠ Threw).
Proof.
  assert (H : refreshDiagnostics fuel doc st = Threw →
              ∃ typos, DocumentsToTypos_getTypos st doc = Some typos
                       ∧ Exists (λ typo, CodespellTypo.info typo = "") typos).
  { unfold refreshDiagnostics.
    destruct (DocumentsToTypos_getTypos st doc) as [typos|]; [|done].
    cbv zeta.
    destruct (forEachTypo fuel doc (getText doc) typos []) as [ds| |] eqn:E;
      [done| |done].
    intros _. exists typos. split; [done|]. by eapply forEachTypo_threw. }
  split; [intros t; by rewrite create_escaped|]. split; [exact H|].
  intros Hinfo.
  assert (H' : refreshDiagnostics fuel doc st ≠ Threw).
  { intros (typos & Hst & Hex)%H. specialize (Hinfo typos Hst).
    apply Exists_exists in Hex as (typo & Hin & Hempty).
    rewrite Forall_forall in Hinfo. by apply (Hinfo typo). }
  split; [done|]. split; [done|]. split; [done|]. split.
  - unfold subscribe. by destruct (refreshDiagnostics fuel doc st).
  - intros k. unfold onDidSave_resume. by destruct (refreshDiagnostics fuel doc st).
Qed.

Lemma refreshDiagnostics_throws_on_empty_message_witness :
  let doc := Scenario.document "teh" [] in
  let st := Scenario.store (Some [Scenario.typo "the" "teh"; Scenario.mute "teh"]) None in
  refreshDiagnostics 8 doc st = Threw
  ∧ ∃ typos, DocumentsToTypos_getTypos st doc = Some typos
             ∧ Exists (λ typo, CodespellTypo.info typo = "") typos.
Proof.
  cbv zeta.
  assert (H : refreshDiagnostics 8 (Scenario.document "teh" [])
                (Scenario.store
                   (Some [Scenario.typo "the" "teh"; Scenario.mute "teh"]) None)
              = Threw) by reflexivity.
  split; [exact H|].
  exact (proj1 (proj2 (refreshDiagnostics_throws_on_empty_message 8
                         (Scenario.document "teh" [])
                         (Scenario.store
                            (Some [Scenario.typo "the" "teh"; Scenario.mute "teh"])
                            None))) H).
Defined.
End ExceptionExtras.
